(** * new-api-backend: relay retry policy, quota refund, request rewriter and
  sensitive-information mask

  A shallow embedding of
  - [controller/relay.go]   (relay pipeline, retry loop, [shouldRetry], and
                             the task relay with [shouldRetryTaskRelay]),
  - the parameter-override rewriter ([ApplyParamOverride] and friends),
  - [common/str.go]         ([MaskSensitiveInfo] and its helpers, the
                             string helpers),
  - [middleware/patch.go], [model/model_log.go] and the Ali adaptor, as far
    as their logic goes,
  together with the properties the specification states about them and
  further properties read off the code. *)

From Stdlib Require Import ZArith Lia Ascii String DecimalString.
From Stdlib Require DecimalPos.
From stdpp Require Import base option numbers list strings gmap.

Local Open Scope Z_scope.

(** ** Machine integers

  Go's [int] is 64 bits wide on the deployment targets; arithmetic wraps. *)
Module GoInt.

Definition min_int : Z := - 2 ^ 63.
Definition max_int : Z := 2 ^ 63 - 1.

Definition in_range (z : Z) : Prop := min_int <= z <= max_int.

(** Two's complement wrap-around of an unbounded result. *)
Definition wrap (z : Z) : Z := (z + 2 ^ 63) mod 2 ^ 64 - 2 ^ 63.

Definition add (a b : Z) : Z := wrap (a + b).
Definition sub (a b : Z) : Z := wrap (a - b).

(** Go's [/] on integers truncates toward zero. *)
Definition div (a b : Z) : Z := wrap (Z.quot a b).

End GoInt.


(** ** Go strings

    A Go string is a sequence of bytes; [string] is the same, one [ascii] per
    byte.  The functions below are those of packages [strings] and [strconv]
    that the sources call, on byte strings. *)
Module GoStrings.

Local Open Scope nat_scope.

Fixpoint take (n : nat) (s : string) : string :=
  match n, s with
  | S n', String c s' => String c (take n' s')
  | _, _ => EmptyString
  end.

Fixpoint drop (n : nat) (s : string) : string :=
  match n, s with
  | S n', String _ s' => drop n' s'
  | _, _ => s
  end.

(** [strings.HasPrefix] *)
Fixpoint HasPrefix (s prefix : string) : bool :=
  match prefix, s with
  | EmptyString, _ => true
  | String p prefix', String c s' => Ascii.eqb c p && HasPrefix s' prefix'
  | String _ _, EmptyString => false
  end.

(** [strings.HasSuffix] *)
Definition HasSuffix (s suffix : string) : bool :=
  (String.length suffix <=? String.length s) &&
  String.eqb (drop (String.length s - String.length suffix) s) suffix.

(** [strings.Index]: where [substr] first occurs in [s], if it does. *)
Fixpoint Index (s substr : string) : option nat :=
  if HasPrefix s substr then Some 0
  else match s with
       | EmptyString => None
       | String _ s' => S <$> Index s' substr
       end.

(** [strings.Contains] *)
Definition Contains (s substr : string) : bool :=
  match Index s substr with Some _ => true | None => false end.

Fixpoint Split_go (sep : string) (s : string) (skip : nat) (cur : string)
    : list string :=
  match s with
  | EmptyString => [String.rev cur]
  | String c s' =>
    match skip with
    | S skip' => Split_go sep s' skip' cur
    | O =>
      if HasPrefix s sep
      then String.rev cur :: Split_go sep s' (String.length sep - 1) EmptyString
      else Split_go sep s' 0 (String c cur)
    end
  end.

(** [strings.Split] for a separator that is not empty: the pieces between
    successive occurrences of [sep], found from the left. *)
Definition Split (s sep : string) : list string := Split_go sep s 0 EmptyString.

(** [strings.Replace(s, old, new, 1)] for [old] not empty: the first
    occurrence of [old] gives way to [new]. *)
Definition Replace1 (s old new : string) : string :=
  match Index s old with
  | Some n => take n s +:+ new +:+ drop (n + String.length old) s
  | None => s
  end.

(** [strings.Join] *)
Fixpoint Join (elems : list string) (sep : string) : string :=
  match elems with
  | [] => EmptyString
  | [e] => e
  | e :: elems' => e +:+ sep +:+ Join elems' sep
  end.

(** [strings.Repeat] *)
Fixpoint Repeat (s : string) (count : nat) : string :=
  match count with
  | O => EmptyString
  | S count' => s +:+ Repeat s count'
  end.

(** [strings.TrimSuffix] *)
Definition TrimSuffix (s suffix : string) : string :=
  if HasSuffix s suffix
  then take (String.length s - String.length suffix) s
  else s.

Fixpoint TrimLeft1 (s : string) (c : ascii) : string :=
  match s with
  | String c' s' => if Ascii.eqb c' c then TrimLeft1 s' c else s
  | EmptyString => EmptyString
  end.

(** [strings.Trim(s, cutset)] for a cutset of the one character [c]. *)
Definition Trim1 (s : string) (c : ascii) : string :=
  String.rev (TrimLeft1 (String.rev (TrimLeft1 s c)) c).

Definition is_upper (c : ascii) : bool :=
  (65 <=? nat_of_ascii c) && (nat_of_ascii c <=? 90).
Definition is_lower (c : ascii) : bool :=
  (97 <=? nat_of_ascii c) && (nat_of_ascii c <=? 122).
Definition is_digit (c : ascii) : bool :=
  (48 <=? nat_of_ascii c) && (nat_of_ascii c <=? 57).

Fixpoint map_chars (f : ascii -> ascii) (s : string) : string :=
  match s with
  | EmptyString => EmptyString
  | String c s' => String (f c) (map_chars f s')
  end.

(** [strings.ToUpper] and [strings.ToLower], on the ASCII letters. *)
Definition ToUpper : string -> string :=
  map_chars (fun c => if is_lower c then ascii_of_nat (nat_of_ascii c - 32) else c).
Definition ToLower : string -> string :=
  map_chars (fun c => if is_upper c then ascii_of_nat (nat_of_ascii c + 32) else c).

(** The value of a run of decimal digits, most significant first. *)
Fixpoint digits_value (acc : Z) (s : string) : option Z :=
  match s with
  | EmptyString => Some acc
  | String c s' =>
    if is_digit c
    then digits_value (10 * acc + Z.of_nat (nat_of_ascii c - 48))%Z s'
    else None
  end.

(** [strconv.Atoi] with the error dropped ([n, _ := strconv.Atoi(s)]): the
    value of an optionally signed decimal numeral, clamped to the range of
    [int] when it does not fit, and 0 when [s] is no numeral. *)
Definition Atoi (s : string) : Z :=
  let clamp z := Z.max GoInt.min_int (Z.min GoInt.max_int z) in
  match s with
  | EmptyString => 0%Z
  | String "-" (String c ds) =>
    match digits_value 0 (String c ds) with
    | Some v => clamp (- v)%Z
    | None => 0%Z
    end
  | String "+" (String c ds) =>
    match digits_value 0 (String c ds) with
    | Some v => clamp v
    | None => 0%Z
    end
  | _ =>
    match digits_value 0 s with
    | Some v => clamp v
    | None => 0%Z
    end
  end.

(** [strconv.Itoa] *)
Definition Itoa (n : Z) : string := NilZero.string_of_int (Z.to_int n).

(** Every character of [s] satisfies [p]. *)
Fixpoint all_chars (p : ascii -> bool) (s : string) : bool :=
  match s with
  | EmptyString => true
  | String c s' => p c && all_chars p s'
  end.

(** How many characters at the front of [s] satisfy [p]. *)
Fixpoint span (p : ascii -> bool) (s : string) : nat :=
  match s with
  | String c s' => if p c then S (span p s') else 0
  | EmptyString => 0
  end.

Definition no_minus (s : string) : bool :=
  all_chars (fun c => negb (Ascii.eqb c "-")) s.

Definition no_leading_digit (s : string) : bool :=
  match s with String c _ => negb (is_digit c) | EmptyString => true end.

Definition starts_with_minus (s : string) : bool :=
  match s with String c _ => Ascii.eqb c "-" | EmptyString => false end.

(** The character before the position reached after [s], when [prev] is
    the one before [s]. *)
Fixpoint last_char (prev : option ascii) (s : string) : option ascii :=
  match s with
  | EmptyString => prev
  | String c s' => last_char (Some c) s'
  end.

End GoStrings.
(** ** The error taxonomy ([one-api/types]) *)
Module types.

Inductive ErrorCode :=
| ErrorCodeInvalidRequest
| ErrorCodeGenRelayInfoFailed
| ErrorCodeSensitiveWordsDetected
| ErrorCodeCountTokenFailed
| ErrorCodeModelPriceError
| ErrorCodeGetChannelFailed
| ErrorCodeInsufficientQuota
| ErrorCodePreConsumeFailed
| ErrorCodeChannelResponseError
| ErrorCodeStreamDecodeError
| ErrorCodeInternal.

(** Modelled from the spec: the declaration of [types.NewAPIError] is not
    part of the sources at hand.  Section 3 of the specification gives it as
    [{kind, http_status, wrapped_cause, skip_retry?, channel_error?}]; the
    wrapped cause plays no role in the retry and refund logic. *)
Record NewAPIError := {
  errorCode    : ErrorCode;
  StatusCode   : Z;
  skipRetry    : bool;
  channelError : bool;
}.

(** Modelled from the spec: [types.IsChannelError] reads the
    [channel_error] flag; a nil error is not a channel error. *)
Definition IsChannelError (err : option NewAPIError) : bool :=
  match err with
  | None => false
  | Some e => channelError e
  end.

(** Modelled from the spec: [types.IsSkipRetryError] reads the
    [skip_retry] flag; a nil error is not a skip-retry error. *)
Definition IsSkipRetryError (err : option NewAPIError) : bool :=
  match err with
  | None => false
  | Some e => skipRetry e
  end.

Inductive RelayFormat :=
| RelayFormatOpenAI
| RelayFormatClaude
| RelayFormatGemini
| RelayFormatOpenAIRealtime
| RelayFormatTask
| RelayFormatMjProxy.

End types.

(** ** [controller/relay.go] *)
Module controller.
Import types.

(** *** The request context

    [gin.Context] carries a string-keyed bag of values ([c.Set], [c.Get]). *)
Inductive CtxValue :=
| CInt (n : Z)
| CBool (b : bool)
| CString (s : string)
| CStringSlice (l : list string).

Abbreviation Context := (gmap string CtxValue).

Definition GetInt (c : Context) (k : string) : Z :=
  match c !! k with Some (CInt n) => n | _ => 0 end.
Definition GetBool (c : Context) (k : string) : bool :=
  match c !! k with Some (CBool b) => b | _ => false end.
Definition GetString (c : Context) (k : string) : string :=
  match c !! k with Some (CString s) => s | _ => "" end.
Definition GetStringSlice (c : Context) (k : string) : list string :=
  match c !! k with Some (CStringSlice l) => l | _ => [] end.

Record Channel := {
  Id         : Z;
  Type_      : Z;
  Name       : string;
  AutoBan    : bool;
  IsMultiKey : bool;
}.

Inductive RelayMode :=
| RelayModeChatCompletions
| RelayModeImagesGenerations
| RelayModeImagesEdits
| RelayModeAudioSpeech
| RelayModeAudioTranslation
| RelayModeAudioTranscription
| RelayModeRerank
| RelayModeEmbeddings
| RelayModeResponses.

(** The per-request ledger; only the fields the pipeline itself reads. *)
Record RelayInfo := {
  Mode                  : RelayMode;
  PromptTokens          : Z;
  FinalPreConsumedQuota : Z;
}.

Definition SetPromptTokens (info : RelayInfo) (tokens : Z) : RelayInfo :=
  {| Mode := Mode info;
     PromptTokens := tokens;
     FinalPreConsumedQuota := FinalPreConsumedQuota info |}.

Record PriceData := { ShouldPreConsumedQuota : Z }.

(** The relay helpers of package [relay], each an upstream round trip. *)
Inductive Helper :=
| WssHelper | ClaudeHelper | GeminiEmbeddingHandler | GeminiHelper
| ImageHelper | AudioHelper | RerankHelper | EmbeddingHelper
| ResponsesHelper | TextHelper.

Inductive CacheResult :=
| CacheErr
| CacheNil
| CacheChannel (ch : Channel).

(** Everything [Relay] calls outside this file: configuration, the request
    at hand and the collaborating packages.  A helper that receives the
    [*RelayInfo] pointer returns the ledger as it leaves it; the attempt index
    stands for whatever else an upstream call depends on. *)
Record World := {
  RetryTimes : Z;
  NewError : ErrorCode -> bool -> NewAPIError;
  Upgrade : bool;
  GetAndValidateRequest : bool;
  GenRelayInfo : option RelayInfo;
  ShouldCheckPromptSensitive : bool;
  CheckSensitiveText : bool;
  CountRequestToken : RelayInfo -> option Z * RelayInfo;
  ModelPriceHelper : RelayInfo -> Z -> option PriceData * RelayInfo;
  PreConsumeQuota : Z -> RelayInfo -> option NewAPIError * RelayInfo;
  CacheGetRandomSatisfiedChannel : Context -> Z -> Context * CacheResult;
  SetupContextForSelectedChannel :
    Context -> Channel -> Context * option NewAPIError;
  RequestURLPathHasEmbed : bool;
  runHelper :
    Helper -> Z -> Context -> RelayInfo ->
    option NewAPIError * RelayInfo * Context;
}.

(** What an observer sees of one run, in order. *)
Inductive Event :=
| EvWssError
| EvDispatch (i : Z) (h : Helper) (channelId : Z)
| EvProcessChannelError (channelId : Z) (e : NewAPIError)
| EvRetryLog (useChannel : list string)
| EvReturnPreConsumedQuota (info : RelayInfo)
| EvErrorResponse (e : NewAPIError).

Definition relayHandler (info : RelayInfo) : Helper :=
  match Mode info with
  | RelayModeImagesGenerations | RelayModeImagesEdits => ImageHelper
  | RelayModeAudioSpeech
  | RelayModeAudioTranslation
  | RelayModeAudioTranscription => AudioHelper
  | RelayModeRerank => RerankHelper
  | RelayModeEmbeddings => EmbeddingHelper
  | RelayModeResponses => ResponsesHelper
  | _ => TextHelper
  end.

Definition geminiRelayHandler (w : World) : Helper :=
  if RequestURLPathHasEmbed w then GeminiEmbeddingHandler else GeminiHelper.

Definition addUsedChannel (c : Context) (channelId : Z) : Context :=
  let useChannel := GetStringSlice c "use_channel" in
  <["use_channel" := CStringSlice (useChannel ++ [GoStrings.Itoa channelId])]> c.

Definition getChannel (w : World) (c : Context) (retryCount : Z)
    : Context * (Channel + NewAPIError) :=
  if retryCount =? 0 then
    (c, inl {| Id := GetInt c "channel_id";
               Type_ := GetInt c "channel_type";
               Name := GetString c "channel_name";
               AutoBan := GetBool c "auto_ban";
               IsMultiKey := false |})
  else
    match CacheGetRandomSatisfiedChannel w c retryCount with
    | (c, CacheErr) => (c, inr (NewError w ErrorCodeGetChannelFailed true))
    | (c, CacheNil) => (c, inr (NewError w ErrorCodeGetChannelFailed true))
    | (c, CacheChannel channel) =>
      match SetupContextForSelectedChannel w c channel with
      | (c', Some newAPIError) => (c', inr newAPIError)
      | (c', None) => (c', inl channel)
      end
    end.

(** *** [shouldRetry] *)
Definition StatusTooManyRequests : Z := 429.
Definition StatusBadRequest : Z := 400.

Definition shouldRetry (c : Context) (openaiErr : option NewAPIError)
    (retryTimes : Z) : bool :=
  match openaiErr with
  | None => false
  | Some e =>
    if IsChannelError openaiErr then true
    else if IsSkipRetryError openaiErr then false
    else if retryTimes <=? 0 then false
    else if bool_decide (is_Some (c !! "specific_channel_id")) then false
    else if StatusCode e =? StatusTooManyRequests then true
    else if StatusCode e =? 307 then true
    else if GoInt.div (StatusCode e) 100 =? 5 then
      (if (StatusCode e =? 504) || (StatusCode e =? 524) then false
       else true)
    else if StatusCode e =? StatusBadRequest then false
    else if StatusCode e =? 408 then false
    else if GoInt.div (StatusCode e) 100 =? 2 then false
    else true
  end.

(** *** [Relay]

    The variables of [Relay] that outlive a step: the context, the ledger,
    [newAPIError] and what has been observed so far. *)
Record Vars := {
  ctx         : Context;
  relayInfo   : RelayInfo;
  newAPIError : option NewAPIError;
  trace       : list Event;
}.

Definition log (v : Vars) (ev : list Event) : Vars :=
  {| ctx := ctx v; relayInfo := relayInfo v;
     newAPIError := newAPIError v; trace := trace v ++ ev |}.

(** One pass through the body of the retry loop. *)
Inductive Attempt :=
| NoChannel (v : Vars)
| Done (v : Vars)
| Failed (v : Vars) (e : NewAPIError).

Definition attempt (w : World) (relayFormat : RelayFormat) (i : Z) (v : Vars)
    : Attempt :=
  match getChannel w (ctx v) i with
  | (c1, inr err) =>
    NoChannel {| ctx := c1; relayInfo := relayInfo v;
                 newAPIError := Some err; trace := trace v |}
  | (c1, inl channel) =>
    let c2 := addUsedChannel c1 (Id channel) in
    let h := match relayFormat with
             | RelayFormatOpenAIRealtime => WssHelper
             | RelayFormatClaude => ClaudeHelper
             | RelayFormatGemini => geminiRelayHandler w
             | _ => relayHandler (relayInfo v)
             end in
    match runHelper w h i c2 (relayInfo v) with
    | (None, info, c3) =>
      Done {| ctx := c3; relayInfo := info; newAPIError := None;
              trace := trace v ++ [EvDispatch i h (Id channel)] |}
    | (Some e, info, c3) =>
      Failed {| ctx := c3; relayInfo := info; newAPIError := Some e;
                trace := trace v ++ [EvDispatch i h (Id channel);
                                     EvProcessChannelError (Id channel) e] |}
             e
    end
  end.

(** How the loop is left: by [return] from inside, or by [break] or a false
    loop condition, after which the statements below the loop run. *)
Inductive LoopExit :=
| Returned (v : Vars)
| LeftLoop (v : Vars).

(** [for i := 0; i <= common.RetryTimes; i++ { ... }], entered at [i].
    [None]: the fuel ran out before the loop was left. *)
Fixpoint retryLoop (w : World) (relayFormat : RelayFormat) (fuel : nat)
    (i : Z) (v : Vars) : option LoopExit :=
  match fuel with
  | O => None
  | S fuel' =>
    if negb (i <=? RetryTimes w) then Some (LeftLoop v)
    else
      match attempt w relayFormat i v with
      | NoChannel v' => Some (LeftLoop v')
      | Done v' => Some (Returned v')
      | Failed v' e =>
        if negb (shouldRetry (ctx v') (Some e) (GoInt.sub (RetryTimes w) i))
        then Some (LeftLoop v')
        else retryLoop w relayFormat fuel' (GoInt.add i 1) v'
      end
  end.

(** The statements below the loop: the retry log line. *)
Definition afterLoop (v : Vars) : Vars :=
  let useChannel := GetStringSlice (ctx v) "use_channel" in
  if (1 <? Z.of_nat (length useChannel)) then log v [EvRetryLog useChannel]
  else v.

(** The stages that precede the retry loop. *)
Inductive Stage :=
| StValidate | StGenRelayInfo | StSensitive | StCountToken | StPrice
| StPreConsume.

(** [Relay] from [helper.GetAndValidateRequest] down to
    [service.PreConsumeQuota]: either the stage that set [newAPIError] and
    returned (with the ledger, once there is one), or the ledger and context
    the loop starts from. *)
Definition preflight (w : World)
    : Stage * NewAPIError * option RelayInfo + RelayInfo :=
  if negb (GetAndValidateRequest w) then
    inl (StValidate, NewError w ErrorCodeInvalidRequest false, None)
  else
    match GenRelayInfo w with
    | None => inl (StGenRelayInfo, NewError w ErrorCodeGenRelayInfoFailed false, None)
    | Some info0 =>
      if ShouldCheckPromptSensitive w && CheckSensitiveText w then
        inl (StSensitive, NewError w ErrorCodeSensitiveWordsDetected false,
             Some info0)
      else
        match CountRequestToken w info0 with
        | (None, info1) =>
          inl (StCountToken, NewError w ErrorCodeCountTokenFailed false,
               Some info1)
        | (Some tokens, info1) =>
          let info2 := SetPromptTokens info1 tokens in
          match ModelPriceHelper w info2 tokens with
          | (None, info3) =>
            inl (StPrice, NewError w ErrorCodeModelPriceError false,
                 Some info3)
          | (Some priceData, info3) =>
            match PreConsumeQuota w (ShouldPreConsumedQuota priceData) info3 with
            | (Some err, info4) => inl (StPreConsume, err, Some info4)
            | (None, info4) => inr info4
            end
          end
        end
    end.

(** What is left of a run when [Relay] has returned and its deferred
    functions have run. *)
Record Outcome := {
  out_error : option NewAPIError;
  out_info  : option RelayInfo;
  out_ctx   : Context;
  out_trace : list Event;
}.

(** The deferred quota return, registered once pre-consumption succeeded. *)
Definition deferReturnQuota (v : Vars) : Vars :=
  match newAPIError v with
  | Some _ =>
    if negb (FinalPreConsumedQuota (relayInfo v) =? 0)
    then log v [EvReturnPreConsumedQuota (relayInfo v)]
    else v
  | None => v
  end.

(** The deferred error response, registered before the first stage. *)
Definition deferRespond (o : Outcome) : Outcome :=
  match out_error o with
  | Some e =>
    {| out_error := out_error o; out_info := out_info o; out_ctx := out_ctx o;
       out_trace := out_trace o ++ [EvErrorResponse e] |}
  | None => o
  end.

Definition outcome_of (v : Vars) : Outcome :=
  {| out_error := newAPIError v; out_info := Some (relayInfo v);
     out_ctx := ctx v; out_trace := trace v |}.

Definition Relay_fuel (fuel : nat) (w : World) (relayFormat : RelayFormat)
    (c : Context) : option Outcome :=
  if match relayFormat with
     | RelayFormatOpenAIRealtime => negb (Upgrade w)
     | _ => false
     end
  then
    Some {| out_error := None; out_info := None; out_ctx := c;
            out_trace := [EvWssError] |}
  else
    match preflight w with
    | inl (_, err, info) =>
      Some (deferRespond {| out_error := Some err; out_info := info;
                            out_ctx := c; out_trace := [] |})
    | inr info =>
      let v0 := {| ctx := c; relayInfo := info; newAPIError := None;
                   trace := [] |} in
      match retryLoop w relayFormat fuel 0 v0 with
      | None => None
      | Some (Returned v) =>
        Some (deferRespond (outcome_of (deferReturnQuota v)))
      | Some (LeftLoop v) =>
        Some (deferRespond (outcome_of (deferReturnQuota (afterLoop v))))
      end
    end.

(** The loop runs its body at most once per index from [0] to [RetryTimes],
    which bounds the fuel a run needs. *)
Definition Relay (w : World) (relayFormat : RelayFormat) (c : Context)
    : option Outcome :=
  Relay_fuel (S (Z.to_nat (RetryTimes w + 1))) w relayFormat c.

Definition is_refund (ev : Event) : bool :=
  match ev with EvReturnPreConsumedQuota _ => true | _ => false end.

(** A refund was issued: [service.ReturnPreConsumedQuota] was called. *)
Definition refunded (o : Outcome) : bool := existsb is_refund (out_trace o).

(** The indices at which a relay helper was invoked, in order. *)
Fixpoint attempts (tr : list Event) : list Z :=
  match tr with
  | [] => []
  | EvDispatch i _ _ :: tr' => i :: attempts tr'
  | _ :: tr' => attempts tr'
  end.

(** The ledger invariant of the specification (section 3): the field
    [FinalPreConsumedQuota] is set iff pre-consumption succeeded.  For the
    collaborators of [Relay] this reads: a fresh ledger holds nothing, token
    counting and pricing leave the field alone, and so does a pre-consumption
    that fails. *)
Definition ledger_discipline (w : World) : Prop :=
  (forall info, GenRelayInfo w = Some info -> FinalPreConsumedQuota info = 0) /\
  (forall info,
     FinalPreConsumedQuota (CountRequestToken w info).2
     = FinalPreConsumedQuota info) /\
  (forall info tokens,
     FinalPreConsumedQuota (ModelPriceHelper w info tokens).2
     = FinalPreConsumedQuota info) /\
  (forall q info err info',
     PreConsumeQuota w q info = (Some err, info') ->
     FinalPreConsumedQuota info' = FinalPreConsumedQuota info).

(** The statuses the specification lists as never retried. *)
Definition no_retry_status (s : Z) : Prop :=
  s = 400 \/ s = 408 \/ s = 504 \/ s = 524 \/ 200 <= s <= 299.

Definition exit_vars (ex : LoopExit) : Vars :=
  match ex with Returned v => v | LeftLoop v => v end.

End controller.

(** ** Regular expressions ([regexp])

    The expressions the sources compile, as syntax trees, and a matcher with
    the semantics of Go's [regexp]: among the matches that start leftmost, the
    one a backtracking search finds first (alternatives left to right,
    repetitions greedy).  Characters are bytes; on ASCII text this is the
    matching Go performs. *)
Module regexp.

Local Open Scope nat_scope.

Inductive Regexp :=
| Empty
| Class (p : ascii -> bool)
| Cat (r1 r2 : Regexp)
| Alt (r1 r2 : Regexp)
| Star (r : Regexp)
| WordBoundary
| Capture (r : Regexp).

(** A literal string. *)
Fixpoint Lit (s : string) : Regexp :=
  match s with
  | EmptyString => Empty
  | String c EmptyString => Class (Ascii.eqb c)
  | String c s' => Cat (Class (Ascii.eqb c)) (Lit s')
  end.

(** [r+], [r?], [r{n}], [r{n,}] and [r{0,n}], all greedy. *)
Definition Plus (r : Regexp) : Regexp := Cat r (Star r).
Definition Quest (r : Regexp) : Regexp := Alt r Empty.
Fixpoint Exactly (n : nat) (r : Regexp) : Regexp :=
  match n with
  | O => Empty
  | 1 => r
  | S n' => Cat r (Exactly n' r)
  end.
Definition AtLeast (n : nat) (r : Regexp) : Regexp :=
  match n with
  | O => Star r
  | S _ => Cat (Exactly n r) (Star r)
  end.
Fixpoint UpTo (n : nat) (r : Regexp) : Regexp :=
  match n with
  | O => Empty
  | S n' => Quest (Cat r (UpTo n' r))
  end.

(** The character classes of the syntax: [\d], [\s], [\w], letters. *)
Definition digit (c : ascii) : bool := GoStrings.is_digit c.
Definition alpha (c : ascii) : bool :=
  GoStrings.is_upper c || GoStrings.is_lower c.
Definition alnum (c : ascii) : bool := alpha c || digit c.
Definition word (c : ascii) : bool := alnum c || Ascii.eqb c "_".
Definition space (c : ascii) : bool :=
  let n := nat_of_ascii c in
  (n =? 9) || (n =? 10) || (n =? 12) || (n =? 13) || (n =? 32).
Definition one_of (set : string) (c : ascii) : bool :=
  existsb (Ascii.eqb c) (list_ascii_of_string set).

Definition is_word (c : option ascii) : bool :=
  match c with Some c => word c | None => false end.

Definition first (s : string) : option ascii :=
  match s with String c _ => Some c | EmptyString => None end.

(** What a match has fixed so far: where it ends and the spans of the
    capture groups closed on the way, as offsets from its start. *)
Definition Captures := list (nat * nat).
Definition Cont :=
  option ascii -> string -> nat -> Captures -> option (nat * Captures).

(** The greedy loop of [r*], for any way [body] of matching [r] once: one
    more round if that leads to a match, else on with [k].  A round that
    consumes nothing is not taken; [fuel] bounds the rounds and the length of
    the text is enough of it. *)
Fixpoint star_loop
    (body : option ascii -> string -> nat -> Captures -> Cont ->
            option (nat * Captures))
    (k : Cont) (fuel : nat) (prev : option ascii) (s : string) (pos : nat)
    (caps : Captures) : option (nat * Captures) :=
  match fuel with
  | O => k prev s pos caps
  | S fuel' =>
    match body prev s pos caps
            (fun prev' s' pos' caps' =>
               if pos <? pos' then star_loop body k fuel' prev' s' pos' caps'
               else None)
    with
    | Some m => Some m
    | None => k prev s pos caps
    end
  end.

(** [run r prev s pos caps k]: match [r] at offset [pos], where [s] is the
    text from there on and [prev] the character before; [k] continues after
    [r].  The first success in search order is the result. *)
Fixpoint run (r : Regexp) (prev : option ascii) (s : string) (pos : nat)
    (caps : Captures) (k : Cont) {struct r} : option (nat * Captures) :=
  match r with
  | Empty => k prev s pos caps
  | Class p =>
    match s with
    | String c s' => if p c then k (Some c) s' (S pos) caps else None
    | EmptyString => None
    end
  | Cat r1 r2 =>
    run r1 prev s pos caps
      (fun prev' s' pos' caps' => run r2 prev' s' pos' caps' k)
  | Alt r1 r2 =>
    match run r1 prev s pos caps k with
    | Some m => Some m
    | None => run r2 prev s pos caps k
    end
  | Star r1 => star_loop (run r1) k (String.length s) prev s pos caps
  | WordBoundary =>
    if xorb (is_word prev) (is_word (first s)) then k prev s pos caps
    else None
  | Capture r1 =>
    run r1 prev s pos caps
      (fun prev' s' pos' caps' => k prev' s' pos' (caps' ++ [(pos, pos')]))
  end.

(** A match of [r] that starts right here: its length and captures. *)
Definition match_here (r : Regexp) (prev : option ascii) (s : string)
    : option (nat * Captures) :=
  run r prev s 0 [] (fun _ _ pos caps => Some (pos, caps)).

Definition submatches (s : string) (n : nat) (caps : Captures) : list string :=
  GoStrings.take n s ::
  map (fun '(b, e) => GoStrings.take (e - b) (GoStrings.drop b s)) caps.

(** The scan shared by the functions below walks the text once; [skip]
    counts the characters still covered by the match last found.  The
    expressions of this development match no empty string, so a match of
    length 0 is never reported. *)
Fixpoint FindAll_go (r : Regexp) (s : string) (prev : option ascii)
    (skip : nat) : list (list string) :=
  match s with
  | EmptyString => []
  | String c s' =>
    match skip with
    | S skip' => FindAll_go r s' (Some c) skip'
    | O =>
      match match_here r prev s with
      | Some (S n, caps) =>
        submatches s (S n) caps :: FindAll_go r s' (Some c) n
      | _ => FindAll_go r s' (Some c) 0
      end
    end
  end.

(** [Regexp.FindAllStringSubmatch(s, -1)]: the successive matches, each
    followed by what its groups captured. *)
Definition FindAllStringSubmatch (r : Regexp) (s : string)
    : list (list string) :=
  FindAll_go r s None 0.

Fixpoint ReplaceAll_go (r : Regexp) (repl : string -> string) (s : string)
    (prev : option ascii) (skip : nat) : string :=
  match s with
  | EmptyString => EmptyString
  | String c s' =>
    match skip with
    | S skip' => ReplaceAll_go r repl s' (Some c) skip'
    | O =>
      match match_here r prev s with
      | Some (S n, _) =>
        repl (GoStrings.take (S n) s) +:+ ReplaceAll_go r repl s' (Some c) n
      | _ => String c (ReplaceAll_go r repl s' (Some c) 0)
      end
    end
  end.

(** [Regexp.ReplaceAllStringFunc(src, repl)] *)
Definition ReplaceAllStringFunc (r : Regexp) (src : string)
    (repl : string -> string) : string :=
  ReplaceAll_go r repl src None 0.

(** [Regexp.ReplaceAllString(src, repl)] for a replacement without [$]. *)
Definition ReplaceAllString (r : Regexp) (src repl : string) : string :=
  ReplaceAllStringFunc r src (fun _ => repl).

End regexp.

(** Sample errors, contexts and worlds for the examples further down. *)
Module RelayExamples.
Import types controller.

Definition pinned_ctx : Context := {[ "specific_channel_id" := CInt 7 ]}.

Definition err_channel_skip : NewAPIError :=
  {| errorCode := ErrorCodeChannelResponseError; StatusCode := 400;
     skipRetry := true; channelError := true |}.

Definition err_skip : NewAPIError :=
  {| errorCode := ErrorCodeGetChannelFailed; StatusCode := 500;
     skipRetry := true; channelError := false |}.

Definition err_gateway_timeout : NewAPIError :=
  {| errorCode := ErrorCodeChannelResponseError; StatusCode := 504;
     skipRetry := false; channelError := false |}.

Definition err_overloaded : NewAPIError :=
  {| errorCode := ErrorCodeChannelResponseError; StatusCode := 429;
     skipRetry := false; channelError := false |}.

Definition info0 : RelayInfo :=
  {| Mode := RelayModeChatCompletions; PromptTokens := 0;
     FinalPreConsumedQuota := 0 |}.

Definition channel9 : Channel :=
  {| Id := 9; Type_ := 1; Name := "backup"; AutoBan := true;
     IsMultiKey := false |}.

Definition err_channel : NewAPIError :=
  {| errorCode := ErrorCodeChannelResponseError; StatusCode := 401;
     skipRetry := false; channelError := true |}.

(** A world whose upstream always fails with [e]: every stage before the
    loop passes, [q] is pre-consumed, and each attempt ends in [e]. *)
Definition world_failing (retries q : Z) (e : NewAPIError) : World :=
  {| RetryTimes := retries;
     NewError := fun code skip =>
       {| errorCode := code; StatusCode := 500; skipRetry := skip;
          channelError := false |};
     Upgrade := true;
     GetAndValidateRequest := true;
     GenRelayInfo := Some info0;
     ShouldCheckPromptSensitive := false;
     CheckSensitiveText := false;
     CountRequestToken := fun info => (Some 12, info);
     ModelPriceHelper := fun info _ =>
       (Some {| ShouldPreConsumedQuota := q |}, info);
     PreConsumeQuota := fun q info =>
       (None, {| Mode := Mode info; PromptTokens := PromptTokens info;
                 FinalPreConsumedQuota := q |});
     CacheGetRandomSatisfiedChannel := fun c _ => (c, CacheChannel channel9);
     SetupContextForSelectedChannel := fun c _ => (c, None);
     RequestURLPathHasEmbed := false;
     runHelper := fun _ _ c info => (Some e, info, c) |}.

(** An upstream that keeps answering 429. *)
Definition world_overloaded (retries q : Z) : World :=
  world_failing retries q err_overloaded.

(** The same world with a request that fails validation. *)
Definition world_invalid : World :=
  {| RetryTimes := 3;
     NewError := NewError (world_overloaded 3 500);
     Upgrade := true;
     GetAndValidateRequest := false;
     GenRelayInfo := Some info0;
     ShouldCheckPromptSensitive := false;
     CheckSensitiveText := false;
     CountRequestToken := CountRequestToken (world_overloaded 3 500);
     ModelPriceHelper := ModelPriceHelper (world_overloaded 3 500);
     PreConsumeQuota := PreConsumeQuota (world_overloaded 3 500);
     CacheGetRandomSatisfiedChannel := fun c _ => (c, CacheNil);
     SetupContextForSelectedChannel := fun c _ => (c, None);
     RequestURLPathHasEmbed := false;
     runHelper := runHelper (world_overloaded 3 500) |}.

End RelayExamples.
(** ** [controller/relay.go]: the task relay *)

(** The fields of [dto.TaskError] that [controller/relay.go] reads or
    writes. *)
Module dto.

Record TaskError := {
  StatusCode : Z;
  LocalError : bool;
  Message    : string;
}.

End dto.

Module task.
Import types controller.

(** *** [shouldRetryTaskRelay] *)
Definition shouldRetryTaskRelay (c : Context) (channelId : Z)
    (taskErr : option dto.TaskError) (retryTimes : Z) : bool :=
  match taskErr with
  | None => false
  | Some e =>
    if retryTimes <=? 0 then false
    else if bool_decide (is_Some (c !! "specific_channel_id")) then false
    else if dto.StatusCode e =? StatusTooManyRequests then true
    else if dto.StatusCode e =? 307 then true
    else if GoInt.div (dto.StatusCode e) 100 =? 5 then
      (if (dto.StatusCode e =? 504) || (dto.StatusCode e =? 524) then false
       else true)
    else if dto.StatusCode e =? StatusBadRequest then false
    else if dto.StatusCode e =? 408 then false
    else if dto.LocalError e then false
    else if GoInt.div (dto.StatusCode e) 100 =? 2 then false
    else true
  end.

(** *** [RelayTask] *)

(** The two handlers of package [relay] behind [taskRelayHandler]. *)
Inductive TaskHelper := RelayTaskFetch | RelayTaskSubmit.

(** What [RelayTask] calls outside this file, on top of what [getChannel]
    calls ([base]): the three relay modes that fetch a task (constants of
    [relay/constant]), the relay mode of the ledger that
    [relaycommon.GenRelayInfo] builds, the handlers, and
    [service.TaskErrorWrapperLocal] for a channel that could not be had.  A
    handler receives the [*RelayInfo] pointer and returns the relay mode as
    it leaves it; the number of the call stands for whatever else an
    upstream call depends on. *)
Record TaskWorld := {
  base : World;
  RelayModeSunoFetch : Z;
  RelayModeSunoFetchByID : Z;
  RelayModeVideoFetchByID : Z;
  GenTaskRelayInfo : option Z;
  runTask :
    TaskHelper -> Z -> Context -> Z -> option dto.TaskError * Z * Context;
  TaskErrorWrapperLocal : NewAPIError -> string -> Z -> dto.TaskError;
}.

Definition StatusInternalServerError : Z := 500.

Definition taskRelayHandler (w : TaskWorld) (relayMode : Z) : TaskHelper :=
  if (relayMode =? RelayModeSunoFetch w)
     || (relayMode =? RelayModeSunoFetchByID w)
     || (relayMode =? RelayModeVideoFetchByID w)
  then RelayTaskFetch
  else RelayTaskSubmit.

(** What an observer sees of one run of [RelayTask], in order. *)
Inductive TaskEvent :=
| TEvDispatch (n : Z) (h : TaskHelper)
| TEvLogError
| TEvLogInfo (channelId : Z) (i : Z)
| TEvRetryLog (useChannel : list string)
| TEvJSON (status : Z) (e : dto.TaskError).

Record TaskVars := {
  tctx      : Context;
  relayMode : Z;
  channelId : Z;
  taskErr   : option dto.TaskError;
  ttrace    : list TaskEvent;
}.

(** [for i := 0; shouldRetryTaskRelay(c, channelId, taskErr, retryTimes) &&
    i < retryTimes; i++ { ... }], entered at [i].  [None]: the fuel ran out
    before the loop was left. *)
Fixpoint taskLoop (w : TaskWorld) (retryTimes : Z) (fuel : nat) (i : Z)
    (v : TaskVars) : option TaskVars :=
  match fuel with
  | O => None
  | S fuel' =>
    if negb (shouldRetryTaskRelay (tctx v) (channelId v) (taskErr v) retryTimes
             && (i <? retryTimes))
    then Some v
    else
      match getChannel (base w) (tctx v) i with
      | (c1, inr newAPIError) =>
        Some {| tctx := c1; relayMode := relayMode v;
                channelId := channelId v;
                taskErr :=
                  Some (TaskErrorWrapperLocal w newAPIError
                          "get_channel_failed" StatusInternalServerError);
                ttrace := ttrace v ++ [TEvLogError] |}
      | (c1, inl channel) =>
        let channelId := Id channel in
        let useChannel := GetStringSlice c1 "use_channel" in
        let useChannel := useChannel ++ [GoStrings.Itoa channelId] in
        let c2 := <["use_channel" := CStringSlice useChannel]> c1 in
        let h := taskRelayHandler w (relayMode v) in
        match runTask w h (i + 1) c2 (relayMode v) with
        | (taskErr, relayMode', c3) =>
          taskLoop w retryTimes fuel' (GoInt.add i 1)
            {| tctx := c3; relayMode := relayMode'; channelId := channelId;
               taskErr := taskErr;
               ttrace := ttrace v ++ [TEvLogInfo (Id channel) i;
                                      TEvDispatch (i + 1) h] |}
        end
      end
  end.

Record TaskOutcome := {
  tout_error : option dto.TaskError;
  tout_ctx   : Context;
  tout_trace : list TaskEvent;
}.

Definition overloadedMessage : string :=
  "当前分组上游负载已饱和，请稍后再试".

(** The statements of [RelayTask] below the loop. *)
Definition afterTaskLoop (v : TaskVars) : TaskOutcome :=
  let useChannel := GetStringSlice (tctx v) "use_channel" in
  let tr :=
    if (1 <? Z.of_nat (List.length useChannel))
    then ttrace v ++ [TEvRetryLog useChannel] else ttrace v in
  match taskErr v with
  | Some e =>
    let e :=
      if dto.StatusCode e =? StatusTooManyRequests
      then {| dto.StatusCode := dto.StatusCode e;
              dto.LocalError := dto.LocalError e;
              dto.Message := overloadedMessage |}
      else e in
    {| tout_error := Some e; tout_ctx := tctx v;
       tout_trace := tr ++ [TEvJSON (dto.StatusCode e) e] |}
  | None =>
    {| tout_error := None; tout_ctx := tctx v; tout_trace := tr |}
  end.

Definition RelayTask_fuel (fuel : nat) (w : TaskWorld) (c : Context)
    : option TaskOutcome :=
  let retryTimes := RetryTimes (base w) in
  let channelId := GetInt c "channel_id" in
  let c := <["use_channel" := CStringSlice [GoStrings.Itoa channelId]]> c in
  match GenTaskRelayInfo w with
  | None => Some {| tout_error := None; tout_ctx := c; tout_trace := [] |}
  | Some relayMode0 =>
    let h := taskRelayHandler w relayMode0 in
    match runTask w h 0 c relayMode0 with
    | (taskErr, relayMode1, c1) =>
      let retryTimes :=
        match taskErr with None => 0 | Some _ => retryTimes end in
      afterTaskLoop <$>
        taskLoop w retryTimes fuel 0
          {| tctx := c1; relayMode := relayMode1; channelId := channelId;
             taskErr := taskErr; ttrace := [TEvDispatch 0 h] |}
    end
  end.

(** The loop runs its body at most once per index below [RetryTimes],
    which bounds the fuel a run needs. *)
Definition RelayTask (w : TaskWorld) (c : Context) : option TaskOutcome :=
  RelayTask_fuel (S (Z.to_nat (RetryTimes (base w)))) w c.

(** The numbers of the handler calls, in order. *)
Fixpoint dispatches (tr : list TaskEvent) : list Z :=
  match tr with
  | [] => []
  | TEvDispatch n _ :: tr' => n :: dispatches tr'
  | _ :: tr' => dispatches tr'
  end.

Definition is_response (ev : TaskEvent) : bool :=
  match ev with TEvJSON _ _ => true | _ => false end.

End task.

(** ** What a run of [Relay] leaves behind *)
Module RelayObs.
Import types controller.

(** The channels the relay helpers were dispatched to, in order. *)
Fixpoint dispatched (tr : list Event) : list Z :=
  match tr with
  | [] => []
  | EvDispatch _ _ channelId :: tr' => channelId :: dispatched tr'
  | _ :: tr' => dispatched tr'
  end.

Definition is_retry_log (ev : Event) : bool :=
  match ev with EvRetryLog _ => true | _ => false end.

Definition is_error_response (ev : Event) : bool :=
  match ev with EvErrorResponse _ => true | EvWssError => true | _ => false end.

(** The collaborators of [Relay] that receive the context leave its
    [use_channel] entry as it is. *)
Definition keeps_use_channel (w : World) : Prop :=
  (forall c i,
     (CacheGetRandomSatisfiedChannel w c i).1 !! "use_channel"
     = c !! "use_channel") /\
  (forall c channel,
     (SetupContextForSelectedChannel w c channel).1 !! "use_channel"
     = c !! "use_channel") /\
  (forall h i c info,
     (runHelper w h i c info).2 !! "use_channel" = c !! "use_channel").

End RelayObs.
(** Sample task errors and worlds for the examples further down. *)
Module TaskExamples.
Import types controller task RelayExamples.

Definition task_overloaded : dto.TaskError :=
  {| dto.StatusCode := 429; dto.LocalError := false;
     dto.Message := "rate limited" |}.

Definition task_no_channel : dto.TaskError :=
  {| dto.StatusCode := 500; dto.LocalError := true;
     dto.Message := "get_channel_failed" |}.

(** A task world over [base0] whose handlers fail with [e] on the calls
    numbered below [good] and succeed from there on. *)
Definition task_world (base0 : World) (good : Z) (e : dto.TaskError)
    : TaskWorld :=
  {| base := base0;
     RelayModeSunoFetch := 30;
     RelayModeSunoFetchByID := 31;
     RelayModeVideoFetchByID := 33;
     GenTaskRelayInfo := Some 32;
     runTask := fun _ n c relayMode =>
       (if n <? good then Some e else None, relayMode, c);
     TaskErrorWrapperLocal := fun _ msg status =>
       {| dto.StatusCode := status; dto.LocalError := true;
          dto.Message := msg |} |}.

(** An upstream that answers 429 on the attempts below [good] and serves the
    request from there on. *)
Definition world_recovering (retries q good : Z) : World :=
  {| RetryTimes := retries;
     NewError := NewError (world_overloaded retries q);
     Upgrade := true;
     GetAndValidateRequest := true;
     GenRelayInfo := Some info0;
     ShouldCheckPromptSensitive := false;
     CheckSensitiveText := false;
     CountRequestToken := CountRequestToken (world_overloaded retries q);
     ModelPriceHelper := ModelPriceHelper (world_overloaded retries q);
     PreConsumeQuota := PreConsumeQuota (world_overloaded retries q);
     CacheGetRandomSatisfiedChannel := fun c _ => (c, CacheChannel channel9);
     SetupContextForSelectedChannel := fun c _ => (c, None);
     RequestURLPathHasEmbed := false;
     runHelper := fun _ i c info =>
       (if i <? good then Some err_overloaded else None, info, c) |}.

End TaskExamples.

(** ** The request rewriter (package [common], parameter override)

    The rewriter works on JSON text through three libraries: [gjson] to read
    a path, [sjson] to write one, [encoding/json] to convert Go values.  What
    these do to a text is theirs to define; the rewriter is modelled over any
    implementation of the calls it makes ([Library] below). *)
Module gjson.

(** [gjson.Type]; [False], [True] and [String] carry an underscore here. *)
Inductive Type_ := Null | False_ | Number | String_ | True_ | JSON.

(** [Type.String()], as [%v] prints it. *)
Definition Type_String (t : Type_) : string :=
  match t with
  | Null => "Null" | False_ => "False" | Number => "Number"
  | String_ => "String" | True_ => "True" | JSON => "JSON"
  end.

Definition Type_eqb (a b : Type_) : bool :=
  match a, b with
  | Null, Null | False_, False_ | Number, Number
  | String_, String_ | True_, True_ | JSON, JSON => true
  | _, _ => false
  end.

End gjson.

Module override.

#[local] Set Warnings "-register-all".

(** Go's [error], by its message. *)
Definition error := string.

Section Rewriter.

(** [float64], and the type of JSON texts (a document, a raw value). *)
Context {float64 Json : Type}.

(** A Go value of type [interface{}] as [encoding/json] produces it. *)
Inductive value :=
| VNil
| VBool (b : bool)
| VNum (f : float64)
| VStr (s : string)
| VList (l : list value)
| VMap (m : gmap string value).

(** [gjson.Result] *)
Record Result := {
  Type_of : gjson.Type_;
  Raw     : Json;
  Str     : string;
  Num     : float64;
}.

Class Library := {
  (** comparisons of [float64]: [==], [<], [<=] *)
  f64_eq : float64 -> float64 -> bool;
  f64_lt : float64 -> float64 -> bool;
  f64_le : float64 -> float64 -> bool;
  (** the empty text *)
  no_text : Json;
  (** [gjson.Get], [gjson.ParseBytes] and the methods of a result *)
  gjson_Get : Json -> string -> Result;
  gjson_ParseBytes : Json -> Result;
  Exists : Result -> bool;
  IsArray : Result -> bool;
  Array : Result -> list Result;
  String_ : Result -> string;
  Bool : Result -> bool;
  Value : Result -> value;
  (** [sjson.Set], [sjson.Delete] *)
  sjson_Set : Json -> string -> value -> Json * option error;
  sjson_Delete : Json -> string -> Json * option error;
  (** [json.Marshal], [json.Unmarshal] into a [map[string]interface{}],
      [fmt.Sprintf("%v", v)] *)
  json_Marshal : value -> Json * option error;
  json_Unmarshal : Json -> gmap string value * option error;
  Sprint : value -> string;
}.

Context `{Library}.

Record ConditionOperation := {
  CondPath       : string;
  CondMode       : string;
  CondValue      : value;
  Invert         : bool;
  PassMissingKey : bool;
}.

Record ParamOperation := {
  Path       : string;
  Mode       : string;
  Value_     : value;
  KeepOrigin : bool;
  From       : string;
  To         : string;
  Conditions : list ConditionOperation;
  Logic      : string;
}.

(** *** [tryParseOperations] *)

(** [m[k].(string)] and [m[k].(bool)] *)
Definition asString (v : option value) : option string :=
  match v with Some (VStr s) => Some s | _ => None end.
Definition asBool (v : option value) : option bool :=
  match v with Some (VBool b) => Some b | _ => None end.

(** One entry of [conditions]; an entry that is no map is passed over. *)
Definition parseCondition (cond : value) : option ConditionOperation :=
  match cond with
  | VMap condMap =>
    Some {| CondPath := default "" (asString (condMap !! "path"));
            CondMode := default "" (asString (condMap !! "mode"));
            CondValue := default VNil (condMap !! "value");
            Invert := default false (asBool (condMap !! "invert"));
            PassMissingKey :=
              default false (asBool (condMap !! "pass_missing_key")) |}
  | _ => None
  end.

(** One entry of [operations]; [None] where the source returns
    [nil, false]: the entry is no map, or has no string [mode]. *)
Definition parseOperation (op : value) : option ParamOperation :=
  match op with
  | VMap opMap =>
    match asString (opMap !! "mode") with
    | Some mode =>
      Some {| Path := default "" (asString (opMap !! "path"));
              Mode := mode;
              Value_ := default VNil (opMap !! "value");
              KeepOrigin := default false (asBool (opMap !! "keep_origin"));
              From := default "" (asString (opMap !! "from"));
              To := default "" (asString (opMap !! "to"));
              Logic := default "OR" (asString (opMap !! "logic"));
              Conditions :=
                match opMap !! "conditions" with
                | Some (VList condSlice) => omap parseCondition condSlice
                | _ => []
                end |}
    | None => None
    end
  | _ => None
  end.

Definition tryParseOperations (paramOverride : gmap string value)
    : option (list ParamOperation) :=
  match paramOverride !! "operations" with
  | Some (VList opsSlice) => mapM parseOperation opsSlice
  | _ => None
  end.

(** *** Conditions *)

Definition negIndexPattern : regexp.Regexp :=
  regexp.Cat (regexp.Lit ".")
    (regexp.Capture
       (regexp.Cat (regexp.Lit "-") (regexp.Plus (regexp.Class regexp.digit)))).

(** The body of the loop over the matches in [processNegativeIndex]. *)
Definition resolveMatch (jsonStr : Json) (path : string) (result : string)
    (match_ : list string) : string :=
  let negIndex := nth 1 match_ "" in
  let index := GoStrings.Atoi negIndex in
  let arrayPath := hd "" (GoStrings.Split path negIndex) in
  let arrayPath :=
    if GoStrings.HasSuffix arrayPath "."
    then GoStrings.take (String.length arrayPath - 1) arrayPath
    else arrayPath in
  let array := gjson_Get jsonStr arrayPath in
  if IsArray array then
    let length := Z.of_nat (List.length (Array array)) in
    let actualIndex := GoInt.add length index in
    if (0 <=? actualIndex) && (actualIndex <? length)
    then GoStrings.Replace1 result (nth 0 match_ "")
           ("." +:+ GoStrings.Itoa actualIndex)
    else result
  else result.

Definition processNegativeIndex (jsonStr : Json) (path : string) : string :=
  let matches := regexp.FindAllStringSubmatch negIndexPattern path in
  match matches with
  | [] => path
  | _ => foldl (resolveMatch jsonStr path) path matches
  end.

Definition compareEqual (jsonValue targetValue : Result) : bool * option error :=
  let isBool (t : gjson.Type_) :=
    match t with gjson.True_ | gjson.False_ => true | _ => false end in
  if isBool (Type_of jsonValue) && isBool (Type_of targetValue)
  then (Bool.eqb (Bool jsonValue) (Bool targetValue), None)
  else if negb (gjson.Type_eqb (Type_of jsonValue) (Type_of targetValue))
  then (false,
        Some ("compare for different types, got "
              +:+ gjson.Type_String (Type_of jsonValue) +:+ " and "
              +:+ gjson.Type_String (Type_of targetValue)))
  else
    match Type_of jsonValue with
    | gjson.True_ | gjson.False_ =>
      (Bool.eqb (Bool jsonValue) (Bool targetValue), None)
    | gjson.Number => (f64_eq (Num jsonValue) (Num targetValue), None)
    | _ => (String.eqb (String_ jsonValue) (String_ targetValue), None)
    end.

Definition compareNumeric (jsonValue targetValue : Result) (operator : string)
    : bool * option error :=
  if negb (gjson.Type_eqb (Type_of jsonValue) gjson.Number)
     || negb (gjson.Type_eqb (Type_of targetValue) gjson.Number)
  then (false,
        Some ("numeric comparison requires both values to be numbers, got "
              +:+ gjson.Type_String (Type_of jsonValue) +:+ " and "
              +:+ gjson.Type_String (Type_of targetValue)))
  else
    let jsonNum := Num jsonValue in
    let targetNum := Num targetValue in
    if String.eqb operator "gt" then (f64_lt targetNum jsonNum, None)
    else if String.eqb operator "gte" then (f64_le targetNum jsonNum, None)
    else if String.eqb operator "lt" then (f64_lt jsonNum targetNum, None)
    else if String.eqb operator "lte" then (f64_le jsonNum targetNum, None)
    else (false, Some ("unsupported numeric operator: " +:+ operator)).

Definition compareGjsonValues (jsonValue targetValue : Result) (mode : string)
    : bool * option error :=
  if String.eqb mode "full" then compareEqual jsonValue targetValue
  else if String.eqb mode "prefix" then
    (GoStrings.HasPrefix (String_ jsonValue) (String_ targetValue), None)
  else if String.eqb mode "suffix" then
    (GoStrings.HasSuffix (String_ jsonValue) (String_ targetValue), None)
  else if String.eqb mode "contains" then
    (GoStrings.Contains (String_ jsonValue) (String_ targetValue), None)
  else if String.eqb mode "gt" then compareNumeric jsonValue targetValue "gt"
  else if String.eqb mode "gte" then compareNumeric jsonValue targetValue "gte"
  else if String.eqb mode "lt" then compareNumeric jsonValue targetValue "lt"
  else if String.eqb mode "lte" then compareNumeric jsonValue targetValue "lte"
  else (false, Some ("unsupported comparison mode: " +:+ mode)).

Definition checkSingleCondition (jsonStr : Json)
    (condition : ConditionOperation) : bool * option error :=
  let path := processNegativeIndex jsonStr (CondPath condition) in
  let value := gjson_Get jsonStr path in
  if negb (Exists value) then
    (if PassMissingKey condition then (true, None) else (false, None))
  else
    match json_Marshal (CondValue condition) with
    | (_, Some err) =>
      (false, Some ("failed to marshal condition value: " +:+ err))
    | (targetBytes, None) =>
      let targetValue := gjson_ParseBytes targetBytes in
      match compareGjsonValues value targetValue
              (GoStrings.ToLower (CondMode condition)) with
      | (_, Some err) =>
        (false,
         Some ("comparison failed for path " +:+ CondPath condition
               +:+ ": " +:+ err))
      | (result, None) =>
        (if Invert condition then negb result else result, None)
      end
    end.

(** The first loop of [checkConditions]: every condition is evaluated, in
    order, until one fails with an error. *)
Fixpoint conditionResults (jsonStr : Json)
    (conditions : list ConditionOperation) : list bool + error :=
  match conditions with
  | [] => inl []
  | condition :: conditions' =>
    match checkSingleCondition jsonStr condition with
    | (_, Some err) => inr err
    | (result, None) =>
      match conditionResults jsonStr conditions' with
      | inl results => inl (result :: results)
      | inr err => inr err
      end
    end
  end.

Definition checkConditions (jsonStr : Json)
    (conditions : list ConditionOperation) (logic : string)
    : bool * option error :=
  match conditions with
  | [] => (true, None)
  | _ =>
    match conditionResults jsonStr conditions with
    | inr err => (false, Some err)
    | inl results =>
      if String.eqb (GoStrings.ToUpper logic) "AND"
      then (forallb id results, None)
      else (existsb id results, None)
    end
  end.

(** *** Operations *)

Definition moveValue (jsonStr : Json) (fromPath toPath : string)
    : Json * option error :=
  let sourceValue := gjson_Get jsonStr fromPath in
  if negb (Exists sourceValue) then
    (jsonStr, Some ("source path does not exist: " +:+ fromPath))
  else
    match sjson_Set jsonStr toPath (Value sourceValue) with
    | (_, Some err) => (no_text, Some err)
    | (result, None) => sjson_Delete result fromPath
    end.

Definition modifyArray (jsonStr : Json) (path : string) (value : value)
    (isPrepend : bool) : Json * option error :=
  let current := gjson_Get jsonStr path in
  let addValue :=
    match value with
    | VList arr => arr
    | _ => [value]
    end in
  let addOriginal := map Value (Array current) in
  let newArray :=
    if isPrepend then addValue ++ addOriginal else addOriginal ++ addValue in
  sjson_Set jsonStr path (VList newArray).

Definition modifyString (jsonStr : Json) (path : string) (value : value)
    (isPrepend : bool) : Json * option error :=
  let current := gjson_Get jsonStr path in
  let valueStr := Sprint value in
  let newStr :=
    if isPrepend then valueStr +:+ String_ current
    else String_ current +:+ valueStr in
  sjson_Set jsonStr path (VStr newStr).

Definition is_nil (v : option value) : bool :=
  match v with None | Some VNil => true | _ => false end.

Definition mergeObjects (jsonStr : Json) (path : string) (value : value)
    (keepOrigin : bool) : Json * option error :=
  let current := gjson_Get jsonStr path in
  match json_Unmarshal (Raw current) with
  | (_, Some err) => (no_text, Some err)
  | (currentMap, None) =>
    let newMap_err :=
      match value with
      | VMap v => (v, None)
      | v => json_Unmarshal (json_Marshal v).1
      end in
    match newMap_err with
    | (_, Some err) => (no_text, Some err)
    | (newMap, None) =>
      let result :=
        map_fold
          (fun k v result =>
             if negb keepOrigin || is_nil (result !! k)
             then <[k := v]> result else result)
          currentMap newMap in
      sjson_Set jsonStr path (VMap result)
    end
  end.

Definition modifyValue (jsonStr : Json) (path : string) (value : value)
    (keepOrigin isPrepend : bool) : Json * option error :=
  let current := gjson_Get jsonStr path in
  if IsArray current then modifyArray jsonStr path value isPrepend
  else if gjson.Type_eqb (Type_of current) gjson.String_
  then modifyString jsonStr path value isPrepend
  else if gjson.Type_eqb (Type_of current) gjson.JSON
  then mergeObjects jsonStr path value keepOrigin
  else (jsonStr,
        Some ("operation not supported for type: "
              +:+ gjson.Type_String (Type_of current))).

(** What the [switch] on the mode of an operation comes to. *)
Inductive Executed :=
| Skipped                                   (* [continue] *)
| Assigned (result : Json) (err : option error)
| UnknownMode.

Definition execute (result : Json) (op : ParamOperation) : Executed :=
  let opPath := processNegativeIndex result (Path op) in
  let opFrom := processNegativeIndex result (From op) in
  let opTo := processNegativeIndex result (To op) in
  let assigned (r : Json * option error) := Assigned r.1 r.2 in
  if String.eqb (Mode op) "delete" then assigned (sjson_Delete result opPath)
  else if String.eqb (Mode op) "set" then
    if KeepOrigin op && Exists (gjson_Get result opPath) then Skipped
    else assigned (sjson_Set result opPath (Value_ op))
  else if String.eqb (Mode op) "move" then
    assigned (moveValue result opFrom opTo)
  else if String.eqb (Mode op) "prepend" then
    assigned (modifyValue result opPath (Value_ op) (KeepOrigin op) true)
  else if String.eqb (Mode op) "append" then
    assigned (modifyValue result opPath (Value_ op) (KeepOrigin op) false)
  else UnknownMode.

Fixpoint applyOperations (jsonStr : Json) (operations : list ParamOperation)
    : Json * option error :=
  match operations with
  | [] => (jsonStr, None)
  | op :: operations' =>
    match checkConditions jsonStr (Conditions op) (Logic op) with
    | (_, Some err) => (no_text, Some err)
    | (false, None) => applyOperations jsonStr operations'
    | (true, None) =>
      match execute jsonStr op with
      | Skipped => applyOperations jsonStr operations'
      | UnknownMode => (no_text, Some ("unknown operation: " +:+ Mode op))
      | Assigned _ (Some err) =>
        (no_text,
         Some ("operation " +:+ Mode op +:+ " failed: " +:+ err))
      | Assigned result None => applyOperations result operations'
      end
    end
  end.

(** *** [ApplyParamOverride] *)

Definition applyOperationsLegacy (jsonData : Json)
    (paramOverride : gmap string value) : Json * option error :=
  match json_Unmarshal jsonData with
  | (_, Some err) => (no_text, Some err)
  | (reqMap, None) =>
    let reqMap :=
      map_fold (fun key value reqMap => <[key := value]> reqMap)
        reqMap paramOverride in
    json_Marshal (VMap reqMap)
  end.

Definition ApplyParamOverride (jsonData : Json)
    (paramOverride : gmap string value) : Json * option error :=
  if bool_decide (size paramOverride = 0%nat) then (jsonData, None)
  else
    match tryParseOperations paramOverride with
    | Some operations => applyOperations jsonData operations
    | None => applyOperationsLegacy jsonData paramOverride
    end.

(** An entry of [operations] that [tryParseOperations] accepts: a map with
    a string under [mode]. *)
Definition wellFormedOperation (op : value) : bool :=
  match op with
  | VMap opMap =>
    match asString (opMap !! "mode") with Some _ => true | None => false end
  | _ => false
  end.

(** The comparison modes that go through [compareNumeric]. *)
Definition numeric_mode (mode : string) : Prop :=
  let m := GoStrings.ToLower mode in
  m = "gt" \/ m = "gte" \/ m = "lt" \/ m = "lte".

End Rewriter.

Arguments value : clear implicits.
Arguments Result : clear implicits.
Arguments Library : clear implicits.
Arguments ConditionOperation : clear implicits.
Arguments ParamOperation : clear implicits.

End override.

(** ** A reference implementation of the JSON libraries

    Documents as trees instead of text: enough of [gjson], [sjson] and
    [encoding/json] to run the rewriter on examples.  Numbers are integers
    (Go compares the [float64] of two integers below 2^53 as the integers
    compare), a path is a dot-separated list of object keys and decimal array
    indices without [gjson]'s special characters, and a text is a tree up to
    white space and the order of keys. *)
Module TreeJson.
Import override.

Abbreviation tree := (value Z).

(** A text: [None] is the empty string, [Some t] a rendering of [t]. *)
Abbreviation text := (option tree).

Definition quote : string := String (ascii_of_nat 34) EmptyString.
Definition backslash : ascii := ascii_of_nat 92.

Fixpoint escape (s : string) : string :=
  match s with
  | EmptyString => EmptyString
  | String c s' =>
    if Ascii.eqb c (ascii_of_nat 34) || Ascii.eqb c backslash
    then String backslash (String c (escape s'))
    else String c (escape s')
  end.

Fixpoint insert_sorted (kv : string * string) (l : list (string * string))
    : list (string * string) :=
  match l with
  | [] => [kv]
  | kv' :: l' =>
    if String.leb kv.1 kv'.1 then kv :: l else kv' :: insert_sorted kv l'
  end.

(** [render true] is the compact JSON text of a tree, keys sorted as
    [json.Marshal] sorts them; [render false] what [%v] prints. *)
Fixpoint render (json : bool) (t : tree) : string :=
  match t with
  | VNil => if json then "null" else "<nil>"
  | VBool b => if b then "true" else "false"
  | VNum n => GoStrings.Itoa n
  | VStr s => if json then quote +:+ escape s +:+ quote else s
  | VList l =>
    "[" +:+ GoStrings.Join (map (render json) l) (if json then "," else " ")
    +:+ "]"
  | VMap m =>
    let fields :=
      map_fold (fun k v acc => insert_sorted (k, render json v) acc) [] m in
    let field (kv : string * string) :=
      if json then quote +:+ escape kv.1 +:+ quote +:+ ":" +:+ kv.2
      else kv.1 +:+ ":" +:+ kv.2 in
    (if json then "{" else "map[")
    +:+ GoStrings.Join (map field fields) (if json then "," else " ")
    +:+ (if json then "}" else "]")
  end.

(** The result [gjson] builds for a value found in a document. *)
Definition result_of (t : tree) : Result Z text :=
  {| Type_of :=
       match t with
       | VNil => gjson.Null
       | VBool true => gjson.True_
       | VBool false => gjson.False_
       | VNum _ => gjson.Number
       | VStr _ => gjson.String_
       | VList _ | VMap _ => gjson.JSON
       end;
     Raw := Some t;
     Str := match t with VStr s => s | _ => "" end;
     Num := match t with VNum n => n | _ => 0 end |}.

(** The result for a path that leads nowhere. *)
Definition no_result : Result Z text :=
  {| Type_of := gjson.Null; Raw := None; Str := ""; Num := 0 |}.

(** A decimal array index. *)
Definition index_of (k : string) : option nat :=
  match k with
  | EmptyString => None
  | _ => Z.to_nat <$> GoStrings.digits_value 0 k
  end.

Fixpoint lookup_path (t : tree) (path : list string) : option tree :=
  match path with
  | [] => Some t
  | k :: path' =>
    match t with
    | VMap m => m !! k ≫= fun t' => lookup_path t' path'
    | VList l =>
      index_of k ≫= fun i => l !! i ≫= fun t' => lookup_path t' path'
    | _ => None
    end
  end.

Definition Get (json : text) (path : string) : Result Z text :=
  match json ≫= fun t => lookup_path t (GoStrings.Split path ".") with
  | Some t => result_of t
  | None => no_result
  end.

Definition ParseBytes (json : text) : Result Z text :=
  match json with Some t => result_of t | None => no_result end.

Definition Exists (r : Result Z text) : bool :=
  negb (gjson.Type_eqb (Type_of r) gjson.Null)
  || match Raw r with Some _ => true | None => false end.

Definition IsArray (r : Result Z text) : bool :=
  gjson.Type_eqb (Type_of r) gjson.JSON
  && match Raw r with Some (VList _) => true | _ => false end.

Definition Array (r : Result Z text) : list (Result Z text) :=
  match Raw r with
  | Some (VList l) => map result_of l
  | Some VNil | None => []
  | Some _ => [r]
  end.

Definition String_ (r : Result Z text) : string :=
  match Type_of r with
  | gjson.Null => ""
  | gjson.False_ => "false"
  | gjson.True_ => "true"
  | gjson.Number => GoStrings.Itoa (Num r)
  | gjson.String_ => Str r
  | gjson.JSON => match Raw r with Some t => render true t | None => "" end
  end.

Definition Bool (r : Result Z text) : bool :=
  match Type_of r with
  | gjson.True_ => true
  | gjson.String_ =>
    let s := GoStrings.ToLower (Str r) in
    String.eqb s "1" || String.eqb s "t" || String.eqb s "true"
  | gjson.Number => negb (Num r =? 0)
  | _ => false
  end.

Definition Value (r : Result Z text) : tree :=
  match Raw r with Some t => t | None => VNil end.

(** The characters [sjson] refuses in a path. *)
Definition bad_path (path : string) : bool :=
  String.eqb path ""
  || existsb (regexp.one_of "|#@*?") (list_ascii_of_string path).

(** The container [sjson] starts from where the document has none. *)
Definition fresh (k : string) : tree :=
  match index_of k with Some _ => VList [] | None => VMap ∅ end.

Definition is_container (t : tree) : bool :=
  match t with VList _ | VMap _ => true | _ => false end.

Fixpoint set_path (t : tree) (path : list string) (v : tree)
    : tree + error :=
  match path with
  | [] => inl v
  | k :: path' =>
    let t := if is_container t then t else fresh k in
    let below (old : tree) := set_path old path' v in
    let child (old : option tree) :=
      below (default (match path' with
                      | k' :: _ => fresh k'
                      | [] => VNil
                      end) old) in
    match t with
    | VMap m =>
      match child (m !! k) with
      | inl t' => inl (VMap (<[k := t']> m))
      | inr err => inr err
      end
    | VList l =>
      match index_of k with
      | Some i =>
        match child (l !! i) with
        | inl t' =>
          inl (VList (if (i <? List.length l)%nat then <[i := t']> l
                      else l ++ replicate (i - List.length l) VNil ++ [t']))
        | inr err => inr err
        end
      | None =>
        if String.eqb k "-1" then
          match child None with
          | inl t' => inl (VList (l ++ [t']))
          | inr err => inr err
          end
        else inr ("cannot set array element for non-numeric key '"
                  +:+ k +:+ "'")
      end
    | _ => inr "json must be an object or array"
    end
  end.

Definition Set_ (json : text) (path : string) (v : tree) : text * option error :=
  if bad_path path then (None, Some "invalid path")
  else
    let path := GoStrings.Split path "." in
    match set_path (default VNil json) path v with
    | inl t => (Some t, None)
    | inr err => (None, Some err)
    end.

Fixpoint delete_path (t : tree) (path : list string) : tree :=
  match path with
  | [] => t
  | [k] =>
    match t with
    | VMap m => VMap (delete k m)
    | VList l =>
      match index_of k with
      | Some i => VList (take i l ++ drop (S i) l)
      | None =>
        if String.eqb k "-1" then VList (take (List.length l - 1) l) else t
      end
    | _ => t
    end
  | k :: path' =>
    match t with
    | VMap m =>
      match m !! k with
      | Some t' => VMap (<[k := delete_path t' path']> m)
      | None => t
      end
    | VList l =>
      match index_of k ≫= fun i => (fun t' => (i, t')) <$> l !! i with
      | Some (i, t') => VList (<[i := delete_path t' path']> l)
      | None => t
      end
    | _ => t
    end
  end.

Definition Delete (json : text) (path : string) : text * option error :=
  if bad_path path then (None, Some "invalid path")
  else
    ((fun t => delete_path t (GoStrings.Split path ".")) <$> json, None).

Definition Marshal (v : tree) : text * option error := (Some v, None).

Definition Unmarshal (json : text) : gmap string tree * option error :=
  match json with
  | Some (VMap m) => (m, None)
  | Some VNil => (∅, None)
  | Some _ =>
    (∅, Some "json: cannot unmarshal into Go value of type map[string]interface {}")
  | None => (∅, Some "unexpected end of JSON input")
  end.

#[export] Instance library : Library Z text :=
  {| f64_eq := Z.eqb;
     f64_lt := Z.ltb;
     f64_le := Z.leb;
     no_text := None;
     gjson_Get := Get;
     gjson_ParseBytes := ParseBytes;
     override.Exists := Exists;
     override.IsArray := IsArray;
     override.Array := Array;
     override.String_ := String_;
     override.Bool := Bool;
     override.Value := Value;
     sjson_Set := Set_;
     sjson_Delete := Delete;
     json_Marshal := Marshal;
     json_Unmarshal := Unmarshal;
     Sprint := render false |}.

End TreeJson.

(** Sample documents and operations for the examples further down. *)
Module OverrideExamples.
Import override TreeJson.

Definition obj (fields : list (string * tree)) : tree :=
  VMap (list_to_map fields).

(** [{"model":"m","stream":true,"temperature":9,"messages":[{"role":"user"},
    {"role":"assistant"}],"tags":[]}] *)
Definition body : text :=
  Some (obj [("model", VStr "m"); ("stream", VBool true);
             ("temperature", VNum 9);
             ("messages", VList [obj [("role", VStr "user")];
                                 obj [("role", VStr "assistant")]]);
             ("tags", VList [])]).

Definition condition (path mode : string) (v : tree)
    : ConditionOperation Z :=
  {| CondPath := path; CondMode := mode; CondValue := v; Invert := false;
     PassMissingKey := false |}.

Definition operation (path mode : string) (v : tree)
    (conditions : list (ConditionOperation Z)) (logic : string)
    : ParamOperation Z :=
  {| Path := path; Mode := mode; Value_ := v; KeepOrigin := false;
     From := ""; To := ""; Conditions := conditions; Logic := logic |}.

(** Scenario S4 of the specification, the temperature being 2 for 0.2. *)
Definition cool_down : ParamOperation Z :=
  operation "temperature" "set" (VNum 2)
    [condition "model" "prefix" (VStr "m");
     condition "stream" "full" (VBool true)] "AND".

(** An operation behind a gate that does not hold. *)
Definition gated_off : ParamOperation Z :=
  operation "temperature" "set" (VNum 2)
    [condition "temperature" "gt" (VNum 10)] "OR".

(** An operation behind a numeric comparison of a string. *)
Definition model_gt_1 : ConditionOperation Z := condition "model" "gt" (VNum 1).
Definition gated_numeric : ParamOperation Z :=
  operation "temperature" "set" (VNum 2) [model_gt_1] "OR".

Definition set_x : ParamOperation Z := operation "x" "set" (VNum 1) [] "".

(** [move] from a path that is not there. *)
Definition move_missing : ParamOperation Z :=
  {| Path := ""; Mode := "move"; Value_ := VNil; KeepOrigin := false;
     From := "nowhere"; To := "x"; Conditions := []; Logic := "OR" |}.

(** [set] at [-1] of the empty array [tags], and at [-3] of the two
    [messages]. *)
Definition set_tags_last : ParamOperation Z :=
  operation "tags.-1" "set" (VStr "x") [] "OR".
Definition set_messages_m3 : ParamOperation Z :=
  operation "messages.-3" "set" (VStr "x") [] "OR".

(** [{"operations":[1]}]: a list under [operations] whose entry is no
    operation. *)
Definition override_bad_ops : gmap string tree :=
  {[ "operations" := VList [VNum 1] ]}.

(** [{"operations":[{"path":"model","mode":"delete"}]}] *)
Definition override_delete_model : gmap string tree :=
  {[ "operations" :=
       VList [obj [("path", VStr "model"); ("mode", VStr "delete")]] ]}.

(** [{"top-1":{"list":[1,2]},"rows":[[1,2,3],7]}]: a key with a minus
    sign in it, and an array in an array. *)
Definition nested : text :=
  Some (obj [("top-1", obj [("list", VList [VNum 1; VNum 2])]);
             ("rows", VList [VList [VNum 1; VNum 2; VNum 3]; VNum 7])]).

End OverrideExamples.
(** Notions used to state properties of the rewriter. *)
Module OverrideProps.
Import override.

Section Generic.
Context {float64 Json : Type} `{L : Library float64 Json}.

(** An operation leaves the document alone when its gate is false, or when
    it is a [set] with [keep_origin] on a path that has a value. *)
Definition passes_over (doc : Json) (op : ParamOperation float64) : Prop :=
  checkConditions doc (Conditions op) (Logic op) = (false, None) \/
  (checkConditions doc (Conditions op) (Logic op) = (true, None) /\
   Mode op = "set" /\ KeepOrigin op = true /\
   Exists (gjson_Get doc (processNegativeIndex doc (Path op))) = true).

(** The condition with [invert] the other way round. *)
Definition inverted (cond : ConditionOperation float64)
    : ConditionOperation float64 :=
  {| CondPath := CondPath cond; CondMode := CondMode cond;
     CondValue := CondValue cond; Invert := negb (Invert cond);
     PassMissingKey := PassMissingKey cond |}.

Definition is_bool (r : Result float64 Json) : Prop :=
  Type_of r = gjson.True_ \/ Type_of r = gjson.False_.

End Generic.

End OverrideProps.
(** More sample operations. *)
Module OverrideMoreExamples.
Import override TreeJson OverrideExamples.

(** [set] with [keep_origin] on [model], which the sample body has. *)
Definition keep_model : ParamOperation Z :=
  {| Path := "model"; Mode := "set"; Value_ := VStr "other";
     KeepOrigin := true; From := ""; To := ""; Conditions := [];
     Logic := "OR" |}.

(** [{"role":"system","name":"n"}] *)
Definition more_fields : gmap string tree :=
  {[ "role" := VStr "system"; "name" := VStr "n" ]}.

(** [{"operations":[{"path":"model","mode":"delete"}],"temperature":1}]:
    a program and a legacy key side by side. *)
Definition override_mixed : gmap string tree :=
  {[ "operations" :=
       VList [obj [("path", VStr "model"); ("mode", VStr "delete")]];
     "temperature" := VNum 1 ]}.

End OverrideMoreExamples.

(** ** The sensitive-information mask ([common/str.go]) *)

(** What [MaskSensitiveInfo] uses of [net/url]: the parts of a parsed URL,
    [url.Parse], and [url.ParseQuery] as far as the keys of its result go, in
    the order a [range] over them yields.  [None] stands for an error. *)
Module url.

Record URL := {
  Scheme   : string;
  Host     : string;
  Path     : string;
  RawQuery : string;
}.

Class Package := {
  Parse : string -> option URL;
  ParseQuery : string -> option (list string);
}.

End url.

Module common.
Import GoStrings.

Local Open Scope nat_scope.

Definition MaskEmail (email : string) : string :=
  if String.eqb email "" then "***masked***"
  else
    match Index email "@" with
    | None => "***masked***"
    | Some atIndex => "***@" +:+ drop (atIndex + 1) email
    end.

Definition maskHostTail (parts : list string) : list string :=
  if List.length parts <? 2 then parts
  else
    let lastPart := nth (List.length parts - 1) parts "" in
    let secondLastPart := nth (List.length parts - 2) parts "" in
    if (String.length lastPart =? 2) && (String.length secondLastPart <=? 3)
    then [secondLastPart; lastPart]
    else [lastPart].

Definition maskHostForURL (host : string) : string :=
  let parts := Split host "." in
  if List.length parts <? 2 then "***"
  else
    let tail := maskHostTail parts in
    "***." +:+ Join tail ".".

Definition maskHostForPlainDomain (domain : string) : string :=
  let parts := Split domain "." in
  if List.length parts <? 2 then domain
  else
    let tail := maskHostTail parts in
    let numStars := List.length parts - List.length tail in
    let numStars := if numStars <? 1 then 1 else numStars in
    let stars := TrimSuffix (Repeat "***." numStars) "." in
    stars +:+ "." +:+ Join tail ".".

(** [(http|https)://[^\s/$.?#].[^\s]*] *)
Definition urlPattern : regexp.Regexp :=
  regexp.Cat (regexp.Capture (regexp.Alt (regexp.Lit "http") (regexp.Lit "https")))
    (regexp.Cat (regexp.Lit "://")
       (regexp.Cat
          (regexp.Class
             (fun c => negb (regexp.space c || regexp.one_of "/$.?#" c)))
          (regexp.Cat
             (regexp.Class (fun c => negb (Ascii.eqb c "010")))
             (regexp.Star (regexp.Class (fun c => negb (regexp.space c))))))).

(** [[a-zA-Z0-9](?:[a-zA-Z0-9-]{0,61}[a-zA-Z0-9])?\.] *)
Definition domainLabel : regexp.Regexp :=
  regexp.Cat
    (regexp.Cat (regexp.Class regexp.alnum)
       (regexp.Quest
          (regexp.Cat
             (regexp.UpTo 61
                (regexp.Class (fun c => regexp.alnum c || Ascii.eqb c "-")))
             (regexp.Class regexp.alnum))))
    (regexp.Lit ".").

(** [\b(?:[a-zA-Z0-9](?:[a-zA-Z0-9-]{0,61}[a-zA-Z0-9])?\.)+[a-zA-Z]{2,}\b] *)
Definition domainPattern : regexp.Regexp :=
  regexp.Cat regexp.WordBoundary
    (regexp.Cat (regexp.Plus domainLabel)
       (regexp.Cat (regexp.AtLeast 2 (regexp.Class regexp.alpha))
          regexp.WordBoundary)).

(** [\d{1,3}] *)
Definition octet : regexp.Regexp :=
  regexp.Cat (regexp.Class regexp.digit)
    (regexp.UpTo 2 (regexp.Class regexp.digit)).

(** [\b(?:\d{1,3}\.){3}\d{1,3}\b] *)
Definition ipPattern : regexp.Regexp :=
  regexp.Cat regexp.WordBoundary
    (regexp.Cat
       (regexp.Exactly 3 (regexp.Cat octet (regexp.Lit ".")))
       (regexp.Cat octet regexp.WordBoundary)).

Definition ipMask : string := "***.***.***.***".

Section Mask.
Context `{url.Package}.

(** The path of a URL, every part of it masked. *)
Definition maskPath (path : string) : string :=
  if negb (String.eqb path "") && negb (String.eqb path "/") then
    let pathParts := Split (Trim1 path "/") "/" in
    let maskedPathParts :=
      map (fun part => if negb (String.eqb part "") then "***" else "")
        pathParts in
    if 0 <? List.length maskedPathParts
    then "/" +:+ Join maskedPathParts "/"
    else ""
  else if String.eqb path "/" then "/"
  else "".

(** The query of a URL, every value of it masked. *)
Definition maskQuery (rawQuery : string) : string :=
  if negb (String.eqb rawQuery "") then
    match url.ParseQuery rawQuery with
    | None => "?***"
    | Some keys =>
      let maskedParams := map (fun key => key +:+ "=***") keys in
      if 0 <? List.length maskedParams
      then "?" +:+ Join maskedParams "&"
      else ""
    end
  else "".

(** The function [MaskSensitiveInfo] replaces a URL with. *)
Definition maskURL (urlStr : string) : string :=
  match url.Parse urlStr with
  | None => urlStr
  | Some u =>
    let host := url.Host u in
    if String.eqb host "" then urlStr
    else
      let maskedHost := maskHostForURL host in
      let result := url.Scheme u +:+ "://" +:+ maskedHost in
      let result := result +:+ maskPath (url.Path u) in
      result +:+ maskQuery (url.RawQuery u)
  end.

Definition MaskSensitiveInfo (str : string) : string :=
  let str := regexp.ReplaceAllStringFunc urlPattern str maskURL in
  let str :=
    regexp.ReplaceAllStringFunc domainPattern str maskHostForPlainDomain in
  regexp.ReplaceAllString ipPattern str ipMask.

End Mask.

End common.

(** ** A reference implementation of [net/url] for plain URLs

    [scheme://[userinfo@]host[/path][?query][#fragment]] without escapes;
    the keys of a query in the order they are written, each once. *)
Module PlainURL.
Import GoStrings.

Local Open Scope nat_scope.

(** The text before the first character of [stops], and the text from
    there on. *)
Fixpoint break (stops : string) (s : string) : string * string :=
  match s with
  | EmptyString => (EmptyString, EmptyString)
  | String c s' =>
    if regexp.one_of stops c then (EmptyString, s)
    else let '(a, b) := break stops s' in (String c a, b)
  end.

Definition after_last_at (authority : string) : option string :=
  last (Split authority "@").

Definition Parse (rawURL : string) : option url.URL :=
  match Index rawURL "://" with
  | None =>
    Some {| url.Scheme := ""; url.Host := ""; url.Path := rawURL;
            url.RawQuery := "" |}
  | Some n =>
    let rest := drop (n + 3) rawURL in
    let '(authority, rest) := break "/?#" rest in
    let '(path, rest) := break "?#" rest in
    let query :=
      match rest with
      | String "?" q => fst (break "#" q)
      | _ => EmptyString
      end in
    Some {| url.Scheme := ToLower (take n rawURL);
            url.Host := default authority (after_last_at authority);
            url.Path := path;
            url.RawQuery := query |}
  end.

Fixpoint dedup (seen : list string) (keys : list string) : list string :=
  match keys with
  | [] => []
  | k :: keys' =>
    if existsb (String.eqb k) seen then dedup seen keys'
    else k :: dedup (k :: seen) keys'
  end.

Definition ParseQuery (query : string) : option (list string) :=
  let pairs := filter (fun p => p <> "") (Split query "&") in
  Some (dedup [] (map (fun p => hd "" (Split p "=")) pairs)).

#[export] Instance package : url.Package :=
  {| url.Parse := Parse; url.ParseQuery := ParseQuery |}.

End PlainURL.

(** ** Dotted quads

    What [ipPattern] matches, read off character by character: four runs of
    one to three digits with dots between, and no word character on either
    side. *)
Module IPv4.
Import GoStrings.

Local Open Scope nat_scope.

(** [ip_scan octets digits s pos]: [octets] runs are complete, the current
    one has [digits] digits so far, [s] is what is left and [pos] the number
    of characters read; the result is where the quad ends. *)
Fixpoint ip_scan (octets digits : nat) (s : string) (pos : nat)
    : option nat :=
  match s with
  | EmptyString =>
    if (octets =? 3) && (1 <=? digits) then Some pos else None
  | String c s' =>
    if is_digit c then
      if digits <? 3 then ip_scan octets (S digits) s' (S pos) else None
    else if Ascii.eqb c "." && (1 <=? digits) && (octets <? 3) then
      ip_scan (S octets) 0 s' (S pos)
    else if (octets =? 3) && (1 <=? digits) && negb (regexp.word c) then
      Some pos
    else None
  end.

(** The length of the quad that starts [s], after the character [prev]. *)
Definition ip_here (prev : option ascii) (s : string) : option nat :=
  if regexp.is_word prev then None else ip_scan 0 0 s 0.

(** The characters of a quad. *)
Definition quadchar (c : ascii) : bool := is_digit c || Ascii.eqb c ".".

Definition is_digit' (c : option ascii) : bool :=
  match c with Some c => is_digit c | None => false end.

(** A continuation that fails when, right after a digit, it finds another:
    what follows an octet in [ipPattern] is of this kind. *)
Definition digit_averse (k : regexp.Cont) : Prop :=
  forall d c s pos caps,
    is_digit d = true -> is_digit c = true ->
    k (Some d) (String c s) pos caps = None.

End IPv4.
(** ** [strconv.Atoi] with its error *)
Module strconv.
Import GoStrings.

(** The number a decimal numeral with an optional sign denotes; [None]
    where [strconv] reports a syntax error. *)
Definition numeral (s : string) : option Z :=
  match s with
  | EmptyString => None
  | String "-" (String c ds) => Z.opp <$> digits_value 0 (String c ds)
  | String "+" (String c ds) => digits_value 0 (String c ds)
  | _ => digits_value 0 s
  end.

(** [strconv.Atoi]: the value, and whether the error is nil.  A numeral
    that does not fit [int] gives the nearest bound and a range error. *)
Definition Atoi (s : string) : Z * bool :=
  match numeral s with
  | None => (0, false)
  | Some v =>
    (Z.max GoInt.min_int (Z.min GoInt.max_int v),
     (GoInt.min_int <=? v) && (v <=? GoInt.max_int))
  end.

End strconv.

(** ** More of [common/str.go] *)
Module str.
Import GoStrings.

Definition GetStringIfEmpty (str defaultValue : string) : string :=
  if String.eqb str "" then defaultValue else str.

Definition String2Int (str : string) : Z :=
  let '(num, ok) := strconv.Atoi str in
  if negb ok then 0 else num.

Fixpoint StringsContains (strs : list string) (str : string) : bool :=
  match strs with
  | [] => false
  | s :: strs' => if String.eqb s str then true else StringsContains strs' str
  end.

(** [GetRandomString], over the successive results of [rand.Intn]: [draw i]
    is what the [i]-th call returns, and [keyChars] is the constant of the
    package.  Indexing [keyChars] out of range panics, and so does [make]
    for a negative length: [None]. *)
Fixpoint fill (keyChars : string) (draw : nat -> Z) (i count : nat)
    : option string :=
  match count with
  | O => Some EmptyString
  | S count' =>
    match String.get (Z.to_nat (draw i)) keyChars with
    | Some ch =>
      if 0 <=? draw i then String ch <$> fill keyChars draw (S i) count'
      else None
    | None => None
    end
  end.

Definition GetRandomString (keyChars : string) (draw : nat -> Z) (length : Z)
    : option string :=
  if length <? 0 then None
  else fill keyChars draw 0 (Z.to_nat length).

End str.
(** Notions used to state properties of the masks. *)
Module TextProps.
Import GoStrings.

(** The character [c] does not occur in [s]. *)
Definition lacks (c : ascii) (s : string) : bool :=
  all_chars (fun x => negb (Ascii.eqb x c)) s.

(** The labels a host keeps under the masks: the last one, or the last two
    when they look like a country-code ending. *)
Definition kept_labels (a b : string) : string :=
  if (String.length b =? 2)%nat && (String.length a <=? 3)%nat
  then a +:+ "." +:+ b
  else b.

(** Every text that [r] matches has the character [c] in it: a sufficient
    condition, read off the expression. *)
Fixpoint needs (c : ascii) (r : regexp.Regexp) : Prop :=
  match r with
  | regexp.Class p => forall x, p x = true -> x = c
  | regexp.Cat r1 r2 => needs c r1 \/ needs c r2
  | regexp.Alt r1 r2 => needs c r1 /\ needs c r2
  | regexp.Capture r1 => needs c r1
  | _ => False
  end.

(** A continuation that finds no match in a text without [c]. *)
Definition blind (c : ascii) (k : regexp.Cont) : Prop :=
  forall prev s pos caps, lacks c s = true -> k prev s pos caps = None.

End TextProps.
(** ** [middleware/patch.go] and package [util]: a session from a token *)
Module middleware.
Import GoStrings.

(** [util.Claims], the registered claims of the library aside. *)
Record Claims := {
  ID              : Z;
  Username        : string;
  Role            : Z;
  Status          : Z;
  Group           : string;
  Turnstile       : bool;
  PendingUsername : string;
  PendingUserID   : string;
  AffCode         : string;
  OAuthState      : string;
}.

(** What [jwt.ParseWithClaims] makes of a token string with the public key
    of the service: an error ([None]), or the claims of the token and
    whether it is valid. *)
Definition Parser := string -> option (Claims * bool).

(** [util.ParseToken] *)
Definition ParseToken (jwt_ParseWithClaims : Parser) (tokenString : string)
    : option Claims :=
  match jwt_ParseWithClaims tokenString with
  | None => None
  | Some (claims, valid) => if valid then Some claims else None
  end.

(** The values of a session. *)
Inductive SessionValue :=
| SInt (n : Z)
| SString (s : string)
| SBool (b : bool).

Abbreviation Session := (gmap string SessionValue).

(** How the handler leaves the request: aborted with a status and a
    message, or handed on with [c.Next()]; the session as it then is. *)
Inductive Outcome :=
| Abort (status : Z) (message : string) (session : Session)
| Next (session : Session).

Definition StatusUnauthorized : Z := 401.
Definition StatusInternalServerError : Z := 500.

Definition setClaims (claims : Claims) (session : Session) : Session :=
  let session := <["id" := SInt (ID claims)]> session in
  let session := <["username" := SString (Username claims)]> session in
  let session := <["role" := SInt (Role claims)]> session in
  let session := <["status" := SInt (Status claims)]> session in
  let session := <["group" := SString (Group claims)]> session in
  let session := <["turnstile" := SBool (Turnstile claims)]> session in
  let session :=
    <["pending_username" := SString (PendingUsername claims)]> session in
  let session :=
    <["pending_user_id" := SString (PendingUserID claims)]> session in
  let session := <["aff" := SString (AffCode claims)]> session in
  <["oauth_state" := SString (OAuthState claims)]> session.

(** [JWT2Session], for the value of the [Authorization] header (empty when
    there is none), the session of the request and whether [session.Save]
    succeeds. *)
Definition JWT2Session (jwt_ParseWithClaims : Parser)
    (Save : Session -> bool) (token : string) (session : Session)
    : Outcome :=
  if negb (String.eqb token "") then
    let split := Replace1 token "Bearer " "" in
    match ParseToken jwt_ParseWithClaims split with
    | None =>
      Abort StatusUnauthorized
        "无权进行此操作，未提供有效的 Authorization" session
    | Some claims =>
      let session := setClaims claims session in
      if negb (Save session)
      then Abort StatusInternalServerError "无法保存 session 数据" session
      else Next session
    end
  else Next session.

(** The keys [JWT2Session] writes. *)
Definition claimKeys : list string :=
  ["id"; "username"; "role"; "status"; "group"; "turnstile";
   "pending_username"; "pending_user_id"; "aff"; "oauth_state"].

End middleware.

(** ** [model/model_log.go]: the logging transport *)
Module model_log.
Import GoStrings.

(** [APILog], the two times aside. *)
Record APILog := {
  Req : string;
  Res : string;
  Err : string;
}.

(** The body of a response behind [rc]: what is left of the upstream body,
    what the [io.TeeReader] has copied to [buf], and the fields of [rc]. *)
Record rc := {
  upstream  : string;
  buf       : string;
  l         : APILog;
  closeFunc : bool;      (* [closeFunc != nil] *)
  closed    : bool;
}.

(** What a client does with the body: a [Read] that takes up to [n] bytes,
    or [Close]. *)
Inductive Action := Read (n : nat) | Close.

(** One action: the body afterwards and the records handed to
    [PostProcess]. *)
Definition step (r : rc) (a : Action) : rc * list APILog :=
  match a with
  | Read n =>
    ({| upstream := drop n (upstream r);
        buf := buf r +:+ take n (upstream r);
        l := l r; closeFunc := closeFunc r; closed := closed r |}, [])
  | Close =>
    if closeFunc r && negb (closed r) then
      let l' := {| Req := Req (l r); Res := buf r; Err := Err (l r) |} in
      ({| upstream := upstream r; buf := buf r; l := l';
          closeFunc := closeFunc r; closed := true |}, [l'])
    else (r, [])
  end.

Fixpoint steps (r : rc) (actions : list Action) : rc * list APILog :=
  match actions with
  | [] => (r, [])
  | a :: actions' =>
    let '(r1, logs1) := step r a in
    let '(r2, logs2) := steps r1 actions' in
    (r2, logs1 ++ logs2)
  end.

(** What [RoundTrip] returns: the answer of the underlying transport
    untouched, an error, or a response whose body is behind [rc]. *)
Inductive Returned :=
| Forwarded (answer : string + string)
| Failed (err : string)
| Logged (body : rc).

(** [LoggingTransport.RoundTrip], for the path of the request, its body
    ([None] for a nil body, else what [io.ReadAll] returns: the bytes and
    the error, if any) and the underlying transport, which answers a request
    of a given body with a response body or an error.  Once read, the body
    of the request is a buffer of the bytes read.  Second component: the
    records handed to [PostProcess] before [RoundTrip] returns. *)
Definition RoundTrip
    (transport : option (string * option string) -> string + string)
    (path : string) (body : option (string * option string))
    : Returned * list APILog :=
  if negb (String.eqb path "/v1/chat/completions")
  then (Forwarded (transport body), [])
  else
    let l0 := {| Req := ""; Res := ""; Err := "" |} in
    let after_body : APILog * option (string * option string) + string * APILog :=
      match body with
      | None => inl (l0, None)
      | Some (reqBody, err) =>
        let l1 := {| Req := reqBody; Res := ""; Err := "" |} in
        match err with
        | Some e => inr (e, {| Req := reqBody; Res := ""; Err := e |})
        | None => inl (l1, Some (reqBody, None))
        end
      end in
    match after_body with
    | inr (e, l1) => (Failed e, [l1])
    | inl (l1, body') =>
      match transport body' with
      | inr e => (Failed e, [{| Req := Req l1; Res := ""; Err := e |}])
      | inl respBody =>
        (Logged {| upstream := respBody; buf := ""; l := l1;
                   closeFunc := true; closed := false |}, [])
      end
    end.

(** The bytes the reads of [actions] ask for before the first [Close]. *)
Fixpoint read_before_close (actions : list Action) : nat :=
  match actions with
  | Read n :: actions' => n + read_before_close actions'
  | _ => 0
  end.

Definition is_close (a : Action) : bool :=
  match a with Close => true | Read _ => false end.

End model_log.

(** ** The Ali adaptor: [ConvertOpenAIRequest] *)
Module ali.
Import GoStrings.

(** The fields of [dto.GeneralOpenAIRequest] the adaptor reads or writes. *)
Record GeneralOpenAIRequest := {
  Model          : string;
  EnableThinking : bool;
  Stream         : bool;
}.

(** [ConvertOpenAIRequest] up to the call of [requestOpenAI2Ali]: the
    request and [info.IsStream] as that call finds them, or the error for a
    nil request. *)
Definition ConvertOpenAIRequest (IsStream : bool)
    (request : option GeneralOpenAIRequest)
    : string + GeneralOpenAIRequest * bool :=
  match request with
  | None => inl "request is nil"
  | Some request =>
    let '(request, IsStream) :=
      if Contains (Model request) "thinking"
      then ({| Model := Model request; EnableThinking := true;
               Stream := true |}, true)
      else (request, IsStream) in
    let request :=
      if negb IsStream
      then {| Model := Model request; EnableThinking := false;
              Stream := Stream request |}
      else request in
    inr (request, IsStream)
  end.

End ali.

(** * Properties *)

Module GoIntFacts.
Import GoInt.

Lemma wrap_id z : in_range z -> wrap z = z.
Proof.
  unfold in_range, wrap, min_int, max_int. intros Hz.
  rewrite Z.mod_small; lia.
Qed.

Lemma wrap_in_range z : in_range (wrap z).
Proof.
  unfold in_range, wrap, min_int, max_int.
  pose proof (Z.mod_pos_bound (z + 2 ^ 63) (2 ^ 64) ltac:(lia)). lia.
Qed.

Lemma div_100 s q : 100 * q <= s < 100 * q + 100 -> 0 <= q < 2 ^ 60 -> div s 100 = q.
Proof.
  intros Hs Hq. unfold div.
  assert (Z.quot s 100 = q) as ->.
  { rewrite Z.quot_div_nonneg by lia.
    symmetry. apply (Z.div_unique s 100 q (s - 100 * q)); lia. }
  apply wrap_id. unfold in_range, min_int, max_int. lia.
Qed.

End GoIntFacts.

(** ** The retry decision and the relay pipeline *)
Module RelayFacts.
Import types controller RelayExamples.

(** *** [shouldRetry] *)

(** C3. A channel error is retried whatever the remaining budget, the
    skip-retry flag, a pinned channel or the HTTP status: the channel-error
    test comes first. *)
Theorem shouldRetry_channel_error (c : Context) (E : NewAPIError) (R : Z) :
  channelError E = true -> shouldRetry c (Some E) R = true.
Proof.
  intros Hch. unfold shouldRetry. cbn [IsChannelError]. now rewrite Hch.
Qed.

Lemma shouldRetry_channel_error_witness :
  channelError err_channel_skip = true /\
  shouldRetry pinned_ctx (Some err_channel_skip) (-1) = true.
Proof.
  split; [reflexivity | apply shouldRetry_channel_error; reflexivity].
Defined.

(** C2, as the code has it. A skip-retry error that is not a channel error
    is never retried, and the retry loop is left at the attempt that
    produced it. *)
Theorem shouldRetry_skip_retry (c : Context) (E : NewAPIError) (R : Z) :
  skipRetry E = true -> channelError E = false ->
  shouldRetry c (Some E) R = false /\
  (forall w relayFormat fuel i v v',
     attempt w relayFormat i v = Failed v' E ->
     i <= RetryTimes w ->
     retryLoop w relayFormat (S fuel) i v = Some (LeftLoop v')).
Proof.
  intros Hskip Hch.
  assert (forall c R, shouldRetry c (Some E) R = false) as Hno.
  { intros c0 R0. unfold shouldRetry. cbn [IsChannelError IsSkipRetryError].
    now rewrite Hch, Hskip. }
  split; [apply Hno|].
  intros w relayFormat fuel i v v' Hat Hi.
  cbn [retryLoop]. apply Z.leb_le in Hi. rewrite Hi. cbn [negb].
  rewrite Hat, Hno. reflexivity.
Qed.

(** C2, as the specification states it, fails: an error that carries both
    flags is retried. *)
Lemma shouldRetry_skip_retry_counterexample :
  ~ (forall (c : Context) (E : NewAPIError) (R : Z),
       skipRetry E = true -> shouldRetry c (Some E) R = false).
Proof.
  intros H. specialize (H ∅ err_channel_skip 3 eq_refl). discriminate H.
Qed.

(** C4. Without the channel-error flag, the statuses 400, 408, 504, 524
    and every 2xx are never retried. *)
Theorem shouldRetry_no_retry_status (c : Context) (E : NewAPIError) (R : Z) :
  channelError E = false -> no_retry_status (StatusCode E) ->
  shouldRetry c (Some E) R = false.
Proof.
  intros Hch Hst. unfold shouldRetry. cbn [IsChannelError IsSkipRetryError].
  rewrite Hch.
  destruct (skipRetry E); [reflexivity|].
  destruct (R <=? 0); [reflexivity|].
  destruct (bool_decide _); [reflexivity|].
  unfold StatusTooManyRequests, StatusBadRequest.
  destruct Hst as [-> | [-> | [-> | [-> | H2xx]]]]; try reflexivity.
  rewrite (GoIntFacts.div_100 (StatusCode E) 2) by lia.
  repeat match goal with
         | |- context [?a =? ?b] =>
           destruct (Z.eqb_spec a b); try lia; cbn [orb]
         end; reflexivity.
Qed.

Lemma shouldRetry_skip_retry_witness :
  skipRetry err_skip = true /\ channelError err_skip = false /\
  shouldRetry ∅ (Some err_skip) 3 = false /\
  (forall w relayFormat fuel i v v',
     attempt w relayFormat i v = Failed v' err_skip ->
     i <= RetryTimes w ->
     retryLoop w relayFormat (S fuel) i v = Some (LeftLoop v')).
Proof.
  split; [reflexivity|]. split; [reflexivity|].
  apply (shouldRetry_skip_retry ∅ err_skip 3); reflexivity.
Defined.

Lemma shouldRetry_no_retry_status_witness :
  channelError err_gateway_timeout = false /\
  no_retry_status (StatusCode err_gateway_timeout) /\
  shouldRetry ∅ (Some err_gateway_timeout) 3 = false.
Proof.
  split; [reflexivity|].
  assert (no_retry_status (StatusCode err_gateway_timeout)) as H.
  { unfold no_retry_status. cbn. lia. }
  split; [exact H|].
  apply shouldRetry_no_retry_status; [reflexivity | exact H].
Defined.

(** *** The retry loop *)

Lemma attempts_app tr1 tr2 :
  attempts (tr1 ++ tr2) = attempts tr1 ++ attempts tr2.
Proof.
  induction tr1 as [|ev tr1 IH]; [reflexivity|].
  destruct ev; cbn [attempts app]; rewrite ?IH; reflexivity.
Qed.

Lemma refund_free_app tr1 tr2 :
  existsb is_refund (tr1 ++ tr2)
  = existsb is_refund tr1 || existsb is_refund tr2.
Proof. apply existsb_app. Qed.

(** One pass adds its own index to the attempts, unless no channel could be
    had, and never a refund. *)
Lemma attempt_trace w relayFormat i v :
  match attempt w relayFormat i v with
  | NoChannel v' =>
    trace v' = trace v
  | Done v' =>
    attempts (trace v') = attempts (trace v) ++ [i] /\
    existsb is_refund (trace v') = existsb is_refund (trace v)
  | Failed v' e =>
    attempts (trace v') = attempts (trace v) ++ [i] /\
    existsb is_refund (trace v') = existsb is_refund (trace v) /\
    newAPIError v' = Some e
  end.
Proof.
  unfold attempt.
  destruct (getChannel w (ctx v) i) as [c1 [channel|err]]; [|reflexivity].
  destruct (runHelper w _ i _ _) as [[[e|] info] c3]; cbn [trace newAPIError];
    rewrite attempts_app, refund_free_app; cbn [attempts existsb is_refund];
    rewrite orb_false_r; auto.
Qed.

Lemma attempt_error w relayFormat i v :
  match attempt w relayFormat i v with
  | NoChannel v' => is_Some (newAPIError v')
  | Done v' => newAPIError v' = None
  | Failed v' e => newAPIError v' = Some e
  end.
Proof.
  unfold attempt.
  destruct (getChannel w (ctx v) i) as [c1 [channel|err]]; [|cbn; eauto].
  destruct (runHelper w _ i _ _) as [[[e|] info] c3]; reflexivity.
Qed.

(** The loop dispatches at consecutive indices, starting where it is entered
    and never beyond [RetryTimes]. *)
Lemma retryLoop_attempts w relayFormat fuel :
  RetryTimes w < GoInt.max_int ->
  forall i v ex,
    0 <= i ->
    retryLoop w relayFormat fuel i v = Some ex ->
    exists n : Z,
      0 <= n /\
      attempts (trace (exit_vars ex)) = attempts (trace v) ++ seqZ i n /\
      (n = 0 \/ i + n <= RetryTimes w + 1) /\
      existsb is_refund (trace (exit_vars ex)) = existsb is_refund (trace v).
Proof.
  intros HR. induction fuel as [|fuel IH]; intros i v ex Hi Hrun;
    [discriminate|].
  cbn [retryLoop] in Hrun.
  destruct (Z.leb_spec i (RetryTimes w)) as [Hle|Hgt]; cbn [negb] in Hrun.
  2:{ injection Hrun as <-. exists 0. cbn. rewrite app_nil_r. auto with lia. }
  pose proof (attempt_trace w relayFormat i v) as Hat.
  destruct (attempt w relayFormat i v) as [v'|v'|v' e].
  - injection Hrun as <-. exists 0. cbn. rewrite Hat, app_nil_r.
    auto with lia.
  - injection Hrun as <-. exists 1. cbn. destruct Hat as [-> ->].
    repeat split; auto with lia.
  - destruct Hat as (Hatt & Href & _).
    destruct (shouldRetry _ _ _); cbn [negb] in Hrun.
    + assert (GoInt.add i 1 = i + 1) as Hadd.
      { apply GoIntFacts.wrap_id.
        unfold GoInt.in_range, GoInt.min_int, GoInt.max_int in *. lia. }
      rewrite Hadd in Hrun.
      destruct (IH (i + 1) v' ex ltac:(lia) Hrun) as (n & Hn & Hex & Hb & Hr).
      exists (1 + n). split; [lia|].
      rewrite Hex, Hatt, <- app_assoc. cbn [app].
      replace (seqZ i (1 + n)) with (i :: seqZ (i + 1) n).
      2:{ rewrite (seqZ_cons i (1 + n)) by lia. do 2 f_equal; lia. }
      rewrite Hr, Href. repeat split; auto. right.
      destruct Hb as [-> | Hb]; lia.
    + injection Hrun as <-. exists 1. cbn. rewrite Hatt, Href.
      repeat split; auto with lia.
Qed.

(** The loop is left, and the fuel [Relay] grants is enough for that. *)
Lemma retryLoop_terminates w relayFormat fuel :
  RetryTimes w < GoInt.max_int ->
  forall i v,
    0 <= i ->
    (Z.to_nat (RetryTimes w + 1 - i) < fuel)%nat ->
    is_Some (retryLoop w relayFormat fuel i v).
Proof.
  intros HR. induction fuel as [|fuel IH]; intros i v Hi Hfuel; [lia|].
  cbn [retryLoop].
  destruct (Z.leb_spec i (RetryTimes w)) as [Hle|Hgt]; cbn [negb]; [|eauto].
  destruct (attempt w relayFormat i v) as [v'|v'|v' e]; eauto.
  destruct (shouldRetry _ _ _); cbn [negb]; [|eauto].
  assert (GoInt.add i 1 = i + 1) as ->.
  { apply GoIntFacts.wrap_id.
    unfold GoInt.in_range, GoInt.min_int, GoInt.max_int in *. lia. }
  apply IH; lia.
Qed.

Lemma retryLoop_exit_error w relayFormat fuel :
  forall i v ex,
    retryLoop w relayFormat fuel i v = Some ex ->
    match ex with
    | Returned v' => newAPIError v' = None
    | LeftLoop v' => newAPIError v' = newAPIError v \/ is_Some (newAPIError v')
    end.
Proof.
  induction fuel as [|fuel IH]; intros i v ex Hrun; [discriminate|].
  cbn [retryLoop] in Hrun.
  destruct (negb _); [injection Hrun as <-; auto|].
  pose proof (attempt_error w relayFormat i v) as Herr.
  destruct (attempt w relayFormat i v) as [v'|v'|v' e].
  - injection Hrun as <-. auto.
  - injection Hrun as <-. auto.
  - destruct (negb _).
    + injection Hrun as <-. rewrite Herr. eauto.
    + apply IH in Hrun. destruct ex as [v''|v'']; [exact Hrun|].
      destruct Hrun as [-> | ?]; [rewrite Herr|]; eauto.
Qed.

Lemma afterLoop_trace v :
  attempts (trace (afterLoop v)) = attempts (trace v) /\
  existsb is_refund (trace (afterLoop v)) = existsb is_refund (trace v) /\
  newAPIError (afterLoop v) = newAPIError v /\
  relayInfo (afterLoop v) = relayInfo v.
Proof.
  unfold afterLoop. destruct (_ <? _); [|auto].
  cbn. rewrite attempts_app, refund_free_app. cbn.
  rewrite app_nil_r, orb_false_r. auto.
Qed.

Lemma deferReturnQuota_trace v :
  attempts (trace (deferReturnQuota v)) = attempts (trace v) /\
  newAPIError (deferReturnQuota v) = newAPIError v /\
  relayInfo (deferReturnQuota v) = relayInfo v.
Proof.
  unfold deferReturnQuota. destruct (newAPIError v) eqn:He; [|auto].
  destruct (negb _); [|auto].
  cbn. rewrite attempts_app. cbn. rewrite app_nil_r. auto.
Qed.

Lemma deferRespond_trace o :
  attempts (out_trace (deferRespond o)) = attempts (out_trace o) /\
  refunded (deferRespond o) = refunded o /\
  out_error (deferRespond o) = out_error o /\
  out_info (deferRespond o) = out_info o.
Proof.
  unfold deferRespond, refunded. destruct (out_error o) eqn:He; [|auto].
  cbn. rewrite attempts_app, refund_free_app. cbn.
  rewrite app_nil_r, orb_false_r. auto.
Qed.

(** The deferred quota return fires exactly on an error exit with a
    non-zero pre-consumed amount. *)
Lemma deferReturnQuota_refund v :
  existsb is_refund (trace v) = false ->
  existsb is_refund (trace (deferReturnQuota v)) = true <->
  is_Some (newAPIError v) /\ FinalPreConsumedQuota (relayInfo v) <> 0.
Proof.
  intros Hfree. unfold deferReturnQuota.
  destruct (newAPIError v) as [e|] eqn:He.
  - destruct (Z.eqb_spec (FinalPreConsumedQuota (relayInfo v)) 0) as [Hz|Hnz];
      cbn [negb].
    + rewrite Hfree. split; [discriminate|]. intros [_ H]. now destruct H.
    + cbn. rewrite refund_free_app. cbn. rewrite orb_true_r.
      split; eauto.
  - rewrite Hfree. split; [discriminate|]. intros [[? H] _]. discriminate H.
Qed.

(** A run of [Relay] comes to an end. *)
Lemma Relay_terminates (w : World) (relayFormat : RelayFormat) (c : Context) :
  RetryTimes w < GoInt.max_int -> is_Some (Relay w relayFormat c).
Proof.
  intros HR. unfold Relay, Relay_fuel.
  destruct (match relayFormat with
            | RelayFormatOpenAIRealtime => negb (Upgrade w)
            | _ => false
            end); [eauto|].
  destruct (preflight w) as [[[st err] info]|info]; [eauto|].
  match goal with
  | |- context [retryLoop w relayFormat ?fuel 0 ?v0] =>
    destruct (retryLoop_terminates w relayFormat fuel HR 0 v0 ltac:(lia))
      as [ex ->]; [lia|]
  end.
  destruct ex; eauto.
Qed.

(** C5. The loop runs with [i] from 0 while [i <= RetryTimes]: a run
    terminates, its dispatch attempts carry the indices 0, 1, ..., n-1 in
    order, and n is at most [RetryTimes + 1]. *)
Theorem Relay_attempts_bounded (w : World) (relayFormat : RelayFormat)
    (c : Context) :
  0 <= RetryTimes w < GoInt.max_int ->
  exists (o : Outcome) (n : Z),
    Relay w relayFormat c = Some o /\
    attempts (out_trace o) = seqZ 0 n /\
    0 <= n <= RetryTimes w + 1.
Proof.
  intros [HR0 HR]. unfold Relay, Relay_fuel.
  destruct (match relayFormat with
            | RelayFormatOpenAIRealtime => negb (Upgrade w)
            | _ => false
            end).
  { exists {| out_error := None; out_info := None; out_ctx := c;
              out_trace := [EvWssError] |}, 0. cbn. auto with lia. }
  destruct (preflight w) as [[[st err] info]|info].
  { eexists _, 0. split; [reflexivity|].
    split; [|lia]. now rewrite (proj1 (deferRespond_trace _)). }
  set (v0 := {| ctx := c; relayInfo := info; newAPIError := None;
                trace := [] |}).
  destruct (retryLoop_terminates w relayFormat
              (S (Z.to_nat (RetryTimes w + 1))) HR 0 v0 ltac:(lia))
    as [ex Hex].
  { replace (RetryTimes w + 1 - 0) with (RetryTimes w + 1) by lia. lia. }
  rewrite Hex.
  destruct (retryLoop_attempts w relayFormat _ HR 0 v0 ex ltac:(lia) Hex)
    as (n & Hn & Hatt & Hb & _).
  cbn [trace v0 attempts app] in Hatt.
  exists (match ex with
          | Returned v => deferRespond (outcome_of (deferReturnQuota v))
          | LeftLoop v =>
            deferRespond (outcome_of (deferReturnQuota (afterLoop v)))
          end), n.
  destruct ex as [v|v]; (split; [reflexivity|]);
    rewrite (proj1 (deferRespond_trace _)); cbn [outcome_of out_trace];
    rewrite (proj1 (deferReturnQuota_trace _));
    rewrite ?(proj1 (afterLoop_trace _)); cbn [exit_vars] in Hatt;
    (split; [exact Hatt | lia]).
Qed.

Lemma Relay_attempts_bounded_witness :
  0 <= RetryTimes (world_overloaded 2 500) < GoInt.max_int /\
  exists (o : Outcome) (n : Z),
    Relay (world_overloaded 2 500) RelayFormatOpenAI ∅ = Some o /\
    attempts (out_trace o) = seqZ 0 n /\
    0 <= n <= RetryTimes (world_overloaded 2 500) + 1.
Proof.
  assert (0 <= RetryTimes (world_overloaded 2 500) < GoInt.max_int) as H.
  { cbn. unfold GoInt.max_int. lia. }
  split; [exact H|]. apply Relay_attempts_bounded. exact H.
Defined.

(** The bound is reached: with two retries configured and an upstream that
    keeps answering 429, three helpers are dispatched, and the pre-consumed
    quota goes back once. *)
Example Relay_overloaded_run :
  (fun o => (attempts (out_trace o), refunded o,
             GetStringSlice (out_ctx o) "use_channel"))
    <$> Relay (world_overloaded 2 500) RelayFormatOpenAI ∅
  = Some ([0; 1; 2], true, ["0"; "9"; "9"]).
Proof. vm_compute. reflexivity. Qed.

(** A channel error is retried even on the last index, yet the loop
    condition still ends the run. *)
Example Relay_channel_error_run :
  (shouldRetry ∅ (Some err_channel) 0,
   (attempts ∘ out_trace)
     <$> Relay (world_failing 1 500 err_channel) RelayFormatClaude ∅)
  = (true, Some [0; 1]).
Proof. vm_compute. reflexivity. Qed.

(** *** The quota refund *)

Lemma retryLoop_refund_free w relayFormat fuel :
  forall i v ex,
    retryLoop w relayFormat fuel i v = Some ex ->
    existsb is_refund (trace (exit_vars ex)) = existsb is_refund (trace v).
Proof.
  induction fuel as [|fuel IH]; intros i v ex Hrun; [discriminate|].
  cbn [retryLoop] in Hrun.
  destruct (negb _); [injection Hrun as <-; reflexivity|].
  pose proof (attempt_trace w relayFormat i v) as Hat.
  destruct (attempt w relayFormat i v) as [v'|v'|v' e].
  - injection Hrun as <-. cbn. now rewrite Hat.
  - injection Hrun as <-. apply Hat.
  - destruct Hat as (_ & Href & _). destruct (negb _).
    + injection Hrun as <-. exact Href.
    + rewrite (IH _ _ _ Hrun). exact Href.
Qed.

(** Under the ledger invariant, a run that stops before the loop leaves
    nothing pre-consumed on the ledger. *)
Lemma preflight_fails_zero w st err info :
  ledger_discipline w ->
  preflight w = inl (st, err, Some info) ->
  FinalPreConsumedQuota info = 0.
Proof.
  intros (Hgen & Hcount & Hprice & Hpre). unfold preflight.
  destruct (negb _); [discriminate|].
  destruct (GenRelayInfo w) as [info0|] eqn:Hg; [|discriminate].
  specialize (Hgen _ eq_refl).
  destruct (_ && _); [intros [= _ _ <-]; exact Hgen|].
  specialize (Hcount info0).
  destruct (CountRequestToken w info0) as [[tokens|] info1];
    cbn [snd] in Hcount; [|intros [= _ _ <-]; congruence].
  specialize (Hprice (SetPromptTokens info1 tokens) tokens).
  destruct (ModelPriceHelper w _ tokens) as [[priceData|] info3];
    cbn [snd SetPromptTokens FinalPreConsumedQuota] in Hprice;
    [|intros [= _ _ <-]; congruence].
  destruct (PreConsumeQuota w _ info3) as [[e|] info4] eqn:Hp; [|discriminate].
  intros [= _ _ <-]. rewrite (Hpre _ _ _ _ Hp). congruence.
Qed.

(** C1. A refund is issued iff the run ends with an error and a non-zero
    [FinalPreConsumedQuota]; a run that fails at any stage up to and
    including pre-consumption issues none. *)
Theorem Relay_refund_iff (w : World) (relayFormat : RelayFormat) (c : Context)
    (o : Outcome) :
  Relay w relayFormat c = Some o ->
  (ledger_discipline w ->
   refunded o = true <->
   is_Some (out_error o) /\
   exists info, out_info o = Some info /\ FinalPreConsumedQuota info <> 0) /\
  (forall st err info,
     preflight w = inl (st, err, info) -> refunded o = false).
Proof.
  unfold Relay, Relay_fuel. intros Hrun.
  destruct (match relayFormat with
            | RelayFormatOpenAIRealtime => negb (Upgrade w)
            | _ => false
            end) eqn:Hup.
  { injection Hrun as <-. split.
    - intros _. cbn. split; [discriminate|]. intros [[? H] _]. discriminate H.
    - reflexivity. }
  destruct (preflight w) as [[[st err] info]|info] eqn:Hpre.
  - injection Hrun as <-.
    destruct (deferRespond_trace
                {| out_error := Some err; out_info := info; out_ctx := c;
                   out_trace := [] |}) as (_ & Href & Herr & Hinfo).
    rewrite Href, Herr, Hinfo. cbn [refunded out_trace existsb out_info].
    split.
    + intros Hled. split; [discriminate|].
      intros [_ (info' & -> & Hnz)]. exfalso. apply Hnz.
      eapply preflight_fails_zero; eauto.
    + reflexivity.
  - set (v0 := {| ctx := c; relayInfo := info; newAPIError := None;
                  trace := [] |}) in Hrun.
    destruct (retryLoop w relayFormat _ 0 v0) as [ex|] eqn:Hex;
      [|discriminate].
    split; [|intros ? ? ? [=]].
    intros _.
    assert (exists v, o = deferRespond (outcome_of (deferReturnQuota v)) /\
                      existsb is_refund (trace v) = false) as (v & -> & Hfree).
    { pose proof (retryLoop_refund_free w relayFormat _ 0 v0 ex Hex) as Hf.
      cbn [v0 trace existsb] in Hf.
      destruct ex as [v|v]; injection Hrun as <-; eexists; split; eauto.
      rewrite (proj1 (proj2 (afterLoop_trace v))). exact Hf. }
    destruct (deferRespond_trace (outcome_of (deferReturnQuota v)))
      as (_ & -> & -> & ->).
    unfold refunded. cbn [outcome_of out_trace out_error out_info].
    rewrite (deferReturnQuota_refund v Hfree).
    destruct (deferReturnQuota_trace v) as (_ & -> & ->).
    split.
    + intros [He Hq]. split; [exact He|]. eauto.
    + intros [He (info' & [= <-] & Hq)]. auto.
Qed.

Lemma Relay_refund_iff_witness :
  exists o,
    Relay (world_overloaded 2 500) RelayFormatOpenAI ∅ = Some o /\
    (ledger_discipline (world_overloaded 2 500) ->
     refunded o = true <->
     is_Some (out_error o) /\
     exists info, out_info o = Some info /\ FinalPreConsumedQuota info <> 0) /\
    (forall st err info,
       preflight (world_overloaded 2 500) = inl (st, err, info) ->
       refunded o = false).
Proof.
  eexists. split; [vm_compute; reflexivity|].
  apply (Relay_refund_iff (world_overloaded 2 500) RelayFormatOpenAI ∅).
  vm_compute. reflexivity.
Defined.

(** The sample worlds keep the ledger invariant. *)
Lemma world_failing_discipline retries q e :
  ledger_discipline (world_failing retries q e).
Proof.
  repeat split; cbn; try reflexivity.
  - now intros info [= <-].
  - discriminate.
Qed.

(** A request that fails validation is answered with the error and no
    refund; one that fails upstream gets its pre-consumed quota back. *)
Example Relay_invalid_run :
  (fun o => (out_error o, refunded o)) <$> Relay world_invalid RelayFormatOpenAI ∅
  = Some (Some (NewError world_invalid ErrorCodeInvalidRequest false), false).
Proof. vm_compute. reflexivity. Qed.

End RelayFacts.

(** ** Strings and the expression for negative indices *)
Module StringFacts.
Import GoStrings.

Local Open Scope nat_scope.
#[local] Arguments String.append : simpl nomatch.

Lemma append_nil_r s : s +:+ "" = s.
Proof. induction s as [|c s IH]; cbn; [reflexivity | now rewrite IH]. Qed.

Lemma append_assoc s1 s2 s3 : (s1 +:+ s2) +:+ s3 = s1 +:+ (s2 +:+ s3).
Proof. induction s1 as [|c s1 IH]; cbn; [reflexivity | now rewrite IH]. Qed.

Lemma length_append s1 s2 :
  String.length (s1 +:+ s2) = String.length s1 + String.length s2.
Proof. induction s1 as [|c s1 IH]; cbn; [reflexivity | now rewrite IH]. Qed.

Lemma take_append s1 s2 : take (String.length s1) (s1 +:+ s2) = s1.
Proof. induction s1 as [|c s1 IH]; cbn; [now destruct s2 | now rewrite IH]. Qed.

Lemma drop_append s1 s2 n :
  drop (String.length s1 + n) (s1 +:+ s2) = drop n s2.
Proof. induction s1 as [|c s1 IH]; cbn; [reflexivity | exact IH]. Qed.

Lemma HasPrefix_append p s : HasPrefix (p +:+ s) p = true.
Proof.
  induction p as [|c p IH]; cbn; [now destruct s|].
  now rewrite Ascii.eqb_refl, IH.
Qed.

Lemma HasPrefix_nil p : p <> "" -> HasPrefix "" p = false.
Proof. now destruct p. Qed.

(** The first character of [a +:+ s] is no minus sign when [a] has none and
    [s] does not start with one. *)
Lemma starts_with_minus_append a s :
  no_minus a = true -> starts_with_minus s = false ->
  starts_with_minus (a +:+ s) = false.
Proof.
  destruct a as [|c a]; cbn; [auto|].
  intros Ha _. apply andb_prop in Ha as [Hc _]. now apply negb_true_iff.
Qed.

Lemma HasPrefix_minus s sub :
  starts_with_minus s = false -> HasPrefix s (String "-" sub) = false.
Proof.
  destruct s as [|c s]; [reflexivity|]. cbn. now intros ->.
Qed.

(** [strings.Index] walks past a stretch without minus signs when what it
    looks for starts with one. *)
Lemma Index_minus a s sub :
  no_minus a = true ->
  Index (a +:+ s) (String "-" sub)
  = (fun n => String.length a + n) <$> Index s (String "-" sub).
Proof.
  induction a as [|c a IH]; intros Ha.
  - cbn [String.append String.length]. now destruct (Index s _).
  - cbn [no_minus all_chars] in Ha. apply andb_prop in Ha as [Hc Ha].
    apply negb_true_iff in Hc.
    change (String c a +:+ s) with (String c (a +:+ s)).
    cbn [Index HasPrefix]. rewrite Hc. cbn [andb].
    rewrite (IH Ha). now destruct (Index s _).
Qed.

(** The same for a dot followed by a minus sign. *)
Lemma Index_dot_minus a s sub :
  no_minus a = true -> starts_with_minus s = false ->
  Index (a +:+ s) (String "." (String "-" sub))
  = (fun n => String.length a + n) <$> Index s (String "." (String "-" sub)).
Proof.
  intros Ha Hs. induction a as [|c a IH].
  - cbn [String.append String.length]. now destruct (Index s _).
  - cbn [no_minus all_chars] in Ha. apply andb_prop in Ha as [Hc Ha].
    change (String c a +:+ s) with (String c (a +:+ s)).
    cbn [Index]. change (HasPrefix (String c (a +:+ s)) (String "." (String "-" sub)))
      with (Ascii.eqb c "." && HasPrefix (a +:+ s) (String "-" sub)).
    rewrite (HasPrefix_minus (a +:+ s) sub)
      by now apply starts_with_minus_append.
    rewrite andb_false_r, (IH Ha). now destruct (Index s _).
Qed.

Lemma rev_app_append s1 s2 : String.rev_app s1 s2 = String.rev s1 +:+ s2.
Proof.
  unfold String.rev. revert s2.
  induction s1 as [|c s1 IH]; intros s2; cbn; [reflexivity|].
  rewrite IH, (IH (String c "")), append_assoc. reflexivity.
Qed.

Lemma rev_cons c s : String.rev (String c s) = String.rev s +:+ String c "".
Proof. unfold String.rev at 1. cbn. apply rev_app_append. Qed.

(** The first piece of [strings.Split] is what precedes the separator. *)
Lemma Split_go_hd sep s cur :
  sep <> "" ->
  hd "" (Split_go sep s 0 cur)
  = String.rev cur +:+ match Index s sep with
                       | Some n => take n s
                       | None => s
                       end.
Proof.
  intros Hsep. revert cur. induction s as [|c s IH]; intros cur.
  - cbn [Split_go hd Index]. rewrite (HasPrefix_nil sep Hsep).
    now rewrite append_nil_r.
  - cbn [Split_go Index].
    destruct (HasPrefix (String c s) sep); cbn [hd take].
    + now rewrite append_nil_r.
    + rewrite IH, rev_cons, append_assoc. cbn.
      now destruct (Index s sep).
Qed.

Lemma Split_hd s sep :
  sep <> "" ->
  hd "" (Split s sep)
  = match Index s sep with Some n => take n s | None => s end.
Proof. intros Hsep. unfold Split. now rewrite Split_go_hd. Qed.

Lemma HasSuffix_dot a : HasSuffix (a +:+ ".") "." = true.
Proof.
  unfold HasSuffix. rewrite length_append. cbn [String.length].
  replace (String.length a + 1 - 1) with (String.length a + 0) by lia.
  rewrite drop_append. cbn.
  destruct (String.length a + 1) eqn:E; [lia | reflexivity].
Qed.

Lemma take_drop_dot a :
  take (String.length (a +:+ ".") - 1) (a +:+ ".") = a.
Proof.
  rewrite length_append. cbn [String.length].
  replace (String.length a + 1 - 1) with (String.length a) by lia.
  apply take_append.
Qed.

Lemma span_digits k b :
  all_chars is_digit k = true -> no_leading_digit b = true ->
  span is_digit (k +:+ b) = String.length k.
Proof.
  intros Hk Hb. induction k as [|c k IH].
  - destruct b as [|c b]; [reflexivity|]. cbn in *.
    now apply negb_true_iff in Hb as ->.
  - cbn in *. apply andb_prop in Hk as [-> Hk]. now rewrite IH.
Qed.

Lemma Index_here s sub : HasPrefix s sub = true -> Index s sub = Some 0.
Proof. intros H. destruct s; cbn [Index]; now rewrite H. Qed.

(** Where the pieces of a path [a.-k] followed by [b] are found. *)
Lemma Index_negIndex a k b :
  no_minus a = true ->
  Index (a +:+ String "." (String "-" (k +:+ b))) (String "-" k)
  = Some (String.length a + 1).
Proof.
  intros Ha. rewrite (Index_minus a _ k Ha).
  assert (Index (String "." (String "-" (k +:+ b))) (String "-" k) = Some 1)
    as ->; [|reflexivity].
  cbn [Index].
  assert (HasPrefix (String "." (String "-" (k +:+ b))) (String "-" k)
          = false) as -> by reflexivity.
  assert (HasPrefix (String "-" (k +:+ b)) (String "-" k) = true) as ->
    by apply (HasPrefix_append (String "-" k) b).
  reflexivity.
Qed.

Lemma Index_match a k b :
  no_minus a = true ->
  Index (a +:+ String "." (String "-" (k +:+ b))) (String "." (String "-" k))
  = Some (String.length a + 0).
Proof.
  intros Ha. rewrite (Index_dot_minus a _ k Ha) by reflexivity.
  change (String "." (String "-" (k +:+ b)))
    with (String "." (String "-" k) +:+ b).
  rewrite Index_here by apply HasPrefix_append. reflexivity.
Qed.

Lemma take_append_plus a s n :
  take (String.length a + n) (a +:+ s) = a +:+ take n s.
Proof.
  induction a as [|c a IH]; [reflexivity|].
  cbn [String.append String.length Nat.add take]. now rewrite IH.
Qed.

Lemma digits_value_all_digits s acc v :
  digits_value acc s = Some v -> all_chars is_digit s = true.
Proof.
  revert acc. induction s as [|c s IH]; intros acc; [reflexivity|].
  cbn. destruct (is_digit c); [|discriminate]. apply IH.
Qed.

Lemma digits_value_nonneg s acc v :
  (0 <= acc)%Z -> digits_value acc s = Some v -> (0 <= v)%Z.
Proof.
  revert acc. induction s as [|c s IH]; intros acc Hacc; cbn.
  - now intros [= <-].
  - destruct (is_digit c); [|discriminate]. apply IH. lia.
Qed.

(** [strconv.Atoi] on a minus sign and digits. *)
Lemma Atoi_negative k v :
  k <> "" -> digits_value 0 k = Some v ->
  Atoi (String "-" k) = Z.max GoInt.min_int (Z.min GoInt.max_int (- v)).
Proof.
  intros Hk Hv. destruct k as [|d k]; [congruence|].
  unfold Atoi. now rewrite Hv.
Qed.

End StringFacts.

(** ** The matcher on the expression for negative indices *)
Module RegexpFacts.
Import GoStrings regexp StringFacts.

Local Open Scope nat_scope.
#[local] Arguments String.append : simpl nomatch.

(** A greedy run over one class takes every character of the class when
    what follows cannot fail. *)
Lemma star_loop_class p (k : Cont) fuel prev s pos caps :
  (forall prev s pos caps, is_Some (k prev s pos caps)) ->
  String.length s <= fuel ->
  star_loop (run (Class p)) k fuel prev s pos caps
  = k (last_char prev (take (span p s) s)) (drop (span p s) s)
      (pos + span p s) caps.
Proof.
  intros Hk. revert prev s pos caps.
  induction fuel as [|fuel IH]; intros prev s pos caps Hlen.
  - destruct s; [|cbn in Hlen; lia]. cbn. now rewrite Nat.add_0_r.
  - cbn [star_loop run]. destruct s as [|c s].
    + cbn. now rewrite Nat.add_0_r.
    + cbn [span]. destruct (p c).
      * assert ((pos <? S pos) = true) as -> by (apply Nat.ltb_lt; lia).
        rewrite IH by (cbn in Hlen; lia).
        cbn [take drop last_char].
        replace (pos + S (span p s)) with (S pos + span p s) by lia.
        destruct (Hk (last_char (Some c) (take (span p s) s))
                     (drop (span p s) s) (S pos + span p s) caps) as [m ->].
        reflexivity.
      * cbn. now rewrite Nat.add_0_r.
Qed.

(** What [negIndexPattern] matches at a position: a dot, a minus sign and
    the longest run of digits, of which there is at least one. *)
Lemma match_here_negIndex prev s :
  match_here override.negIndexPattern prev s
  = match s with
    | String c1 (String c2 (String d s3)) =>
      if Ascii.eqb "." c1 && Ascii.eqb "-" c2 && is_digit d
      then Some (3 + span is_digit s3, [(1, 3 + span is_digit s3)])
      else None
    | _ => None
    end.
Proof.
  unfold match_here, override.negIndexPattern, Plus. cbn [run Lit].
  destruct s as [|c1 [|c2 [|d s3]]].
  - reflexivity.
  - now destruct (Ascii.eqb "." c1).
  - destruct (Ascii.eqb "." c1); [|reflexivity].
    now destruct (Ascii.eqb "-" c2).
  - destruct (Ascii.eqb "." c1); [|reflexivity].
    destruct (Ascii.eqb "-" c2); [|reflexivity].
    unfold digit. destruct (is_digit d); [|reflexivity]. cbn [andb].
    etransitivity; [apply (star_loop_class is_digit); [eauto | lia] |].
    reflexivity.
Qed.

Lemma match_here_negIndex_None prev c s :
  starts_with_minus s = false ->
  match_here override.negIndexPattern prev (String c s) = None.
Proof.
  intros Hs. rewrite match_here_negIndex.
  destruct s as [|c2 [|d s3]]; try reflexivity.
  cbn in Hs. rewrite (Ascii.eqb_sym "-" c2), Hs. now rewrite andb_false_r.
Qed.

(** The expression has no [\b]: the character before plays no role. *)
Lemma FindAll_negIndex_prev s prev prev' skip :
  FindAll_go override.negIndexPattern s prev skip
  = FindAll_go override.negIndexPattern s prev' skip.
Proof.
  revert prev prev' skip. induction s as [|c s IH]; intros prev prev' skip;
    [reflexivity|].
  cbn [FindAll_go]. destruct skip as [|skip]; [|apply IH].
  rewrite !match_here_negIndex. reflexivity.
Qed.

(** No match starts in a stretch without minus signs. *)
Lemma FindAll_negIndex_skip a s prev :
  no_minus a = true -> starts_with_minus s = false ->
  FindAll_go override.negIndexPattern (a +:+ s) prev 0
  = FindAll_go override.negIndexPattern s prev 0.
Proof.
  intros Ha Hs. revert prev. induction a as [|c a IH]; intros prev;
    [reflexivity|].
  cbn [no_minus all_chars] in Ha. apply andb_prop in Ha as [Hc Ha].
  cbn [String.append FindAll_go].
  rewrite match_here_negIndex_None
    by now apply starts_with_minus_append.
  rewrite (IH Ha). apply FindAll_negIndex_prev.
Qed.

Lemma FindAll_negIndex_none b prev :
  no_minus b = true -> FindAll_go override.negIndexPattern b prev 0 = [].
Proof.
  intros Hb. rewrite <- (append_nil_r b).
  now rewrite FindAll_negIndex_skip.
Qed.

(** The characters of a match are passed over. *)
Lemma FindAll_go_skip r x y prev :
  FindAll_go r (x +:+ y) prev (String.length x)
  = FindAll_go r y (last_char prev x) 0.
Proof.
  revert prev. induction x as [|c x IH]; intros prev; [reflexivity|].
  cbn [String.append String.length FindAll_go last_char]. apply IH.
Qed.

(** A path with one negative index, [a.-k] followed by [b]: the expression
    matches once, at the index. *)
Lemma FindAll_negIndex_single a k b :
  no_minus a = true -> k <> "" -> all_chars is_digit k = true ->
  no_minus b = true -> no_leading_digit b = true ->
  FindAllStringSubmatch override.negIndexPattern (a +:+ ".-" +:+ k +:+ b)
  = [[".-" +:+ k; "-" +:+ k]].
Proof.
  intros Ha Hk Hdig Hb Hlead. unfold FindAllStringSubmatch.
  rewrite FindAll_negIndex_skip by (auto; reflexivity).
  destruct k as [|d k]; [congruence|].
  cbn [String.append FindAll_go].
  rewrite match_here_negIndex.
  cbn [all_chars] in Hdig. apply andb_prop in Hdig as [Hd Hdig].
  rewrite Hd, (span_digits k b Hdig Hlead). cbn [Ascii.eqb andb Nat.add].
  replace (Ascii.eqb "." ".") with true by reflexivity.
  replace (Ascii.eqb "-" "-") with true by reflexivity. cbn [andb].
  f_equal.
  - unfold submatches. cbn [map take drop Nat.sub].
    now rewrite take_append.
  - rewrite FindAll_go_skip. now apply FindAll_negIndex_none.
Qed.

End RegexpFacts.

(** ** The request rewriter *)
Module OverrideFacts.
Import override GoStrings StringFacts RegexpFacts.

Section Generic.
Context {float64 Json : Type} `{L : Library float64 Json}.

(** *** [applyOperations] *)

(** A program runs its first part, then the rest on what that left, unless
    the first part failed. *)
Lemma applyOperations_app (doc : Json) (ops1 ops2 : list (ParamOperation float64)) :
  applyOperations doc (ops1 ++ ops2)
  = match applyOperations doc ops1 with
    | (d, None) => applyOperations d ops2
    | (d, Some err) => (d, Some err)
    end.
Proof.
  revert doc. induction ops1 as [|op ops1 IH]; intros doc; [reflexivity|].
  cbn [app applyOperations].
  destruct (checkConditions doc (Conditions op) (Logic op)) as [[|] [err|]];
    try reflexivity; [|apply IH].
  destruct (execute doc op) as [|r [err|]|]; try reflexivity; apply IH.
Qed.

(** C6. An operation whose gate is false hands the document on unchanged;
    an operation whose execution fails ends the program with the error and
    the empty text, whatever was applied before. *)
Theorem applyOperations_gate_abort (doc d : Json)
    (pre post : list (ParamOperation float64)) (op : ParamOperation float64) :
  applyOperations doc pre = (d, None) ->
  (checkConditions d (Conditions op) (Logic op) = (false, None) ->
   applyOperations doc (pre ++ op :: post) = applyOperations d post) /\
  (forall r err,
     checkConditions d (Conditions op) (Logic op) = (true, None) ->
     execute d op = Assigned r (Some err) ->
     applyOperations doc (pre ++ op :: post)
     = (no_text, Some ("operation " +:+ Mode op +:+ " failed: " +:+ err))).
Proof.
  intros Hpre. split.
  - intros Hgate. rewrite applyOperations_app, Hpre.
    cbn [applyOperations]. now rewrite Hgate.
  - intros r err Hgate Hexec. rewrite applyOperations_app, Hpre.
    cbn [applyOperations]. now rewrite Hgate, Hexec.
Qed.

(** *** Numeric comparisons *)

Lemma compareNumeric_non_number (jsonValue targetValue : Result float64 Json)
    (operator : string) :
  Type_of jsonValue <> gjson.Number \/ Type_of targetValue <> gjson.Number ->
  compareNumeric jsonValue targetValue operator
  = (false,
     Some ("numeric comparison requires both values to be numbers, got "
           +:+ gjson.Type_String (Type_of jsonValue) +:+ " and "
           +:+ gjson.Type_String (Type_of targetValue))).
Proof.
  intros Hty. unfold compareNumeric.
  destruct (Type_of jsonValue), (Type_of targetValue); cbn;
    try reflexivity; destruct Hty; congruence.
Qed.

Lemma compareGjsonValues_numeric (jsonValue targetValue : Result float64 Json)
    (mode : string) :
  mode = "gt" \/ mode = "gte" \/ mode = "lt" \/ mode = "lte" ->
  compareGjsonValues jsonValue targetValue mode
  = compareNumeric jsonValue targetValue mode.
Proof. intros [-> | [-> | [-> | ->]]]; reflexivity. Qed.

Lemma conditionResults_error (doc : Json)
    (cs1 cs2 : list (ConditionOperation float64))
    (cond : ConditionOperation float64) (rs : list bool) (b : bool)
    (err : error) :
  conditionResults doc cs1 = inl rs ->
  checkSingleCondition doc cond = (b, Some err) ->
  conditionResults doc (cs1 ++ cond :: cs2) = inr err.
Proof.
  revert rs. induction cs1 as [|c cs1 IH]; intros rs Hrs Hcond.
  - cbn. now rewrite Hcond.
  - cbn in *. destruct (checkSingleCondition doc c) as [r [e|]];
      [discriminate|].
    destruct (conditionResults doc cs1) as [rs'|e]; [|discriminate].
    now rewrite (IH rs' eq_refl Hcond).
Qed.

(** C7, as the code has it. A numeric comparison of a value that is there
    with a side that is no number is an error, inverted or not, and the
    error ends the program: the gated operation is not skipped, nothing after
    it runs, and the text handed back is empty. *)
Theorem checkSingleCondition_non_number (doc target : Json)
    (cond : ConditionOperation float64) :
  let value := gjson_Get doc (processNegativeIndex doc (CondPath cond)) in
  numeric_mode (CondMode cond) ->
  Exists value = true ->
  json_Marshal (CondValue cond) = (target, None) ->
  Type_of value <> gjson.Number \/
  Type_of (gjson_ParseBytes target) <> gjson.Number ->
  exists err,
    checkSingleCondition doc cond = (false, Some err) /\
    forall (op : ParamOperation float64) cs1 cs2 rs rest,
      Conditions op = cs1 ++ cond :: cs2 ->
      conditionResults doc cs1 = inl rs ->
      applyOperations doc (op :: rest) = (no_text, Some err).
Proof.
  intros value Hmode Hex Hmarshal Hty.
  assert (exists err, checkSingleCondition doc cond = (false, Some err))
    as [err Herr].
  { unfold checkSingleCondition. fold value. rewrite Hex, Hmarshal.
    cbn [negb]. rewrite (compareGjsonValues_numeric _ _ _ Hmode).
    rewrite (compareNumeric_non_number _ _ _ Hty). eauto. }
  exists err. split; [exact Herr|].
  intros op cs1 cs2 rs rest Hconds Hrs. cbn [applyOperations].
  unfold checkConditions. rewrite Hconds.
  rewrite (conditionResults_error doc cs1 cs2 cond rs false err Hrs Herr).
  now destruct cs1.
Qed.

(** *** Negative indices *)

(** What [processNegativeIndex] does with the one match of a path [a.-k]
    followed by [b]: the array is looked up at [a], and the index is
    rewritten when it lies within the array. *)
Lemma processNegativeIndex_one (doc : Json) (a k b : string) (v : Z) :
  let path := a +:+ ".-" +:+ k +:+ b in
  let array := gjson_Get doc a in
  let length := Z.of_nat (List.length (Array array)) in
  let actualIndex := GoInt.add length (Atoi (String "-" k)) in
  no_minus a = true -> no_minus b = true -> no_leading_digit b = true ->
  k <> "" -> digits_value 0 k = Some v ->
  processNegativeIndex doc path
  = if IsArray array && (0 <=? actualIndex)%Z && (actualIndex <? length)%Z
    then a +:+ "." +:+ Itoa actualIndex +:+ b
    else path.
Proof.
  intros path array length actualIndex Ha Hb Hlead Hk Hv.
  pose proof (digits_value_all_digits _ _ _ Hv) as Hdig.
  unfold processNegativeIndex. cbv zeta. unfold path.
  rewrite (FindAll_negIndex_single a k b Ha Hk Hdig Hb Hlead).
  fold path. cbv beta iota.
  lazymatch goal with
  | |- foldl ?f ?x [?m] = ?rhs => change (f x m = rhs)
  end.
  unfold resolveMatch. cbn [nth].
  change (".-" +:+ k) with (String "." (String "-" k)).
  change ("-" +:+ k) with (String "-" k).
  change path with (a +:+ String "." (String "-" (k +:+ b))).
  (* the path of the array: what precedes the first ["-k"], less the dot *)
  rewrite Split_hd by discriminate.
  rewrite (Index_negIndex a k b Ha), (take_append_plus a _ 1).
  change (take 1 (String "." (String "-" (k +:+ b)))) with ".".
  rewrite HasSuffix_dot, take_drop_dot. fold array. fold length.
  fold actualIndex.
  destruct (IsArray array); [|reflexivity]. cbn [andb].
  destruct ((0 <=? actualIndex)%Z && (actualIndex <? length)%Z);
    [|reflexivity].
  (* the first [".-k"] of the path is the index itself *)
  unfold Replace1. rewrite (Index_match a k b Ha).
  rewrite take_append_plus, <- Nat.add_assoc, drop_append.
  cbn [take Nat.add]. rewrite append_nil_r.
  change (String "." (String "-" (k +:+ b)))
    with (String "." (String "-" k) +:+ b).
  rewrite <- (Nat.add_0_r (String.length (String "." (String "-" k)))).
  rewrite drop_append. reflexivity.
Qed.

(** C8, as the code has it, for a path with one negative index [a.-k]
    followed by [b] (no other minus sign in it): an index within the array at
    [a] is rewritten to [len - k]; an index beyond it leaves the path as it
    is, and the operation is carried out at that very path. *)
Theorem processNegativeIndex_single (doc : Json) (a k b : string) (v : Z) :
  let path := a +:+ ".-" +:+ k +:+ b in
  let array := gjson_Get doc a in
  let len := Z.of_nat (List.length (Array array)) in
  no_minus a = true -> no_minus b = true -> no_leading_digit b = true ->
  k <> "" -> digits_value 0 k = Some v ->
  IsArray array = true -> (len <= GoInt.max_int)%Z ->
  ((1 <= v <= len)%Z ->
   processNegativeIndex doc path = a +:+ "." +:+ Itoa (len - v) +:+ b) /\
  ((len < v)%Z ->
   processNegativeIndex doc path = path /\
   forall (op : ParamOperation float64) rest,
     Path op = path -> Mode op = "set" -> KeepOrigin op = false ->
     Conditions op = [] ->
     applyOperations doc (op :: rest)
     = match sjson_Set doc path (Value_ op) with
       | (_, Some err) =>
         (no_text, Some ("operation set failed: " +:+ err))
       | (d, None) => applyOperations d rest
       end).
Proof.
  intros path array len Ha Hb Hlead Hk Hv Harr Hlen.
  pose proof (processNegativeIndex_one doc a k b v Ha Hb Hlead Hk Hv) as Hone.
  cbn zeta in Hone. fold path array len in Hone.
  rewrite Harr, (Atoi_negative k v Hk Hv) in Hone. cbn [andb] in Hone.
  pose proof (digits_value_nonneg k 0 v ltac:(lia) Hv) as Hv0.
  assert (0 <= len)%Z as Hlen0 by (unfold len; lia).
  unfold GoInt.max_int, GoInt.min_int in *.
  split.
  - intros Hin. rewrite Hone.
    assert (GoInt.add len (Z.max (- 2 ^ 63) (Z.min (2 ^ 63 - 1) (- v)))
            = len - v)%Z as ->.
    { unfold GoInt.add. rewrite GoIntFacts.wrap_id;
        unfold GoInt.in_range, GoInt.max_int, GoInt.min_int; lia. }
    destruct (Z.leb_spec 0 (len - v)); [|lia].
    destruct (Z.ltb_spec (len - v) len); [|lia]. reflexivity.
  - intros Hout.
    assert (processNegativeIndex doc path = path) as Hpath.
    { rewrite Hone.
      set (i := Z.max (- 2 ^ 63) (Z.min (2 ^ 63 - 1) (- v))).
      assert (GoInt.add len i = len + i)%Z as ->.
      { unfold GoInt.add. rewrite GoIntFacts.wrap_id;
          unfold GoInt.in_range, GoInt.max_int, GoInt.min_int; lia. }
      destruct (Z.leb_spec 0 (len + i)); [lia|]. reflexivity. }
    split; [exact Hpath|].
    intros op rest HP HM HK HC. cbn [applyOperations].
    rewrite HC. cbn [checkConditions]. unfold execute.
    rewrite HM, HK, HP, Hpath. cbn [String.eqb Ascii.eqb Bool.eqb andb].
    now destruct (sjson_Set doc path (Value_ op)) as [d [err|]].
Qed.

(** *** [ApplyParamOverride] *)

Lemma legacy_merge (reqMap paramOverride : gmap string (value float64)) :
  map_fold (fun key value reqMap => <[key := value]> reqMap)
    reqMap paramOverride
  = paramOverride ∪ reqMap.
Proof.
  apply (map_fold_weak_ind (fun r m => r = m ∪ reqMap)).
  - now rewrite (left_id_L ∅ (∪)).
  - intros k v m r _ ->. now rewrite insert_union_l.
Qed.

Lemma parseOperation_is_Some (op : value float64) :
  is_Some (parseOperation op) <-> wellFormedOperation op = true.
Proof.
  unfold parseOperation, wellFormedOperation.
  destruct op as [| | | | |opMap];
    try (split; [intros [? [=]] | discriminate]).
  destruct (asString (opMap !! "mode")); split; eauto; try discriminate.
  intros [? [=]].
Qed.

Lemma tryParseOperations_is_Some (paramOverride : gmap string (value float64)) :
  is_Some (tryParseOperations paramOverride) <->
  exists opsSlice,
    paramOverride !! "operations" = Some (VList opsSlice) /\
    forallb wellFormedOperation opsSlice = true.
Proof.
  unfold tryParseOperations.
  assert (forall l : list (value float64),
            is_Some (mapM parseOperation l) <->
            forallb wellFormedOperation l = true) as Hlist.
  { intros l. rewrite mapM_is_Some, forallb_forall, Forall_forall.
    split; intros Hl x Hx.
    - apply parseOperation_is_Some, Hl, list_elem_of_In, Hx.
    - apply parseOperation_is_Some, Hl, list_elem_of_In, Hx. }
  destruct (paramOverride !! "operations") as [[| | | |l|]|].
  5:{ rewrite Hlist. split; [eauto|]. now intros (? & [= <-] & ?). }
  all: split; [intros [? Hx]; discriminate Hx
              | intros (? & Hx & _); discriminate Hx].
Qed.

(** C9, as the code has it. An empty mapping gives the body back; a mapping
    with a list under [operations], each entry a map with a string [mode],
    runs as a program of these operations in their order; every other
    mapping is merged into the top level of the body, its keys winning. *)
Theorem ApplyParamOverride_dispatch (jsonData : Json)
    (paramOverride : gmap string (value float64)) :
  (paramOverride = ∅ ->
   ApplyParamOverride jsonData paramOverride = (jsonData, None)) /\
  (forall opsSlice,
     paramOverride !! "operations" = Some (VList opsSlice) ->
     forallb wellFormedOperation opsSlice = true ->
     exists operations,
       Forall2 (fun v op => parseOperation v = Some op) opsSlice operations /\
       ApplyParamOverride jsonData paramOverride
       = applyOperations jsonData operations) /\
  (paramOverride <> ∅ ->
   (forall opsSlice,
      paramOverride !! "operations" = Some (VList opsSlice) ->
      forallb wellFormedOperation opsSlice = false) ->
   ApplyParamOverride jsonData paramOverride
   = applyOperationsLegacy jsonData paramOverride) /\
  (forall reqMap,
     json_Unmarshal jsonData = (reqMap, None) ->
     applyOperationsLegacy jsonData paramOverride
     = json_Marshal (VMap (paramOverride ∪ reqMap))).
Proof.
  unfold ApplyParamOverride. repeat split.
  - intros ->. reflexivity.
  - intros opsSlice Hops Hwf.
    destruct (tryParseOperations paramOverride) as [operations|] eqn:Hparse.
    2:{ exfalso. apply (is_Some_None (A := list (ParamOperation float64))).
        rewrite <- Hparse. apply tryParseOperations_is_Some. eauto. }
    exists operations. split.
    + unfold tryParseOperations in Hparse. rewrite Hops in Hparse.
      now apply mapM_Some.
    + rewrite bool_decide_eq_false_2; [reflexivity|].
      intros Hsize. apply map_size_empty_iff in Hsize. subst.
      now rewrite lookup_empty in Hops.
  - intros Hne Hbad.
    rewrite bool_decide_eq_false_2
      by (intros Hsize; now apply map_size_empty_iff in Hsize).
    destruct (tryParseOperations paramOverride) as [operations|] eqn:Hparse;
      [|reflexivity].
    exfalso.
    destruct (proj1 (tryParseOperations_is_Some paramOverride))
      as (l & Hl & Hwf); [rewrite Hparse; eauto|].
    rewrite (Hbad l Hl) in Hwf. discriminate.
  - intros reqMap Hreq. unfold applyOperationsLegacy.
    now rewrite Hreq, legacy_merge.
Qed.

End Generic.

(** *** The rewriter at work, on the reference implementation *)
Import TreeJson OverrideExamples.

Lemma applyOperations_gate_abort_witness :
  exists d,
    applyOperations body [cool_down] = (d, None) /\
    (checkConditions d (Conditions gated_off) (Logic gated_off)
     = (false, None) ->
     applyOperations body ([cool_down] ++ gated_off :: [set_x])
     = applyOperations d [set_x]) /\
    (forall r err,
       checkConditions d (Conditions gated_off) (Logic gated_off)
       = (true, None) ->
       execute d gated_off = Assigned r (Some err) ->
       applyOperations body ([cool_down] ++ gated_off :: [set_x])
       = (no_text,
          Some ("operation " +:+ Mode gated_off +:+ " failed: " +:+ err))).
Proof.
  eexists. split; [vm_compute; reflexivity|].
  apply (applyOperations_gate_abort body _ [cool_down] [set_x] gated_off).
  vm_compute. reflexivity.
Defined.

(** Scenario S4: both conditions hold and the temperature is set. *)
Example applyOperations_S4 :
  let r := applyOperations body [cool_down] in
  (Num (gjson_Get r.1 "temperature"), r.2) = (2, None).
Proof. vm_compute. reflexivity. Qed.

(** A gate that does not hold: the program goes on as if the operation
    were not there. *)
Example applyOperations_gate_false :
  checkConditions body (Conditions gated_off) (Logic gated_off)
  = (false, None) /\
  applyOperations body [gated_off; set_x] = applyOperations body [set_x].
Proof. split; vm_compute; reflexivity. Qed.

(** A failing operation: the program stops, and what [cool_down] had done
    is not handed back. *)
Example applyOperations_abort :
  applyOperations body [cool_down; move_missing; set_x]
  = (None,
     Some "operation move failed: source path does not exist: nowhere").
Proof. vm_compute. reflexivity. Qed.

Lemma checkSingleCondition_non_number_witness :
  numeric_mode (CondMode model_gt_1) /\
  Exists (gjson_Get body (processNegativeIndex body (CondPath model_gt_1)))
  = true /\
  json_Marshal (CondValue model_gt_1) = (Some (VNum 1), None) /\
  exists err,
    checkSingleCondition body model_gt_1 = (false, Some err) /\
    forall (op : ParamOperation Z) cs1 cs2 rs rest,
      Conditions op = cs1 ++ model_gt_1 :: cs2 ->
      conditionResults body cs1 = inl rs ->
      applyOperations body (op :: rest) = (no_text, Some err).
Proof.
  assert (numeric_mode (CondMode model_gt_1)) as Hmode
    by (left; reflexivity).
  split; [exact Hmode|]. split; [reflexivity|]. split; [reflexivity|].
  apply (checkSingleCondition_non_number body (Some (VNum 1)) model_gt_1);
    [exact Hmode | reflexivity | reflexivity | left; discriminate].
Defined.

(** C7, as the specification states it, fails: the comparison of the string
    under [model] with a number does not come out as a plain false, and the
    operation after the gated one is not reached. *)
Lemma checkSingleCondition_non_number_counterexample :
  checkSingleCondition body model_gt_1 <> (false, None) /\
  applyOperations body [gated_numeric; set_x]
  <> applyOperations body [set_x].
Proof. split; intros H; vm_compute in H; discriminate H. Qed.

Example applyOperations_numeric_abort :
  applyOperations body [gated_numeric; set_x]
  = (None,
     Some ("comparison failed for path model: numeric comparison requires "
           +:+ "both values to be numbers, got String and Number")).
Proof. vm_compute. reflexivity. Qed.

Lemma processNegativeIndex_single_witness :
  no_minus "messages" = true /\ no_minus ".role" = true /\
  no_leading_digit ".role" = true /\ "1" <> "" /\
  digits_value 0 "1" = Some 1 /\
  IsArray (gjson_Get body "messages") = true /\
  (Z.of_nat (List.length (Array (gjson_Get body "messages")))
   <= GoInt.max_int)%Z /\
  processNegativeIndex body "messages.-1.role" = "messages.1.role".
Proof.
  repeat (split; [first [reflexivity | discriminate
                        | vm_compute; discriminate]|]).
  refine (proj1 (processNegativeIndex_single
                   body "messages" "1" ".role" 1
                   eq_refl eq_refl eq_refl _ eq_refl eq_refl _) _).
  - discriminate.
  - vm_compute. discriminate.
  - vm_compute. split; discriminate.
Defined.

(** C8, as the specification states it, fails: [-1] is beyond the empty
    array [tags], the path stays as it is, and yet the operation is not
    skipped; the document comes back with an element in [tags]. *)
Lemma processNegativeIndex_counterexample :
  processNegativeIndex body (Path set_tags_last) = Path set_tags_last /\
  applyOperations body [set_tags_last] <> (body, None) /\
  Exists (gjson_Get body "tags.0") = false /\
  String_ (gjson_Get (applyOperations body [set_tags_last]).1 "tags.0") = "x".
Proof.
  split; [vm_compute; reflexivity|].
  split; [intros H; vm_compute in H; discriminate H|].
  split; vm_compute; reflexivity.
Qed.

(** Beyond the array and not [-1]: the program ends in an error. *)
Example applyOperations_beyond_array :
  processNegativeIndex body (Path set_messages_m3) = Path set_messages_m3 /\
  applyOperations body [set_messages_m3]
  = (None,
     Some ("operation set failed: cannot set array element for "
           +:+ "non-numeric key '-3'")).
Proof. split; vm_compute; reflexivity. Qed.

(** Outside the paths of the theorem the array is looked for where the
    text of the index first occurs in the path: an index behind a key with
    that text in it, or behind another negative index, stays as it is. *)
Example processNegativeIndex_other_paths :
  (List.length (Array (gjson_Get nested "top-1.list")),
   processNegativeIndex nested "top-1.list.-1",
   processNegativeIndex nested "rows.-2.-1")
  = (2%nat, "top-1.list.-1", "rows.0.-1").
Proof. vm_compute. reflexivity. Qed.

(** C9, as the specification states it, fails: a list under [operations]
    does not make the override a program. *)
Lemma ApplyParamOverride_dispatch_counterexample :
  ~ (forall (jsonData : text) (paramOverride : gmap string tree) opsSlice,
       paramOverride !! "operations" = Some (VList opsSlice) ->
       exists operations,
         tryParseOperations paramOverride = Some operations /\
         ApplyParamOverride jsonData paramOverride
         = applyOperations jsonData operations).
Proof.
  intros H.
  destruct (H body override_bad_ops [VNum 1] eq_refl) as (ops & Hparse & _).
  vm_compute in Hparse. discriminate Hparse.
Qed.

(** The list is merged into the body like any other key. *)
Example ApplyParamOverride_bad_ops :
  ApplyParamOverride body override_bad_ops
  = applyOperationsLegacy body override_bad_ops /\
  IsArray (gjson_Get (ApplyParamOverride body override_bad_ops).1 "operations")
  = true.
Proof. split; vm_compute; reflexivity. Qed.

Example ApplyParamOverride_program :
  let r := ApplyParamOverride body override_delete_model in
  (Exists (gjson_Get body "model"), Exists (gjson_Get r.1 "model"), r.2)
  = (true, false, None).
Proof. vm_compute. reflexivity. Qed.

End OverrideFacts.

(** ** The sensitive-information mask *)
Module MaskFacts.
Import GoStrings StringFacts common.

Local Open Scope nat_scope.
#[local] Arguments String.append : simpl nomatch.

(** *** Hosts *)

(** A list of two or more ends in its last two. *)
Lemma last_two {A} (l : list A) :
  2 <= List.length l -> exists k a b, l = k ++ [a; b].
Proof.
  induction l as [|x [|y l] IH]; cbn; try lia. intros _.
  destruct l as [|z l].
  - now exists [], x, y.
  - destruct IH as (k & a & b & Hk); [cbn; lia|].
    exists (x :: k), a, b. now rewrite Hk.
Qed.

(** What is kept of a host: its last label, or its last two when they look
    like a country-code ending. *)
Lemma maskHostTail_suffix (parts : list string) :
  2 <= List.length parts ->
  exists tail,
    maskHostTail parts = tail /\ tail `suffix_of` parts /\
    1 <= List.length tail <= 2.
Proof.
  intros Hlen. destruct (last_two parts Hlen) as (k & a & b & ->).
  unfold maskHostTail.
  assert (List.length (k ++ [a; b]) = List.length k + 2) as Hl
    by (rewrite length_app; reflexivity).
  rewrite Hl.
  destruct (Nat.ltb_spec (List.length k + 2) 2); [lia|].
  replace (List.length k + 2 - 1) with (List.length k + 1) by lia.
  replace (List.length k + 2 - 2) with (List.length k + 0) by lia.
  rewrite !(app_nth2_plus k [a; b]). cbn [nth].
  destruct (_ && _); eexists; (split; [reflexivity|]); cbn [List.length];
    (split; [|lia]).
  - now exists k.
  - exists (k ++ [a]). now rewrite <- app_assoc.
Qed.

Lemma maskHostForURL_shape (host : string) :
  maskHostForURL host = "***" \/
  exists tail,
    maskHostForURL host = "***." +:+ Join tail "." /\
    tail `suffix_of` Split host "." /\ 1 <= List.length tail <= 2.
Proof.
  unfold maskHostForURL.
  destruct (Nat.ltb_spec (List.length (Split host ".")) 2) as [|Hlen];
    [now left | right].
  destruct (maskHostTail_suffix _ Hlen) as (tail & -> & Hsuf & Hl). eauto.
Qed.

Lemma Repeat_stars n :
  Repeat "***." (S n) = Join (replicate (S n) "***") "." +:+ ".".
Proof.
  induction n as [|n IH]; [reflexivity|].
  change (Repeat "***." (S (S n))) with ("***." +:+ Repeat "***." (S n)).
  rewrite IH. reflexivity.
Qed.

Lemma TrimSuffix_dot s : TrimSuffix (s +:+ ".") "." = s.
Proof. unfold TrimSuffix. now rewrite HasSuffix_dot, take_drop_dot. Qed.

Lemma maskHostForPlainDomain_shape (domain : string) :
  maskHostForPlainDomain domain = domain \/
  exists n tail,
    maskHostForPlainDomain domain
    = Join (replicate (S n) "***") "." +:+ "." +:+ Join tail "." /\
    tail `suffix_of` Split domain "." /\ 1 <= List.length tail <= 2.
Proof.
  unfold maskHostForPlainDomain.
  destruct (Nat.ltb_spec (List.length (Split domain ".")) 2) as [|Hlen];
    [now left | right].
  destruct (maskHostTail_suffix _ Hlen) as (tail & -> & Hsuf & Hl).
  set (k := List.length (Split domain ".") - List.length tail).
  exists (if k <? 1 then 0 else k - 1), tail.
  split; [|auto].
  assert ((if k <? 1 then 1 else k) = S (if k <? 1 then 0 else k - 1)) as ->
    by (destruct (Nat.ltb_spec k 1); lia).
  now rewrite Repeat_stars, TrimSuffix_dot.
Qed.

(** *** URLs *)
Section WithURL.
Context `{P : url.Package}.

Lemma maskPath_shape (path : string) :
  maskPath path = "" \/
  exists parts,
    maskPath path = "/" +:+ Join parts "/" /\
    Forall (fun part => part = "***" \/ part = "") parts.
Proof.
  unfold maskPath. destruct (_ && _).
  - destruct (0 <? _); [right | now left].
    eexists. split; [reflexivity|].
    apply Forall_forall. intros part Hin.
    apply list_elem_of_fmap in Hin as (p & -> & _). destruct (negb _); auto.
  - destruct (String.eqb path "/"); [right | now left].
    exists []. split; [reflexivity | constructor].
Qed.

Lemma maskQuery_shape (rawQuery : string) :
  maskQuery rawQuery = "" \/ maskQuery rawQuery = "?***" \/
  exists keys,
    maskQuery rawQuery = "?" +:+ Join (map (fun key => key +:+ "=***") keys) "&".
Proof.
  unfold maskQuery. destruct (negb _); [|now left].
  destruct (url.ParseQuery rawQuery) as [keys|]; [|now (right; left)].
  destruct (0 <? _); [|now left]. right; right. eauto.
Qed.

Lemma maskURL_shape (urlStr : string) (u : url.URL) :
  url.Parse urlStr = Some u -> url.Host u <> "" ->
  maskURL urlStr
  = url.Scheme u +:+ "://" +:+ maskHostForURL (url.Host u)
    +:+ maskPath (url.Path u) +:+ maskQuery (url.RawQuery u).
Proof.
  intros Hparse Hhost. unfold maskURL. rewrite Hparse.
  destruct (String.eqb_spec (url.Host u) ""); [contradiction|].
  now rewrite !append_assoc.
Qed.

End WithURL.

End MaskFacts.

(** ** The matcher on [ipPattern] *)
Module IPv4Facts.
Import GoStrings StringFacts regexp RegexpFacts common IPv4.

Local Open Scope nat_scope.
#[local] Arguments String.append : simpl nomatch.

Lemma digit_word c : is_digit c = true -> word c = true.
Proof.
  intros Hc. unfold word, alnum, digit. rewrite Hc.
  now rewrite orb_true_r.
Qed.

Lemma digit_not_dot c : is_digit c = true -> Ascii.eqb "." c = false.
Proof.
  intros Hc. destruct (Ascii.eqb_spec "." c) as [<-|]; [discriminate Hc|].
  reflexivity.
Qed.

(** An octet takes the whole run of digits, if that has one to three. *)
Lemma run_octet (k : Cont) prev s pos caps :
  digit_averse k ->
  run octet prev s pos caps k
  = match s with
    | String c1 s1 =>
      if is_digit c1 then
        match s1 with
        | String c2 s2 =>
          if is_digit c2 then
            match s2 with
            | String c3 s3 =>
              if is_digit c3 then k (Some c3) s3 (S (S (S pos))) caps
              else k (Some c2) s2 (S (S pos)) caps
            | EmptyString => k (Some c2) s2 (S (S pos)) caps
            end
          else k (Some c1) s1 (S pos) caps
        | EmptyString => k (Some c1) s1 (S pos) caps
        end
      else None
    | EmptyString => None
    end.
Proof.
  intros Hk. unfold octet, UpTo, Quest, digit. cbn [run].
  destruct s as [|c1 s1]; [reflexivity|].
  destruct (is_digit c1) eqn:H1; [|reflexivity].
  destruct s1 as [|c2 s2]; [now destruct (k _ _ _ _)|].
  destruct (is_digit c2) eqn:H2.
  2:{ now destruct (k _ _ _ _). }
  destruct s2 as [|c3 s3].
  { destruct (k (Some c2) "" _ _); [reflexivity|].
    now rewrite (Hk c1 c2 "" _ _ H1 H2). }
  destruct (is_digit c3) eqn:H3.
  - destruct (k (Some c3) s3 _ _); [reflexivity|].
    now rewrite (Hk c2 c3 s3 _ _ H2 H3), (Hk c1 c2 (String c3 s3) _ _ H1 H2).
  - destruct (k (Some c2) (String c3 s3) _ _); [reflexivity|].
    now rewrite (Hk c1 c2 (String c3 s3) _ _ H1 H2).
Qed.

(** The steps of [ip_scan]. *)
Lemma ip_scan_digit octets digits c s pos :
  is_digit c = true ->
  ip_scan octets digits (String c s) pos
  = if digits <? 3 then ip_scan octets (S digits) s (S pos) else None.
Proof. intros Hc. cbn [ip_scan]. now rewrite Hc. Qed.

Lemma ip_scan_start octets c s pos :
  is_digit c = false -> ip_scan octets 0 (String c s) pos = None.
Proof.
  intros Hc. cbn [ip_scan]. rewrite Hc. cbn [Nat.leb].
  now rewrite !andb_false_r.
Qed.

Lemma ip_scan_dot octets digits c s pos :
  octets < 3 -> 1 <= digits -> is_digit c = false ->
  ip_scan octets digits (String c s) pos
  = if Ascii.eqb "." c then ip_scan (S octets) 0 s (S pos) else None.
Proof.
  intros Hoct Hd Hc. cbn [ip_scan]. rewrite Hc.
  assert ((octets <? 3) = true) as -> by now apply Nat.ltb_lt.
  assert ((octets =? 3) = false) as -> by (apply Nat.eqb_neq; lia).
  assert ((1 <=? digits) = true) as -> by now apply Nat.leb_le.
  rewrite (Ascii.eqb_sym c "."). cbn [andb].
  now destruct (Ascii.eqb "." c).
Qed.

Lemma ip_scan_end octets digits pos :
  octets < 3 -> ip_scan octets digits "" pos = None.
Proof.
  intros Hoct. cbn [ip_scan].
  now assert ((octets =? 3) = false) as -> by (apply Nat.eqb_neq; lia).
Qed.

Lemma ip_scan_last digits c s pos :
  1 <= digits -> is_digit c = false ->
  ip_scan 3 digits (String c s) pos
  = if word c then None else Some pos.
Proof.
  intros Hd Hc. cbn [ip_scan]. rewrite Hc.
  assert ((1 <=? digits) = true) as -> by now apply Nat.leb_le.
  cbn [Nat.ltb Nat.leb Nat.eqb andb]. rewrite andb_false_r.
  now destruct (word c).
Qed.

Lemma ip_scan_last_end digits pos :
  1 <= digits -> ip_scan 3 digits "" pos = Some pos.
Proof.
  intros Hd. cbn [ip_scan].
  now assert ((1 <=? digits) = true) as -> by now apply Nat.leb_le.
Qed.

(** An octet and its dot, before a continuation that reads the rest of a
    quad. *)
Lemma run_octet_dot (k : Cont) octets prev s pos caps :
  octets < 3 ->
  (forall prev s pos,
     k prev s pos caps = (fun n => (n, caps)) <$> ip_scan (S octets) 0 s pos) ->
  run (Cat octet (Lit ".")) prev s pos caps k
  = (fun n => (n, caps)) <$> ip_scan octets 0 s pos.
Proof.
  intros Hoct Hk. cbn [run Lit].
  rewrite run_octet.
  2:{ intros d c s' pos' caps' _ Hc. cbn [run].
      now rewrite (digit_not_dot c Hc). }
  cbn [run].
  destruct s as [|c1 s1]; [now rewrite ip_scan_end|].
  destruct (is_digit c1) eqn:H1; [|now rewrite ip_scan_start].
  rewrite (ip_scan_digit _ _ _ _ _ H1). cbn [Nat.ltb Nat.leb].
  destruct s1 as [|c2 s2]; [now rewrite ip_scan_end|].
  destruct (is_digit c2) eqn:H2.
  2:{ rewrite ip_scan_dot by (auto; lia).
      destruct (Ascii.eqb "." c2); [apply Hk | reflexivity]. }
  rewrite (ip_scan_digit _ _ _ _ _ H2). cbn [Nat.ltb Nat.leb].
  destruct s2 as [|c3 s3]; [now rewrite ip_scan_end|].
  destruct (is_digit c3) eqn:H3.
  2:{ rewrite ip_scan_dot by (auto; lia).
      destruct (Ascii.eqb "." c3); [apply Hk | reflexivity]. }
  rewrite (ip_scan_digit _ _ _ _ _ H3). cbn [Nat.ltb Nat.leb].
  destruct s3 as [|c4 s4]; [now rewrite ip_scan_end|].
  destruct (is_digit c4) eqn:H4.
  - rewrite (ip_scan_digit _ _ _ _ _ H4). cbn [Nat.ltb Nat.leb].
    now rewrite (digit_not_dot c4 H4).
  - rewrite ip_scan_dot by (auto; lia).
    destruct (Ascii.eqb "." c4); [apply Hk | reflexivity].
Qed.

(** The last octet and the word boundary after it. *)
Lemma run_octet_last prev s pos caps :
  run (Cat octet WordBoundary) prev s pos caps
    (fun _ _ pos caps => Some (pos, caps))
  = (fun n => (n, caps)) <$> ip_scan 3 0 s pos.
Proof.
  cbn [run]. rewrite run_octet.
  2:{ intros d c s' pos' caps' Hd Hc. cbn [run is_word first].
      now rewrite (digit_word c Hc), (digit_word d Hd). }
  cbn [run is_word first].
  destruct s as [|c1 s1]; [reflexivity|].
  destruct (is_digit c1) eqn:H1; [|now rewrite ip_scan_start].
  rewrite (ip_scan_digit _ _ _ _ _ H1), (digit_word c1 H1).
  cbn [Nat.ltb Nat.leb].
  destruct s1 as [|c2 s2]; [rewrite ip_scan_last_end by lia; reflexivity|].
  destruct (is_digit c2) eqn:H2.
  2:{ rewrite ip_scan_last by (auto; lia). cbn [first is_word].
      now destruct (word c2). }
  rewrite (ip_scan_digit _ _ _ _ _ H2), (digit_word c2 H2).
  cbn [Nat.ltb Nat.leb].
  destruct s2 as [|c3 s3]; [rewrite ip_scan_last_end by lia; reflexivity|].
  destruct (is_digit c3) eqn:H3.
  2:{ rewrite ip_scan_last by (auto; lia). cbn [first is_word].
      now destruct (word c3). }
  rewrite (ip_scan_digit _ _ _ _ _ H3), (digit_word c3 H3).
  cbn [Nat.ltb Nat.leb].
  destruct s3 as [|c4 s4]; [rewrite ip_scan_last_end by lia; reflexivity|].
  destruct (is_digit c4) eqn:H4.
  - rewrite (ip_scan_digit _ _ _ _ _ H4). cbn [Nat.ltb Nat.leb first is_word].
    now rewrite (digit_word c4 H4).
  - rewrite ip_scan_last by (auto; lia). cbn [first is_word].
    now destruct (word c4).
Qed.

(** Three octets with their dots, before a continuation that reads the
    last one. *)
Lemma run_three_octets (k : Cont) prev s pos caps :
  (forall prev s pos,
     k prev s pos caps = (fun n => (n, caps)) <$> ip_scan 3 0 s pos) ->
  run (Exactly 3 (Cat octet (Lit "."))) prev s pos caps k
  = (fun n => (n, caps)) <$> ip_scan 0 0 s pos.
Proof.
  intros Hk.
  set (O := Cat octet (Lit ".")).
  pose (k2 := fun p2 s2 q2 c2 => run O p2 s2 q2 c2 k).
  pose (k1 := fun p1 s1 q1 c1 => run O p1 s1 q1 c1 k2).
  change (run O prev s pos caps k1
          = (fun n => (n, caps)) <$> ip_scan 0 0 s pos).
  apply (run_octet_dot k1 0 prev s pos caps); [lia|]. intros prev1 s1 pos1.
  apply (run_octet_dot k2 1 prev1 s1 pos1 caps); [lia|]. intros prev2 s2 pos2.
  apply (run_octet_dot k 2 prev2 s2 pos2 caps); [lia|]. exact Hk.
Qed.

(** [ipPattern] matches the quads [ip_here] reads, and nothing else. *)
Lemma match_here_ip prev s :
  match_here ipPattern prev s = (fun n => (n, [])) <$> ip_here prev s.
Proof.
  unfold match_here, ipPattern, ip_here.
  assert (forall prev,
            run (Cat (Exactly 3 (Cat octet (Lit ".")))
                   (Cat octet WordBoundary)) prev s 0 []
              (fun _ _ pos caps => Some (pos, caps))
            = (fun n => (n, [])) <$> ip_scan 0 0 s 0) as Hrest.
  { intros prev'.
    apply (run_three_octets
             (fun p s q c =>
                run (Cat octet WordBoundary) p s q c
                  (fun _ _ pos caps => Some (pos, caps)))).
    intros. apply run_octet_last. }
  change (run (Cat WordBoundary ?r) prev s 0 [] ?k)
    with (if xorb (is_word prev) (is_word (first s))
          then run r prev s 0 [] k else None).
  rewrite Hrest.
  assert (is_word (first s) = false -> ip_scan 0 0 s 0 = None) as Hnone.
  { destruct s as [|c s]; [reflexivity|]. cbn [first is_word]. intros Hc.
    apply ip_scan_start. destruct (is_digit c) eqn:Hd; [|reflexivity].
    now rewrite (digit_word c Hd) in Hc. }
  destruct (is_word prev), (is_word (first s)); cbn [xorb];
    try reflexivity; now rewrite Hnone.
Qed.

(** *** What a quad looks like *)

Lemma not_word_not_digit c : word c = false -> is_digit c = false.
Proof.
  intros Hw. destruct (is_digit c) eqn:Hd; [|reflexivity].
  now rewrite (digit_word c Hd) in Hw.
Qed.

(** Once a quad is complete, anything that starts with no word character
    ends it. *)
Lemma ip_scan_accept digits s pos :
  1 <= digits -> is_word (first s) = false ->
  ip_scan 3 digits s pos = Some pos.
Proof.
  intros Hd Hs. destruct s as [|c s]; [now apply ip_scan_last_end|].
  cbn [first is_word] in Hs.
  rewrite ip_scan_last by auto using not_word_not_digit. now rewrite Hs.
Qed.

(** A quad read by [ip_scan]: it is made of digits and dots, ends in a
    digit, is followed by no word character, and is read again wherever the
    same characters stand before a character that is no word character. *)
Lemma ip_scan_inv s :
  forall octets digits pos m,
    ip_scan octets digits s pos = Some m ->
    exists j,
      m = pos + j /\ j <= String.length s /\
      all_chars quadchar (take j s) = true /\
      is_word (first (drop j s)) = false /\
      (j = 0 -> octets = 3) /\
      (forall q, (1 <= digits -> is_digit' q = true) ->
                 is_digit' (last_char q (take j s)) = true) /\
      (forall s',
         take j s' = take j s -> j <= String.length s' ->
         is_word (first (drop j s')) = false ->
         ip_scan octets digits s' pos = Some m).
Proof.
  induction s as [|c s IH]; intros octets digits pos m Hscan.
  - cbn [ip_scan] in Hscan.
    destruct (Nat.eqb_spec octets 3) as [->|]; [|discriminate].
    destruct (Nat.leb_spec 1 digits) as [Hd|]; [|discriminate].
    injection Hscan as <-. exists 0. cbn [take drop first is_word last_char].
    split; [lia|]. split; [lia|]. split; [reflexivity|].
    split; [reflexivity|]. split; [reflexivity|]. split; [auto|].
    intros s' _ _ Hs'. now apply ip_scan_accept.
  - cbn [ip_scan] in Hscan. destruct (is_digit c) eqn:Hc.
    + destruct (digits <? 3) eqn:Hd3; [|discriminate].
      destruct (IH _ _ _ _ Hscan) as (j & -> & Hj & Hall & Hnext & _ & Hlast & Hloc).
      exists (S j). cbn [String.length take drop all_chars last_char].
      unfold quadchar at 1. rewrite Hc. cbn [orb andb].
      split; [lia|]. split; [lia|]. split; [exact Hall|].
      split; [exact Hnext|]. split; [lia|]. split.
      * intros q _. apply Hlast. intros _. exact Hc.
      * intros [|c' s'] Heq Hlen Hnw; [cbn in Hlen; lia|].
        cbn [take] in Heq. injection Heq as -> Heq.
        cbn [ip_scan]. rewrite Hc, Hd3. cbn [String.length drop] in *.
        apply Hloc; auto with lia.
    + destruct (Ascii.eqb c "." && (1 <=? digits) && (octets <? 3)) eqn:Hdot.
      * apply andb_prop in Hdot as [Hdot Ho]. apply andb_prop in Hdot as [Hdot Hd].
        destruct (IH _ _ _ _ Hscan) as (j & -> & Hj & Hall & Hnext & _ & Hlast & Hloc).
        exists (S j). cbn [String.length take drop all_chars last_char].
        unfold quadchar at 1. rewrite Hc, Hdot. cbn [orb andb].
        split; [lia|]. split; [lia|]. split; [exact Hall|].
        split; [exact Hnext|]. split; [lia|]. split.
        -- intros q _. apply Hlast. lia.
        -- intros [|c' s'] Heq Hlen Hnw; [cbn in Hlen; lia|].
           cbn [take] in Heq. injection Heq as -> Heq.
           cbn [ip_scan]. rewrite Hc, Hdot, Hd, Ho. cbn [andb].
           cbn [String.length drop] in *. apply Hloc; auto with lia.
      * destruct (Nat.eqb_spec octets 3) as [->|]; [|discriminate].
        destruct (Nat.leb_spec 1 digits) as [Hd|]; [|discriminate].
        destruct (word c) eqn:Hw; [discriminate|]. cbn in Hscan.
        injection Hscan as <-. exists 0.
        cbn [take drop first is_word last_char all_chars].
        split; [lia|]. split; [lia|]. split; [reflexivity|].
        split; [exact Hw|]. split; [reflexivity|]. split; [auto|].
        intros s' _ _ Hs'. now apply ip_scan_accept.
Qed.

(** A quad starts with a digit, after a character that is no word
    character. *)
Lemma ip_here_start prev s m :
  ip_here prev s = Some m ->
  is_word prev = false /\ is_digit' (first s) = true /\ 1 <= m.
Proof.
  unfold ip_here. destruct (is_word prev); [discriminate|]. intros Hscan.
  split; [reflexivity|]. split.
  - destruct s as [|c s]; [discriminate|]. cbn [first is_digit'].
    destruct (is_digit c) eqn:Hc; [reflexivity|].
    now rewrite ip_scan_start in Hscan.
  - destruct (ip_scan_inv _ _ _ _ _ Hscan) as (j & -> & _ & _ & _ & Hj & _).
    destruct j; [specialize (Hj eq_refl); discriminate | lia].
Qed.

Lemma is_digit'_word q : is_digit' q = true -> is_word q = true.
Proof. destruct q as [c|]; [apply digit_word | discriminate]. Qed.

Lemma not_word_not_digit' q : is_word q = false -> is_digit' q = false.
Proof.
  intros Hw. destruct (is_digit' q) eqn:Hd; [|reflexivity].
  now rewrite (is_digit'_word q Hd) in Hw.
Qed.

(** What [ip_here] says of a quad, in one place. *)
Lemma ip_here_inv prev s m :
  ip_here prev s = Some m ->
  m <= String.length s /\
  all_chars quadchar (take m s) = true /\
  is_word (first (drop m s)) = false /\
  (forall q, is_digit' (last_char q (take m s)) = true) /\
  (forall prev' s',
     is_word prev' = false -> take m s' = take m s ->
     m <= String.length s' -> is_word (first (drop m s')) = false ->
     ip_here prev' s' = Some m).
Proof.
  intros Hm. pose proof (ip_here_start _ _ _ Hm) as (Hp & _ & _).
  unfold ip_here in Hm. rewrite Hp in Hm.
  destruct (ip_scan_inv _ _ _ _ _ Hm)
    as (j & -> & Hj & Hall & Hnext & _ & Hlast & Hloc).
  cbn [Nat.add]. split; [exact Hj|]. split; [exact Hall|].
  split; [exact Hnext|]. split.
  - intros q. apply Hlast. lia.
  - intros prev' s' Hp' Heq Hlen Hnw. unfold ip_here. rewrite Hp'.
    now apply Hloc.
Qed.

(** *** The replacement leaves no quad *)

(** The scan of [ReplaceAllString ipPattern _ ipMask]. *)
Abbreviation mask_go := (ReplaceAll_go ipPattern (fun _ => ipMask)).

Lemma mask_go_step q c s :
  mask_go (String c s) q 0
  = match ip_here q (String c s) with
    | Some (S n) => ipMask +:+ mask_go s (Some c) n
    | _ => String c (mask_go s (Some c) 0)
    end.
Proof.
  cbn [ReplaceAll_go]. rewrite match_here_ip.
  now destruct (ip_here q (String c s)) as [[|n]|].
Qed.

Lemma FindAll_ip_step p c t :
  ip_here p (String c t) = None ->
  FindAll_go ipPattern (String c t) p 0 = FindAll_go ipPattern t (Some c) 0.
Proof. intros Hn. cbn [FindAll_go]. now rewrite match_here_ip, Hn. Qed.

Lemma ip_here_not_digit p c t :
  is_digit c = false -> ip_here p (String c t) = None.
Proof.
  intros Hc. destruct (ip_here p (String c t)) as [m|] eqn:Hm; [|reflexivity].
  apply ip_here_start in Hm as (_ & Hd & _). cbn in Hd. congruence.
Qed.

(** No quad starts inside the mask. *)
Lemma FindAll_ip_mask t p :
  FindAll_go ipPattern t (Some "*"%char) 0 = [] ->
  FindAll_go ipPattern (ipMask +:+ t) p 0 = [].
Proof.
  intros Ht. unfold ipMask. cbn [String.append].
  repeat (rewrite FindAll_ip_step by (apply ip_here_not_digit; reflexivity)).
  exact Ht.
Qed.

(** Up to the first match, the scan copies its input: a stretch of digits
    and dots at the front of the output stands at the front of the input
    too, and what follows it is either the same character or the mask put
    for a quad that starts there. *)
Lemma mask_go_agrees s :
  forall q j,
    j <= String.length (mask_go s q 0) ->
    all_chars quadchar (take j (mask_go s q 0)) = true ->
    take j (mask_go s q 0) = take j s /\ j <= String.length s /\
    (first (drop j (mask_go s q 0)) = first (drop j s) \/
     exists n, ip_here (last_char q (take j s)) (drop j s) = Some (S n)).
Proof.
  induction s as [|c s IH]; intros q j Hlen Hall.
  - cbn in *. assert (j = 0) as -> by lia. cbn. auto.
  - rewrite mask_go_step in *.
    destruct (ip_here q (String c s)) as [[|n]|] eqn:Hm.
    + destruct j as [|j]; [cbn; auto with lia|].
      cbn [take all_chars String.length] in *.
      apply andb_prop in Hall as [Hc Hall].
      destruct (IH (Some c) j ltac:(lia) Hall) as (Heq & Hj & Hnext).
      rewrite Heq. cbn [drop last_char]. auto with lia.
    + destruct j as [|j].
      * cbn [take drop last_char]. split; [reflexivity|].
        split; [lia|]. right. eauto.
      * unfold ipMask in Hall. cbn in Hall. discriminate.
    + destruct j as [|j]; [cbn; auto with lia|].
      cbn [take all_chars String.length] in *.
      apply andb_prop in Hall as [Hc Hall].
      destruct (IH (Some c) j ltac:(lia) Hall) as (Heq & Hj & Hnext).
      rewrite Heq. cbn [drop last_char]. auto with lia.
Qed.

(** The scan that replaces quads by the mask leaves none: not where the
    input is copied up to the next match, and not across a mask. *)
Lemma mask_go_clean s :
  forall k p p',
    (k = 0 -> is_word p = is_word p' \/ is_digit' (first s) = false) ->
    (0 < k -> is_digit' (first (drop k s)) = false) ->
    FindAll_go ipPattern (mask_go s p k) p' 0 = [].
Proof.
  induction s as [|c s IH]; intros k p p' H0 Hk; [now destruct k|].
  destruct k as [|k].
  - specialize (H0 eq_refl). clear Hk. rewrite mask_go_step.
    destruct (ip_here p (String c s)) as [m|] eqn:Hm.
    + (* a quad starts here: the mask, then the scan behind the quad *)
      pose proof (ip_here_start _ _ _ Hm) as (_ & _ & Hm1).
      destruct m as [|n]; [lia|].
      destruct (ip_here_inv _ _ _ Hm) as (_ & _ & Hnext & _).
      cbn [drop] in Hnext. apply not_word_not_digit' in Hnext.
      apply FindAll_ip_mask, IH.
      * intros ->. right. exact Hnext.
      * intros _. exact Hnext.
    + (* no quad starts here: the character is copied *)
      assert (FindAll_go ipPattern (mask_go s (Some c) 0) (Some c) 0 = [])
        as Hrest by (apply IH; [now left | lia]).
      assert (ip_here p' (String c (mask_go s (Some c) 0)) = None) as Hout.
      2:{ destruct (ip_here p (String c s)) as [[|n]|]; try discriminate Hm;
          now rewrite FindAll_ip_step. }
      destruct (ip_here p' (String c (mask_go s (Some c) 0))) as [m|] eqn:Hout;
        [exfalso | reflexivity].
      pose proof (ip_here_start _ _ _ Hout) as (Hp' & Hc & Hm1).
      cbn [first] in Hc.
      destruct H0 as [Hpp | Hnd]; [|cbn [first] in Hnd; congruence].
      destruct m as [|m]; [lia|].
      destruct (ip_here_inv _ _ _ Hout) as (Hlen & Hall & Hnext & Hlast & _).
      cbn [take all_chars String.length drop] in *.
      apply andb_prop in Hall as [_ Hall].
      destruct (mask_go_agrees s (Some c) m ltac:(lia) Hall)
        as (Heq & Hj & [Hsame | [n Hquad]]).
      * (* the same quad stands in the input *)
        assert (ip_here p (String c s) = Some (S m)) as Hin.
        { destruct (ip_here_inv _ _ _ Hout) as (_ & _ & _ & _ & Hloc).
          apply Hloc.
          - congruence.
          - cbn [take]. now rewrite Heq.
          - cbn [String.length]. lia.
          - cbn [drop]. now rewrite <- Hsame. }
        congruence.
      * (* a quad of the input would start right after a digit *)
        apply ip_here_start in Hquad as (Hw & _).
        specialize (Hlast None). cbn [last_char] in Hlast.
        rewrite Heq in Hlast. apply is_digit'_word in Hlast. congruence.
  - (* inside a match: the character is dropped *)
    clear H0. cbn [ReplaceAll_go]. apply IH.
    + intros ->. right. apply (Hk ltac:(lia)).
    + intros Hk'. apply (Hk ltac:(lia)).
Qed.

(** [ReplaceAllString ipPattern _ ipMask] leaves no match of [ipPattern]. *)
Lemma ReplaceAllString_ip_clean s :
  FindAllStringSubmatch ipPattern (ReplaceAllString ipPattern s ipMask) = [].
Proof.
  unfold FindAllStringSubmatch, ReplaceAllString, ReplaceAllStringFunc.
  apply mask_go_clean; [now left | lia].
Qed.

End IPv4Facts.

(** ** What the mask redacts *)
Module MaskTheorems.
Import GoStrings StringFacts common MaskFacts IPv4Facts.

Local Open Scope nat_scope.

Section WithURL.
Context `{P : url.Package}.

(** C10, as the code has it. [MaskSensitiveInfo] replaces every match of
    the URL expression by its scheme, [://], the masked host, the masked path
    and the masked query; then every match of the domain expression by stars
    and the ending kept of it; then every dotted quad by the mask, so that no
    dotted quad is left in what it returns.  Of an e-mail address it masks
    what these expressions match, which the local part need not be. *)
Theorem MaskSensitiveInfo_redacts (str : string) :
  MaskSensitiveInfo str
  = regexp.ReplaceAllString ipPattern
      (regexp.ReplaceAllStringFunc domainPattern
         (regexp.ReplaceAllStringFunc urlPattern str maskURL)
         maskHostForPlainDomain)
      ipMask /\
  regexp.FindAllStringSubmatch ipPattern (MaskSensitiveInfo str) = [] /\
  (forall urlStr u,
     url.Parse urlStr = Some u -> url.Host u <> "" ->
     maskURL urlStr
     = url.Scheme u +:+ "://" +:+ maskHostForURL (url.Host u)
       +:+ maskPath (url.Path u) +:+ maskQuery (url.RawQuery u)) /\
  (forall host,
     maskHostForURL host = "***" \/
     exists tail,
       maskHostForURL host = "***." +:+ Join tail "." /\
       tail `suffix_of` Split host "." /\ 1 <= List.length tail <= 2) /\
  (forall path,
     maskPath path = "" \/
     exists parts,
       maskPath path = "/" +:+ Join parts "/" /\
       Forall (fun part => part = "***" \/ part = "") parts) /\
  (forall rawQuery,
     maskQuery rawQuery = "" \/ maskQuery rawQuery = "?***" \/
     exists keys,
       maskQuery rawQuery
       = "?" +:+ Join (map (fun key => key +:+ "=***") keys) "&") /\
  (forall domain,
     maskHostForPlainDomain domain = domain \/
     exists n tail,
       maskHostForPlainDomain domain
       = Join (replicate (S n) "***") "." +:+ "." +:+ Join tail "." /\
       tail `suffix_of` Split domain "." /\ 1 <= List.length tail <= 2).
Proof.
  split; [reflexivity|].
  split; [apply ReplaceAllString_ip_clean|].
  split; [apply maskURL_shape|].
  split; [apply maskHostForURL_shape|].
  split; [apply maskPath_shape|].
  split; [apply maskQuery_shape | apply maskHostForPlainDomain_shape].
Qed.

End WithURL.

(** *** The mask at work, on the reference implementation of [net/url] *)
Import PlainURL.

(** C10, as the specification states it, fails: the local part of an
    e-mail address comes out as it went in. *)
Lemma MaskSensitiveInfo_email_counterexample :
  MaskSensitiveInfo "bob@example.com" = "bob@***.com" /\
  HasPrefix (MaskSensitiveInfo "bob@example.com") "bob@" = true.
Proof. split; vm_compute; reflexivity. Qed.

(** [MaskEmail] is the function that hides a local part, for a string that
    is an address and nothing else. *)
Example MaskEmail_examples :
  (MaskEmail "bob@example.com", MaskEmail "bob", MaskEmail "")
  = ("***@example.com", "***masked***", "***masked***").
Proof. vm_compute. reflexivity. Qed.

(** A local part that looks like a domain is masked as one. *)
Example MaskSensitiveInfo_dotted_local_part :
  MaskSensitiveInfo "john.doe@example.com" = "***.doe@***.com".
Proof. vm_compute. reflexivity. Qed.

(** The examples of the comment above [MaskSensitiveInfo]. *)
Example MaskSensitiveInfo_examples :
  map MaskSensitiveInfo
    ["http://example.com"; "192.168.1.1"; "openai.com"; "www.openai.com";
     "api.openai.com"]
  = ["http://***.com"; "***.***.***.***"; "***.com"; "***.***.com";
     "***.***.com"].
Proof. vm_compute. reflexivity. Qed.

(** Two of them come out with more stars than the comment shows: every
    part of the path is masked, and the ending [co.uk] the URL pass keeps is
    a domain to the pass after it. *)
Example MaskSensitiveInfo_examples_more_stars :
  map MaskSensitiveInfo
    ["https://api.test.org/v1/users/123?key=secret";
     "https://sub.domain.co.uk/path/to/resource"]
  = ["https://***.org/***/***/***?key=***";
     "https://***.***.co.uk/***/***/***"].
Proof. vm_compute. reflexivity. Qed.

Example MaskSensitiveInfo_error_message :
  MaskSensitiveInfo
    "dial tcp 10.0.0.5:443: Post https://user:pw@api.x.io:8443/a//b/?k=v&z=1"
  = "dial tcp ***.***.***.***:443: Post https://***.io:8443/***//***?k=***&z=***".
Proof. vm_compute. reflexivity. Qed.

End MaskTheorems.

(** ** More on the retry decisions *)
Module RetryFacts.
Import types controller task RelayExamples TaskExamples.

Lemma div_100_quot s : GoInt.in_range s -> GoInt.div s 100 = Z.quot s 100.
Proof.
  intros Hs. unfold GoInt.div. apply GoIntFacts.wrap_id.
  unfold GoInt.in_range, GoInt.min_int, GoInt.max_int in *.
  Z.to_euclidean_division_equations. lia.
Qed.

Lemma quot_100_eq s q : 0 < q -> Z.quot s 100 = q <-> 100 * q <= s < 100 * q + 100.
Proof. intros Hq. Z.to_euclidean_division_equations. lia. Qed.

(** X1. With budget left and no pinned channel, an error that carries neither
    flag is retried exactly when its status is none of 400, 408, 504, 524
    and 2xx. *)
Theorem shouldRetry_status_iff (c : Context) (E : NewAPIError) (R : Z) :
  channelError E = false -> skipRetry E = false ->
  0 < R -> c !! "specific_channel_id" = None ->
  GoInt.in_range (StatusCode E) ->
  shouldRetry c (Some E) R = true <-> ~ no_retry_status (StatusCode E).
Proof.
  intros Hch Hsk HR Hpin Hs. unfold shouldRetry, no_retry_status.
  cbn [IsChannelError IsSkipRetryError]. rewrite Hch, Hsk.
  destruct (Z.leb_spec R 0) as [?|_]; [lia|].
  rewrite bool_decide_eq_false_2 by (rewrite Hpin; intros [? [=]]).
  rewrite !(div_100_quot _ Hs).
  unfold StatusTooManyRequests, StatusBadRequest.
  pose proof (quot_100_eq (StatusCode E) 5 ltac:(lia)) as H5.
  pose proof (quot_100_eq (StatusCode E) 2 ltac:(lia)) as H2.
  repeat match goal with
         | |- context [?a =? ?b] => destruct (Z.eqb_spec a b)
         end; cbn; split; intros; try discriminate; try lia; auto.
Qed.

Lemma shouldRetry_status_iff_witness :
  channelError err_overloaded = false /\ skipRetry err_overloaded = false /\
  0 < 1 /\ (∅ : Context) !! "specific_channel_id" = None /\
  GoInt.in_range (StatusCode err_overloaded) /\
  (shouldRetry ∅ (Some err_overloaded) 1 = true <->
   ~ no_retry_status (StatusCode err_overloaded)).
Proof.
  assert (GoInt.in_range (StatusCode err_overloaded)) as Hs.
  { unfold GoInt.in_range, GoInt.min_int, GoInt.max_int. cbn. lia. }
  repeat (split; [first [reflexivity | lia | exact Hs]|]).
  apply shouldRetry_status_iff; first [reflexivity | lia | exact Hs].
Defined.

(** X2. Without budget, or with a channel pinned by the request, only a
    channel error is retried. *)
Theorem shouldRetry_exhausted_or_pinned (c : Context) (E : NewAPIError)
    (R : Z) :
  channelError E = false ->
  R <= 0 \/ is_Some (c !! "specific_channel_id") ->
  shouldRetry c (Some E) R = false.
Proof.
  intros Hch Hor. unfold shouldRetry. cbn [IsChannelError IsSkipRetryError].
  rewrite Hch. destruct (skipRetry E); [reflexivity|].
  destruct (Z.leb_spec R 0) as [?|?]; [reflexivity|].
  destruct Hor as [?|Hpin]; [lia|].
  now rewrite bool_decide_eq_true_2.
Qed.

Lemma shouldRetry_exhausted_or_pinned_witness :
  channelError err_overloaded = false /\
  (3 <= 0 \/ is_Some (pinned_ctx !! "specific_channel_id")) /\
  shouldRetry pinned_ctx (Some err_overloaded) 3 = false.
Proof.
  assert (3 <= 0 \/ is_Some (pinned_ctx !! "specific_channel_id")) as H.
  { right. eexists. reflexivity. }
  split; [reflexivity|]. split; [exact H|].
  apply shouldRetry_exhausted_or_pinned; [reflexivity | exact H].
Defined.

(** *** [shouldRetryTaskRelay] *)

(** X3. On a task error that is not local, [shouldRetryTaskRelay] decides as
    [shouldRetry] does on an error of the same status that carries neither
    flag. *)
Theorem shouldRetryTaskRelay_agrees (c : Context) (channelId : Z)
    (E : NewAPIError) (T : dto.TaskError) (R : Z) :
  channelError E = false -> skipRetry E = false ->
  dto.LocalError T = false -> dto.StatusCode T = StatusCode E ->
  shouldRetryTaskRelay c channelId (Some T) R = shouldRetry c (Some E) R.
Proof.
  intros Hch Hsk Hloc Hst. unfold shouldRetryTaskRelay, shouldRetry.
  cbn [IsChannelError IsSkipRetryError]. now rewrite Hch, Hsk, Hloc, Hst.
Qed.

Lemma shouldRetryTaskRelay_agrees_witness :
  channelError err_overloaded = false /\ skipRetry err_overloaded = false /\
  dto.LocalError task_overloaded = false /\
  dto.StatusCode task_overloaded = StatusCode err_overloaded /\
  shouldRetryTaskRelay ∅ 7 (Some task_overloaded) 2
  = shouldRetry ∅ (Some err_overloaded) 2.
Proof.
  repeat (split; [reflexivity|]).
  apply shouldRetryTaskRelay_agrees; reflexivity.
Defined.

(** X4. A local task error is retried, budget and pinning permitting, exactly
    when its status is 429, 307 or a 5xx other than 504 and 524: the test
    of the local flag comes after those of the statuses that are retried. *)
Theorem shouldRetryTaskRelay_local (c : Context) (channelId : Z)
    (T : dto.TaskError) (R : Z) :
  dto.LocalError T = true ->
  0 < R -> c !! "specific_channel_id" = None ->
  GoInt.in_range (dto.StatusCode T) ->
  shouldRetryTaskRelay c channelId (Some T) R = true <->
  dto.StatusCode T = 429 \/ dto.StatusCode T = 307 \/
  (500 <= dto.StatusCode T <= 599 /\
   dto.StatusCode T <> 504 /\ dto.StatusCode T <> 524).
Proof.
  intros Hloc HR Hpin Hs. unfold shouldRetryTaskRelay. rewrite Hloc.
  destruct (Z.leb_spec R 0) as [?|_]; [lia|].
  rewrite bool_decide_eq_false_2 by (rewrite Hpin; intros [? [=]]).
  rewrite !(div_100_quot _ Hs).
  unfold StatusTooManyRequests, StatusBadRequest.
  pose proof (quot_100_eq (dto.StatusCode T) 5 ltac:(lia)) as H5.
  repeat match goal with
         | |- context [?a =? ?b] => destruct (Z.eqb_spec a b)
         end; cbn; split; intros; try discriminate; try lia; auto.
Qed.

Lemma shouldRetryTaskRelay_local_witness :
  dto.LocalError task_no_channel = true /\
  0 < 2 /\ (∅ : Context) !! "specific_channel_id" = None /\
  GoInt.in_range (dto.StatusCode task_no_channel) /\
  (shouldRetryTaskRelay ∅ 7 (Some task_no_channel) 2 = true <->
   dto.StatusCode task_no_channel = 429 \/
   dto.StatusCode task_no_channel = 307 \/
   (500 <= dto.StatusCode task_no_channel <= 599 /\
    dto.StatusCode task_no_channel <> 504 /\
    dto.StatusCode task_no_channel <> 524)).
Proof.
  assert (GoInt.in_range (dto.StatusCode task_no_channel)) as Hs.
  { unfold GoInt.in_range, GoInt.min_int, GoInt.max_int. cbn. lia. }
  repeat (split; [first [reflexivity | lia | exact Hs]|]).
  apply shouldRetryTaskRelay_local; first [reflexivity | lia | exact Hs].
Defined.

End RetryFacts.

(** ** The task relay *)
Module TaskFacts.
Import types controller task RelayExamples TaskExamples.

Lemma dispatches_app tr1 tr2 :
  dispatches (tr1 ++ tr2) = dispatches tr1 ++ dispatches tr2.
Proof.
  induction tr1 as [|ev tr1 IH]; [reflexivity|].
  destruct ev; cbn [dispatches app]; rewrite ?IH; reflexivity.
Qed.

(** The loop calls the handler with consecutive numbers, at most once per
    index below the budget, writes no response and only adds to the trace. *)
Lemma taskLoop_dispatches w RT fuel :
  RT <= GoInt.max_int ->
  forall i v v',
    0 <= i ->
    taskLoop w RT fuel i v = Some v' ->
    exists (n : Z) tr,
      0 <= n /\
      ttrace v' = ttrace v ++ tr /\
      dispatches tr = seqZ (i + 1) n /\
      (n = 0 \/ i + n <= RT) /\
      existsb is_response tr = false.
Proof.
  intros HR. induction fuel as [|fuel IH]; intros i v v' Hi Hrun;
    [discriminate|].
  cbn [taskLoop] in Hrun.
  destruct (shouldRetryTaskRelay _ _ _ _ && (i <? RT)) eqn:Hcond;
    cbn [negb] in Hrun.
  2:{ injection Hrun as <-. exists 0, []. rewrite app_nil_r.
      repeat split; auto with lia. }
  apply andb_true_iff in Hcond as [_ Hlt]. apply Z.ltb_lt in Hlt.
  destruct (getChannel (base w) (tctx v) i) as [c1 [channel|err]].
  2:{ injection Hrun as <-. exists 0, [TEvLogError]. cbn.
      repeat split; auto with lia. }
  destruct (runTask w _ _ _ _) as [[e m] c3].
  assert (GoInt.add i 1 = i + 1) as Hadd.
  { apply GoIntFacts.wrap_id.
    unfold GoInt.in_range, GoInt.min_int, GoInt.max_int in *. lia. }
  rewrite Hadd in Hrun.
  destruct (IH (i + 1) _ v' ltac:(lia) Hrun)
    as (n & tr & Hn & Htr & Hd & Hb & Hresp).
  cbn [ttrace] in Htr.
  exists (1 + n), ([TEvLogInfo (Id channel) i;
                    TEvDispatch (i + 1) (taskRelayHandler w (relayMode v))]
                   ++ tr).
  split; [lia|]. split; [now rewrite Htr, <- app_assoc|].
  split.
  { rewrite dispatches_app, Hd. cbn [dispatches app].
    rewrite (seqZ_cons (i + 1) (1 + n)) by lia. do 2 f_equal; lia. }
  split; [right; destruct Hb as [-> | Hb]; lia|].
  rewrite existsb_app, Hresp. reflexivity.
Qed.

Lemma taskLoop_appends w RT fuel :
  forall i v v',
    taskLoop w RT fuel i v = Some v' ->
    exists tr, ttrace v' = ttrace v ++ tr /\ existsb is_response tr = false.
Proof.
  induction fuel as [|fuel IH]; intros i v v' Hv; [discriminate|].
  cbn [taskLoop] in Hv.
  destruct (negb _).
  { injection Hv as <-. exists []. now rewrite app_nil_r. }
  destruct (getChannel (base w) (tctx v) i) as [c2 [channel|err]].
  2:{ injection Hv as <-. exists [TEvLogError]. auto. }
  destruct (runTask w _ _ _ _) as [[e' m'] c3].
  apply IH in Hv as (tr & Htr & Hresp). cbn [ttrace] in Htr.
  eexists (_ ++ tr). rewrite Htr, <- app_assoc. split; [reflexivity|].
  rewrite existsb_app, Hresp. reflexivity.
Qed.

Lemma taskLoop_terminates w RT fuel :
  RT <= GoInt.max_int ->
  forall i v,
    0 <= i ->
    (Z.to_nat (RT - i) < fuel)%nat ->
    is_Some (taskLoop w RT fuel i v).
Proof.
  intros HR. induction fuel as [|fuel IH]; intros i v Hi Hfuel; [lia|].
  cbn [taskLoop].
  destruct (shouldRetryTaskRelay _ _ _ _ && (i <? RT)) eqn:Hcond;
    cbn [negb]; [|eauto].
  apply andb_true_iff in Hcond as [_ Hlt]. apply Z.ltb_lt in Hlt.
  destruct (getChannel (base w) (tctx v) i) as [c1 [channel|err]]; [|eauto].
  destruct (runTask w _ _ _ _) as [[e m] c3].
  assert (GoInt.add i 1 = i + 1) as ->.
  { apply GoIntFacts.wrap_id.
    unfold GoInt.in_range, GoInt.min_int, GoInt.max_int in *. lia. }
  apply IH; lia.
Qed.

Lemma afterTaskLoop_trace v :
  exists tr,
    tout_trace (afterTaskLoop v) = ttrace v ++ tr /\
    dispatches tr = [] /\
    match tout_error (afterTaskLoop v) with
    | Some e =>
      exists tr', tr = tr' ++ [TEvJSON (dto.StatusCode e) e] /\
                  existsb is_response tr' = false /\
                  (dto.StatusCode e = 429 -> dto.Message e = overloadedMessage)
    | None => existsb is_response tr = false
    end.
Proof.
  unfold afterTaskLoop.
  set (useChannel := GetStringSlice (tctx v) "use_channel").
  destruct (taskErr v) as [e|]; cbn [tout_error tout_trace].
  - set (e' := if dto.StatusCode e =? StatusTooManyRequests then _ else e).
    assert (dto.StatusCode e' = 429 -> dto.Message e' = overloadedMessage)
      as Hmsg.
    { subst e'. unfold StatusTooManyRequests.
      destruct (Z.eqb_spec (dto.StatusCode e) 429); [reflexivity|].
      intros; contradiction. }
    destruct (1 <? _).
    + exists ([TEvRetryLog useChannel] ++ [TEvJSON (dto.StatusCode e') e']).
      split; [now rewrite <- app_assoc|]. split; [reflexivity|].
      exists [TEvRetryLog useChannel]. auto.
    + exists [TEvJSON (dto.StatusCode e') e'].
      split; [reflexivity|]. split; [reflexivity|]. exists []. auto.
  - destruct (1 <? _).
    + exists [TEvRetryLog useChannel]. auto.
    + exists []. rewrite app_nil_r. auto.
Qed.

(** X5. A run of [RelayTask] ends; its handler calls are numbered 0, 1, ...,
    n-1 in order, and there are at most [RetryTimes + 1] of them (one, when
    no retry is configured). *)
Theorem RelayTask_dispatches_bounded (w : TaskWorld) (c : Context) :
  RetryTimes (base w) <= GoInt.max_int ->
  exists (o : TaskOutcome) (n : Z),
    RelayTask w c = Some o /\
    dispatches (tout_trace o) = seqZ 0 n /\
    0 <= n <= Z.max 0 (RetryTimes (base w)) + 1.
Proof.
  intros HR. unfold RelayTask, RelayTask_fuel.
  destruct (GenTaskRelayInfo w) as [m|].
  2:{ eexists _, 0. split; [reflexivity|]. cbn. auto with lia. }
  destruct (runTask w _ 0 _ m) as [[e m1] c1].
  set (RT := match e with None => 0 | Some _ => RetryTimes (base w) end).
  assert (RT <= GoInt.max_int) as HRT.
  { subst RT. destruct e; [exact HR|]. unfold GoInt.max_int. lia. }
  assert (RT <= Z.max 0 (RetryTimes (base w))) as Hmax.
  { subst RT. destruct e; lia. }
  match goal with
  | |- context [taskLoop w RT ?fuel 0 ?v0] =>
    destruct (taskLoop_terminates w RT fuel HRT 0 v0 ltac:(lia))
      as [v Hv]; [lia|];
    destruct (taskLoop_dispatches w RT fuel HRT 0 v0 v ltac:(lia) Hv)
      as (n & tr & Hn & Htr & Hd & Hb & _)
  end.
  rewrite Hv. cbn [fmap option_fmap option_map].
  destruct (afterTaskLoop_trace v) as (tr' & Ho & Hd' & _).
  exists (afterTaskLoop v), (1 + n). split; [reflexivity|].
  rewrite Ho, Htr. cbn [ttrace]. rewrite !dispatches_app, Hd, Hd', app_nil_r.
  cbn [dispatches app]. split; [|lia].
  rewrite (seqZ_cons 0 (1 + n)) by lia. do 2 f_equal; lia.
Qed.

Lemma RelayTask_dispatches_bounded_witness :
  RetryTimes (base (task_world (world_overloaded 2 500) 5 task_overloaded))
  <= GoInt.max_int /\
  exists (o : TaskOutcome) (n : Z),
    RelayTask (task_world (world_overloaded 2 500) 5 task_overloaded) ∅
    = Some o /\
    dispatches (tout_trace o) = seqZ 0 n /\
    0 <= n <= Z.max 0 (RetryTimes (base (task_world (world_overloaded 2 500)
                                           5 task_overloaded))) + 1.
Proof.
  assert (RetryTimes (base (task_world (world_overloaded 2 500) 5
                              task_overloaded)) <= GoInt.max_int) as H.
  { cbn. unfold GoInt.max_int. lia. }
  split; [exact H|]. apply RelayTask_dispatches_bounded. exact H.
Defined.

(** The bound is reached: with two retries configured and handlers that
    keep answering 429, three calls are made; the first retry goes to the
    channel of the request again, and the response carries the message for
    an overloaded group. *)
Example RelayTask_overloaded_run :
  (fun o => (dispatches (tout_trace o),
             GetStringSlice (tout_ctx o) "use_channel",
             dto.Message <$> tout_error o))
    <$> RelayTask (task_world (world_overloaded 2 500) 5 task_overloaded)
          {[ "channel_id" := CInt 4 ]}
  = Some ([0; 1; 2], ["4"; "4"; "9"], Some overloadedMessage).
Proof. vm_compute. reflexivity. Qed.

(** X6. [RelayTask] writes a JSON response exactly when it ends with a task
    error, once and as the last thing it does, with the message for an
    overloaded group on a 429; when no ledger can be built it returns
    without writing anything. *)
Theorem RelayTask_response (w : TaskWorld) (c : Context) (o : TaskOutcome) :
  RelayTask w c = Some o ->
  match tout_error o with
  | Some e =>
    exists tr,
      tout_trace o = tr ++ [TEvJSON (dto.StatusCode e) e] /\
      existsb is_response tr = false /\
      (dto.StatusCode e = 429 -> dto.Message e = overloadedMessage)
  | None => existsb is_response (tout_trace o) = false
  end /\
  (GenTaskRelayInfo w = None -> tout_error o = None /\ tout_trace o = []).
Proof.
  unfold RelayTask, RelayTask_fuel. intros Hrun.
  destruct (GenTaskRelayInfo w) as [m|].
  2:{ injection Hrun as <-. cbn. auto. }
  split; [|discriminate].
  destruct (runTask w _ 0 _ m) as [[e m1] c1].
  match type of Hrun with
  | context [taskLoop w ?RT ?fuel 0 ?v0] =>
    destruct (taskLoop w RT fuel 0 v0) as [v|] eqn:Hv; [|discriminate];
    destruct (taskLoop_appends _ _ _ _ _ _ Hv) as (tr & Htr & Hresp)
  end.
  cbn [fmap option_fmap option_map] in Hrun. injection Hrun as <-.
  destruct (afterTaskLoop_trace v) as (tr' & Ho & _ & Hend).
  rewrite Ho, Htr. cbn [ttrace].
  destruct (tout_error (afterTaskLoop v)) as [e'|].
  - destruct Hend as (tr'' & -> & Hresp'' & Hmsg).
    exists ([TEvDispatch 0 (taskRelayHandler w m)] ++ tr ++ tr'').
    split; [now rewrite <- !app_assoc|]. split; [|exact Hmsg].
    rewrite !existsb_app, Hresp, Hresp''. reflexivity.
  - rewrite !existsb_app, Hresp, Hend. reflexivity.
Qed.

Lemma RelayTask_response_witness :
  exists o,
    RelayTask (task_world (world_overloaded 2 500) 5 task_overloaded) ∅
    = Some o /\
    match tout_error o with
    | Some e =>
      exists tr,
        tout_trace o = tr ++ [TEvJSON (dto.StatusCode e) e] /\
        existsb is_response tr = false /\
        (dto.StatusCode e = 429 -> dto.Message e = overloadedMessage)
    | None => existsb is_response (tout_trace o) = false
    end /\
    (GenTaskRelayInfo (task_world (world_overloaded 2 500) 5 task_overloaded)
     = None -> tout_error o = None /\ tout_trace o = []).
Proof.
  eexists. split; [vm_compute; reflexivity|].
  apply (RelayTask_response
           (task_world (world_overloaded 2 500) 5 task_overloaded) ∅).
  vm_compute. reflexivity.
Defined.

(** X7. The first retry of [RelayTask] asks [getChannel] with retry count 0:
    it goes to the channel the context names, whatever the channel cache
    holds, and that channel is recorded in [use_channel] a second time. *)
Theorem RelayTask_first_retry (w : TaskWorld) (c : Context) (m m1 : Z)
    (e : dto.TaskError) (c1 : Context) (o : TaskOutcome) :
  let id0 := GetInt c "channel_id" in
  let c0 := <["use_channel" := CStringSlice [GoStrings.Itoa id0]]> c in
  GenTaskRelayInfo w = Some m ->
  runTask w (taskRelayHandler w m) 0 c0 m = (Some e, m1, c1) ->
  shouldRetryTaskRelay c1 id0 (Some e) (RetryTimes (base w)) = true ->
  RelayTask w c = Some o ->
  exists tr,
    tout_trace o
    = TEvDispatch 0 (taskRelayHandler w m)
      :: TEvLogInfo (GetInt c1 "channel_id") 0
      :: TEvDispatch 1 (taskRelayHandler w m1) :: tr.
Proof.
  intros id0 c0 Hgen Hrun0 Hretry Hrun.
  unfold RelayTask, RelayTask_fuel in Hrun.
  fold id0 c0 in Hrun. rewrite Hgen, Hrun0 in Hrun.
  cbn [taskLoop tctx channelId taskErr relayMode ttrace] in Hrun. rewrite Hretry in Hrun.
  assert (0 < RetryTimes (base w)) as HR.
  { unfold shouldRetryTaskRelay in Hretry.
    destruct (Z.leb_spec (RetryTimes (base w)) 0); [discriminate|lia]. }
  destruct (Z.ltb_spec 0 (RetryTimes (base w))) as [_|?]; [|lia].
  cbn [andb negb] in Hrun.
  unfold getChannel in Hrun. cbn [Z.eqb] in Hrun. cbn [Id] in Hrun.
  destruct (runTask w _ (0 + 1) _ m1) as [[e2 m2] c3].
  match type of Hrun with
  | context [taskLoop w ?RT ?fuel ?i ?v0] =>
    destruct (taskLoop w RT fuel i v0) as [v|] eqn:Hv; [|discriminate];
    destruct (taskLoop_appends _ _ _ _ _ _ Hv) as (tr & Htr & _)
  end.
  cbn [fmap option_fmap option_map] in Hrun. injection Hrun as <-.
  destruct (afterTaskLoop_trace v) as (tr' & -> & _).
  rewrite Htr. cbn [ttrace app]. eauto.
Qed.

Lemma RelayTask_first_retry_witness :
  exists o,
    GenTaskRelayInfo (task_world (world_overloaded 2 500) 5 task_overloaded)
    = Some 32 /\
    RelayTask (task_world (world_overloaded 2 500) 5 task_overloaded)
      {[ "channel_id" := CInt 4 ]} = Some o /\
    exists tr,
      tout_trace o
      = TEvDispatch 0 RelayTaskSubmit
        :: TEvLogInfo 4 0 :: TEvDispatch 1 RelayTaskSubmit :: tr.
Proof.
  eexists. split; [reflexivity|]. split; [vm_compute; reflexivity|].
  refine (RelayTask_first_retry
            (task_world (world_overloaded 2 500) 5 task_overloaded)
            {[ "channel_id" := CInt 4 ]} 32 32 task_overloaded _ _
            eq_refl eq_refl _ _).
  - vm_compute. reflexivity.
  - vm_compute. reflexivity.
Defined.

End TaskFacts.

(** ** What a run of [Relay] leaves behind *)
Module RelayObsFacts.
Import types controller RelayObs RelayExamples TaskExamples RelayFacts.

(** The ways through [Relay]. *)
Lemma Relay_cases w relayFormat c o :
  Relay w relayFormat c = Some o ->
  o = {| out_error := None; out_info := None; out_ctx := c;
         out_trace := [EvWssError] |} \/
  (exists st err info,
     preflight w = inl (st, err, info) /\
     o = deferRespond {| out_error := Some err; out_info := info;
                         out_ctx := c; out_trace := [] |}) \/
  (exists info fuel v,
     preflight w = inr info /\
     retryLoop w relayFormat fuel 0
       {| ctx := c; relayInfo := info; newAPIError := None; trace := [] |}
     = Some (Returned v) /\
     o = deferRespond (outcome_of (deferReturnQuota v))) \/
  (exists info fuel v,
     preflight w = inr info /\
     retryLoop w relayFormat fuel 0
       {| ctx := c; relayInfo := info; newAPIError := None; trace := [] |}
     = Some (LeftLoop v) /\
     o = deferRespond (outcome_of (deferReturnQuota (afterLoop v)))).
Proof.
  unfold Relay, Relay_fuel. intros Hrun.
  destruct (match relayFormat with
            | RelayFormatOpenAIRealtime => negb (Upgrade w)
            | _ => false
            end).
  { injection Hrun as <-. auto. }
  destruct (preflight w) as [[[st err] info]|info].
  { injection Hrun as <-. right. left. eauto. }
  destruct (retryLoop _ _ _ _ _) as [[v|v]|] eqn:Hloop; [| |discriminate];
    injection Hrun as <-; right; right; [left|right]; eauto 10.
Qed.

Lemma dispatched_app tr1 tr2 :
  dispatched (tr1 ++ tr2) = dispatched tr1 ++ dispatched tr2.
Proof.
  induction tr1 as [|ev tr1 IH]; [reflexivity|].
  destruct ev; cbn [dispatched app]; rewrite ?IH; reflexivity.
Qed.

Lemma GetStringSlice_ext (c c' : Context) k :
  c' !! k = c !! k -> GetStringSlice c' k = GetStringSlice c k.
Proof. unfold GetStringSlice. now intros ->. Qed.

Lemma getChannel_use_channel w c i :
  keeps_use_channel w ->
  (getChannel w c i).1 !! "use_channel" = c !! "use_channel".
Proof.
  intros (Hcache & Hsetup & _). unfold getChannel.
  destruct (i =? 0); [reflexivity|].
  pose proof (Hcache c i) as Hc.
  destruct (CacheGetRandomSatisfiedChannel w c i) as [c1 [| |channel]];
    cbn [fst] in *; try exact Hc.
  pose proof (Hsetup c1 channel) as Hs.
  destruct (SetupContextForSelectedChannel w c1 channel) as [c2 [err|]];
    cbn [fst] in *; congruence.
Qed.

(** One pass records the channel it dispatches to, and nothing else. *)
Lemma attempt_use_channel w relayFormat i v :
  keeps_use_channel w ->
  let grows v' :=
    exists channelId,
      GetStringSlice (ctx v') "use_channel"
      = GetStringSlice (ctx v) "use_channel" ++ [GoStrings.Itoa channelId] /\
      dispatched (trace v') = dispatched (trace v) ++ [channelId] in
  match attempt w relayFormat i v with
  | NoChannel v' =>
    GetStringSlice (ctx v') "use_channel"
    = GetStringSlice (ctx v) "use_channel" /\
    trace v' = trace v
  | Done v' => grows v'
  | Failed v' _ => grows v'
  end.
Proof.
  intros Hkeep. pose proof (getChannel_use_channel w (ctx v) i Hkeep) as Hget.
  destruct Hkeep as (_ & _ & Hrun). unfold attempt.
  destruct (getChannel w (ctx v) i) as [c1 [channel|err]]; cbn [fst] in Hget.
  2:{ cbn [ctx trace]. split; [now apply GetStringSlice_ext|reflexivity]. }
  match goal with
  | |- context [runHelper w ?h i ?c2 ?info] =>
    pose proof (Hrun h i c2 info) as Hc3;
    destruct (runHelper w h i c2 info) as [[[e|] info'] c3]
  end; cbn [snd] in Hc3; exists (Id channel); cbn [ctx trace];
    (split;
     [rewrite (GetStringSlice_ext _ _ _ Hc3); unfold addUsedChannel;
      unfold GetStringSlice at 1; rewrite lookup_insert_eq;
      now rewrite (GetStringSlice_ext _ _ _ Hget)
     |rewrite dispatched_app; reflexivity]).
Qed.

Lemma retryLoop_use_channel w relayFormat fuel :
  keeps_use_channel w ->
  forall i v ex,
    retryLoop w relayFormat fuel i v = Some ex ->
    exists ids,
      GetStringSlice (ctx (exit_vars ex)) "use_channel"
      = GetStringSlice (ctx v) "use_channel" ++ map GoStrings.Itoa ids /\
      dispatched (trace (exit_vars ex)) = dispatched (trace v) ++ ids.
Proof.
  intros Hkeep. induction fuel as [|fuel IH]; intros i v ex Hrun;
    [discriminate|].
  cbn [retryLoop] in Hrun.
  destruct (negb (i <=? RetryTimes w)).
  { injection Hrun as <-. exists []. cbn [exit_vars map].
    now rewrite !app_nil_r. }
  pose proof (attempt_use_channel w relayFormat i v Hkeep) as Hat.
  cbv zeta in Hat.
  destruct (attempt w relayFormat i v) as [v'|v'|v' e].
  - injection Hrun as <-. exists []. cbn [exit_vars map].
    destruct Hat as [-> ->]. now rewrite !app_nil_r.
  - injection Hrun as <-. destruct Hat as (id & Huse & Hd). exists [id].
    cbn [exit_vars]. now rewrite Huse, Hd.
  - destruct Hat as (id & Huse & Hd).
    destruct (negb _).
    + injection Hrun as <-. exists [id]. cbn [exit_vars]. now rewrite Huse, Hd.
    + apply IH in Hrun as (ids & -> & ->). exists (id :: ids).
      rewrite Huse, Hd, <- !app_assoc. split; reflexivity.
Qed.

Lemma deferReturnQuota_ctx v :
  ctx (deferReturnQuota v) = ctx v /\
  exists tr, trace (deferReturnQuota v) = trace v ++ tr /\
    dispatched tr = [] /\ existsb is_retry_log tr = false /\
    existsb is_error_response tr = false /\
    match newAPIError v with
    | Some _ =>
      if FinalPreConsumedQuota (relayInfo v) =? 0 then tr = []
      else tr = [EvReturnPreConsumedQuota (relayInfo v)]
    | None => tr = []
    end.
Proof.
  unfold deferReturnQuota. destruct (newAPIError v).
  - destruct (_ =? 0); cbn [negb].
    + split; [reflexivity|]. exists []. now rewrite app_nil_r.
    + split; [reflexivity|]. eexists. split; [reflexivity|]. auto.
  - split; [reflexivity|]. exists []. now rewrite app_nil_r.
Qed.

Lemma afterLoop_ctx v :
  ctx (afterLoop v) = ctx v /\
  exists tr, trace (afterLoop v) = trace v ++ tr /\
    dispatched tr = [] /\ existsb is_refund tr = false /\
    existsb is_error_response tr = false /\
    (existsb is_retry_log tr = true <->
     1 < Z.of_nat (List.length (GetStringSlice (ctx v) "use_channel"))).
Proof.
  unfold afterLoop.
  destruct (Z.ltb_spec 1
              (Z.of_nat (List.length (GetStringSlice (ctx v) "use_channel")))).
  - split; [reflexivity|]. eexists. split; [reflexivity|]. cbn. tauto.
  - split; [reflexivity|]. exists []. rewrite app_nil_r. cbn.
    repeat split; auto; try discriminate; lia.
Qed.

(** X8. If no collaborator touches the [use_channel] entry of the context, a
    run of [Relay] adds to it the channels it dispatched to, one entry per
    attempt and in order, and nothing else. *)
Theorem Relay_use_channel (w : World) (relayFormat : RelayFormat)
    (c : Context) (o : Outcome) :
  keeps_use_channel w ->
  Relay w relayFormat c = Some o ->
  GetStringSlice (out_ctx o) "use_channel"
  = GetStringSlice c "use_channel"
    ++ map GoStrings.Itoa (dispatched (out_trace o)).
Proof.
  intros Hkeep Hrun.
  assert (forall o', out_ctx (deferRespond o') = out_ctx o' /\
                     dispatched (out_trace (deferRespond o'))
                     = dispatched (out_trace o')) as Hresp.
  { intros o'. unfold deferRespond. destruct (out_error o'); [|auto].
    cbn. rewrite dispatched_app. cbn. now rewrite app_nil_r. }
  apply Relay_cases in Hrun
    as [-> | [(st & err & info & _ & ->) | [(info & fuel & v & _ & Hl & ->)
                                           | (info & fuel & v & _ & Hl & ->)]]].
  - cbn. now rewrite app_nil_r.
  - destruct (Hresp {| out_error := Some err; out_info := info; out_ctx := c;
                       out_trace := [] |}) as [-> ->].
    cbn. now rewrite app_nil_r.
  - destruct (Hresp (outcome_of (deferReturnQuota v))) as [-> ->].
    cbn [outcome_of out_ctx out_trace].
    destruct (deferReturnQuota_ctx v) as (-> & tr & -> & Hd & _).
    rewrite dispatched_app, Hd, app_nil_r.
    apply (retryLoop_use_channel _ _ _ Hkeep) in Hl as (ids & Hu & Hd').
    cbn [exit_vars ctx trace dispatched app] in Hu, Hd'. now rewrite Hu, Hd'.
  - destruct (Hresp (outcome_of (deferReturnQuota (afterLoop v)))) as [-> ->].
    cbn [outcome_of out_ctx out_trace].
    destruct (deferReturnQuota_ctx (afterLoop v)) as (-> & tr & -> & Hd & _).
    destruct (afterLoop_ctx v) as (-> & tr' & -> & Hd'' & _).
    rewrite !dispatched_app, Hd, Hd'', !app_nil_r.
    apply (retryLoop_use_channel _ _ _ Hkeep) in Hl as (ids & Hu & Hd').
    cbn [exit_vars ctx trace dispatched app] in Hu, Hd'. now rewrite Hu, Hd'.
Qed.

Lemma world_failing_keeps retries q e :
  keeps_use_channel (world_failing retries q e).
Proof. repeat split. Qed.

Lemma Relay_use_channel_witness :
  exists o,
    keeps_use_channel (world_overloaded 2 500) /\
    Relay (world_overloaded 2 500) RelayFormatClaude
      {[ "channel_id" := CInt 4 ]} = Some o /\
    GetStringSlice (out_ctx o) "use_channel"
    = GetStringSlice ({[ "channel_id" := CInt 4 ]} : Context) "use_channel"
      ++ map GoStrings.Itoa (dispatched (out_trace o)).
Proof.
  eexists. split; [apply world_failing_keeps|].
  split; [vm_compute; reflexivity|].
  apply (Relay_use_channel (world_overloaded 2 500) RelayFormatClaude
           {[ "channel_id" := CInt 4 ]}).
  - apply world_failing_keeps.
  - vm_compute. reflexivity.
Defined.

(** The loop itself writes no response, no retry log and issues no refund. *)
Lemma retryLoop_quiet w relayFormat fuel :
  forall i v ex,
    retryLoop w relayFormat fuel i v = Some ex ->
    exists tr,
      trace (exit_vars ex) = trace v ++ tr /\
      existsb is_refund tr = false /\ existsb is_retry_log tr = false /\
      existsb is_error_response tr = false.
Proof.
  induction fuel as [|fuel IH]; intros i v ex Hrun; [discriminate|].
  cbn [retryLoop] in Hrun.
  destruct (negb (i <=? RetryTimes w)).
  { injection Hrun as <-. exists []. cbn. now rewrite app_nil_r. }
  assert (match attempt w relayFormat i v with
          | NoChannel v' | Done v' | Failed v' _ =>
            exists tr,
              trace v' = trace v ++ tr /\
              existsb is_refund tr = false /\
              existsb is_retry_log tr = false /\
              existsb is_error_response tr = false
          end) as Hat.
  { unfold attempt.
    destruct (getChannel w (ctx v) i) as [c1 [channel|err]].
    2:{ exists []. cbn. now rewrite app_nil_r. }
    destruct (runHelper w _ i _ _) as [[[e|] info] c3]; cbn [trace];
      eexists; (split; [reflexivity|]); auto. }
  destruct (attempt w relayFormat i v) as [v'|v'|v' e].
  - injection Hrun as <-. exact Hat.
  - injection Hrun as <-. exact Hat.
  - destruct Hat as (tr & Htr & Hr & Hl & He).
    destruct (negb _).
    + injection Hrun as <-. eauto.
    + apply IH in Hrun as (tr' & -> & Hr' & Hl' & He'). exists (tr ++ tr').
      rewrite Htr, <- app_assoc, !existsb_app, Hr, Hr', Hl, Hl', He, He'.
      auto.
Qed.

(** A loop that was entered and left below, not by [return], leaves an
    error behind. *)
Lemma retryLoop_left_error w relayFormat fuel v v' :
  0 <= RetryTimes w ->
  retryLoop w relayFormat fuel 0 v = Some (LeftLoop v') ->
  is_Some (newAPIError v').
Proof.
  intros HR Hrun. destruct fuel as [|fuel]; [discriminate|].
  cbn [retryLoop] in Hrun.
  destruct (Z.leb_spec 0 (RetryTimes w)); [|lia]. cbn [negb] in Hrun.
  pose proof (attempt_error w relayFormat 0 v) as Herr.
  destruct (attempt w relayFormat 0 v) as [v1|v1|v1 e].
  - injection Hrun as <-. exact Herr.
  - discriminate.
  - destruct (negb _).
    + injection Hrun as <-. rewrite Herr. eauto.
    + apply retryLoop_exit_error in Hrun as [-> | ?]; [rewrite Herr|]; eauto.
Qed.

(** X9. A run that fails ends with its error response, written once; the
    pre-consumed quota, if any goes back, goes back once and right before
    the response, with the ledger as the run leaves it. *)
Theorem Relay_deferred_order (w : World) (relayFormat : RelayFormat)
    (c : Context) (o : Outcome) (e : NewAPIError) :
  Relay w relayFormat c = Some o ->
  out_error o = Some e ->
  exists tr,
    existsb is_refund tr = false /\ existsb is_error_response tr = false /\
    (out_trace o = tr ++ [EvErrorResponse e] \/
     exists info,
       out_info o = Some info /\ FinalPreConsumedQuota info <> 0 /\
       out_trace o = tr ++ [EvReturnPreConsumedQuota info; EvErrorResponse e]).
Proof.
  intros Hrun He.
  apply Relay_cases in Hrun
    as [-> | [(st & err & info & _ & ->) | [(info & fuel & v & _ & Hl & ->)
                                           | (info & fuel & v & _ & Hl & ->)]]].
  - discriminate.
  - cbn in He. injection He as ->. exists []. cbn. auto.
  - apply retryLoop_exit_error in Hl. unfold deferReturnQuota in He.
    rewrite Hl in He. unfold deferRespond in He. cbn in He.
    rewrite Hl in He. cbn in He. congruence.
  - apply retryLoop_quiet in Hl as (tr & Htr & Hr & _ & Her).
    cbn [exit_vars trace app] in Htr.
    destruct (afterLoop_ctx v) as (_ & tr' & Htr' & _ & Hr' & Her' & _).
    destruct (afterLoop_trace v) as (_ & _ & Herr & Hinfo).
    destruct (deferReturnQuota_ctx (afterLoop v)) as (_ & tr2 & Htr2 & _ & _ & _ & Hq).
    destruct (deferReturnQuota_trace (afterLoop v)) as (_ & Herr2 & Hinfo2).
    set (X := outcome_of (deferReturnQuota (afterLoop v))) in *.
    destruct (deferRespond_trace X) as (_ & _ & HeX & HiX).
    rewrite HeX in He. rewrite HiX.
    unfold deferRespond. rewrite He. subst X.
    cbn [outcome_of out_error out_trace out_info] in *.
    rewrite Herr2 in He. rewrite He in Hq.
    rewrite Htr2, Htr', Htr.
    exists (tr ++ tr'). rewrite !existsb_app, Hr, Hr', Her, Her'.
    split; [reflexivity|]. split; [reflexivity|].
    destruct (Z.eqb_spec (FinalPreConsumedQuota (relayInfo (afterLoop v))) 0)
      as [Hz|Hnz]; subst tr2.
    + left. now rewrite app_nil_r.
    + right. exists (relayInfo (afterLoop v)). rewrite Hinfo2.
      split; [reflexivity|]. split; [exact Hnz|].
      now rewrite <- !app_assoc.
Qed.

Lemma Relay_deferred_order_witness :
  exists o e,
    Relay (world_overloaded 2 500) RelayFormatOpenAI ∅ = Some o /\
    out_error o = Some e /\
    exists tr,
      existsb is_refund tr = false /\ existsb is_error_response tr = false /\
      (out_trace o = tr ++ [EvErrorResponse e] \/
       exists info,
         out_info o = Some info /\ FinalPreConsumedQuota info <> 0 /\
         out_trace o
         = tr ++ [EvReturnPreConsumedQuota info; EvErrorResponse e]).
Proof.
  eexists _, _. split; [vm_compute; reflexivity|]. split; [reflexivity|].
  apply (Relay_deferred_order (world_overloaded 2 500) RelayFormatOpenAI ∅);
    vm_compute; reflexivity.
Defined.

(** X10. The retry log line is written exactly when the loop is left with an
    error and more than one channel is on record: a request that succeeds
    after retries returns from inside the loop and logs none. *)
Theorem Relay_retry_log (w : World) (relayFormat : RelayFormat)
    (c : Context) (o : Outcome) :
  0 <= RetryTimes w ->
  Relay w relayFormat c = Some o ->
  existsb is_retry_log (out_trace o) = true <->
  is_Some (out_error o) /\ (exists info, preflight w = inr info) /\
  1 < Z.of_nat (List.length (GetStringSlice (out_ctx o) "use_channel")).
Proof.
  intros HR Hrun.
  assert (forall o', existsb is_retry_log (out_trace (deferRespond o'))
                     = existsb is_retry_log (out_trace o') /\
                     out_error (deferRespond o') = out_error o' /\
                     out_ctx (deferRespond o') = out_ctx o') as Hresp.
  { intros o'. unfold deferRespond. destruct (out_error o') eqn:Ho'; [|auto].
    cbn. rewrite existsb_app. cbn. now rewrite orb_false_r. }
  apply Relay_cases in Hrun
    as [-> | [(st & err & info & Hpre & ->) | [(info & fuel & v & _ & Hl & ->)
                                              | (info & fuel & v & Hpre & Hl & ->)]]].
  - cbn. split; [discriminate|]. intros [[? [=]] _].
  - destruct (Hresp {| out_error := Some err; out_info := info; out_ctx := c;
                       out_trace := [] |}) as (-> & _ & _).
    cbn. split; [discriminate|]. intros (_ & [? H] & _). congruence.
  - destruct (Hresp (outcome_of (deferReturnQuota v))) as (-> & -> & _).
    cbn [outcome_of out_trace out_error].
    pose proof (retryLoop_exit_error _ _ _ _ _ _ Hl) as Hnone. cbn in Hnone.
    apply retryLoop_quiet in Hl as (tr & Htr & _ & Hlog & _).
    cbn [exit_vars trace app] in Htr.
    destruct (deferReturnQuota_ctx v) as (_ & tr2 & -> & _ & Hlog2 & _).
    destruct (deferReturnQuota_trace v) as (_ & -> & _).
    rewrite Hnone, Htr, !existsb_app, Hlog, Hlog2.
    split; [discriminate|]. intros [[? [=]] _].
  - destruct (Hresp (outcome_of (deferReturnQuota (afterLoop v))))
      as (-> & -> & ->).
    cbn [outcome_of out_trace out_error out_ctx].
    pose proof (retryLoop_left_error _ _ _ _ _ HR Hl) as Hsome.
    apply retryLoop_quiet in Hl as (tr & Htr & _ & Hlog & _).
    cbn [exit_vars trace app] in Htr.
    destruct (afterLoop_ctx v) as (Hctx & tr' & Htr' & _ & _ & _ & Hiff).
    destruct (afterLoop_trace v) as (_ & _ & Herr & _).
    destruct (deferReturnQuota_ctx (afterLoop v))
      as (-> & tr2 & -> & _ & Hlog2 & _).
    destruct (deferReturnQuota_trace (afterLoop v)) as (_ & -> & _).
    rewrite Hctx, Herr, Htr', Htr, !existsb_app, Hlog, Hlog2, orb_false_r.
    cbn [orb]. rewrite Hiff. split; [eauto|]. tauto.
Qed.

Lemma Relay_retry_log_witness :
  exists o,
    0 <= RetryTimes (world_recovering 2 500 1) /\
    Relay (world_recovering 2 500 1) RelayFormatOpenAI ∅ = Some o /\
    (existsb is_retry_log (out_trace o) = true <->
     is_Some (out_error o) /\
     (exists info, preflight (world_recovering 2 500 1) = inr info) /\
     1 < Z.of_nat (List.length (GetStringSlice (out_ctx o) "use_channel"))).
Proof.
  assert (0 <= RetryTimes (world_recovering 2 500 1)) as H by (cbn; lia).
  eexists. split; [exact H|]. split; [vm_compute; reflexivity|].
  apply (Relay_retry_log (world_recovering 2 500 1) RelayFormatOpenAI ∅ _ H).
  vm_compute. reflexivity.
Defined.

(** The request is served at the second attempt: two channels are on
    record, and no retry log line is written. *)
Example Relay_recovering_run :
  (fun o => (out_error o, controller.attempts (out_trace o),
             GetStringSlice (out_ctx o) "use_channel",
             existsb is_retry_log (out_trace o), refunded o))
    <$> Relay (world_recovering 2 500 1) RelayFormatOpenAI ∅
  = Some (None, [0; 1], ["0"; "9"], false, false).
Proof. vm_compute. reflexivity. Qed.

End RelayObsFacts.

(** ** More on the request rewriter *)
Module OverrideMore.
Import override OverrideProps GoStrings StringFacts RegexpFacts OverrideFacts.

#[local] Arguments String.append : simpl nomatch.

Section Generic.
Context {float64 Json : Type} `{L : Library float64 Json}.

Lemma applyOperations_error (doc d : Json)
    (ops : list (ParamOperation float64)) (err : error) :
  applyOperations doc ops = (d, Some err) -> d = no_text.
Proof.
  revert doc. induction ops as [|op ops IH]; intros doc Hrun; [discriminate|].
  cbn [applyOperations] in Hrun.
  destruct (checkConditions doc (Conditions op) (Logic op)) as [[|] [e|]];
    try (injection Hrun as <- _; reflexivity); eauto.
  destruct (execute doc op) as [|r [e|]|];
    try (injection Hrun as <- _; reflexivity); eauto.
Qed.

(** X11. A program that fails has a first operation that fails: those before
    it ran, it failed on the document they produced with the error the
    program reports, and those after it were not looked at.  The text that
    comes back with the error is empty, whichever operation failed and
    however. *)
Theorem applyOperations_error_no_text (doc d : Json)
    (ops : list (ParamOperation float64)) (err : error) :
  applyOperations doc ops = (d, Some err) ->
  d = no_text /\
  exists pre op post doc',
    ops = pre ++ op :: post /\
    applyOperations doc pre = (doc', None) /\
    applyOperations doc' [op] = (no_text, Some err).
Proof.
  intros Hrun. split; [exact (applyOperations_error _ _ _ _ Hrun)|].
  revert doc Hrun. induction ops as [|op ops IH]; intros doc Hrun;
    [discriminate|].
  assert (forall doc1,
            applyOperations doc (op :: ops) = applyOperations doc1 ops ->
            applyOperations doc [op] = (doc1, None) ->
            exists pre op' post doc',
              op :: ops = pre ++ op' :: post /\
              applyOperations doc pre = (doc', None) /\
              applyOperations doc' [op'] = (no_text, Some err)) as Hlater.
  { intros doc1 Hstep Hone. rewrite Hstep in Hrun.
    destruct (IH doc1 Hrun) as (pre & op' & post & doc' & -> & Hpre & Hop).
    exists (op :: pre), op', post, doc'. split; [reflexivity|].
    split; [|exact Hop].
    change (op :: pre) with ([op] ++ pre).
    now rewrite applyOperations_app, Hone. }
  assert (applyOperations doc [op] = (no_text, Some err) ->
          exists pre op' post doc',
            op :: ops = pre ++ op' :: post /\
            applyOperations doc pre = (doc', None) /\
            applyOperations doc' [op'] = (no_text, Some err)) as Hhere.
  { intros Hone. exists [], op, ops, doc. auto. }
  cbn [applyOperations] in *.
  destruct (checkConditions doc (Conditions op) (Logic op)) as [[|] [e|]];
    try (injection Hrun as _ <-; apply Hhere; reflexivity);
    try (apply (Hlater doc); reflexivity).
  destruct (execute doc op) as [|r [e|]|];
    try (injection Hrun as _ <-; apply Hhere; reflexivity);
    [apply (Hlater doc) | apply (Hlater r)]; reflexivity.
Qed.

(** X12. Running a program is running its first part and then, if that went
    well, the rest on what the first part produced. *)
Theorem applyOperations_sequential (doc : Json)
    (ops1 ops2 : list (ParamOperation float64)) :
  applyOperations doc (ops1 ++ ops2)
  = match applyOperations doc ops1 with
    | (d, None) => applyOperations d ops2
    | (_, Some err) => (no_text, Some err)
    end.
Proof.
  rewrite applyOperations_app.
  destruct (applyOperations doc ops1) as [d [err|]] eqn:H1; [|reflexivity].
  now rewrite (applyOperations_error _ _ _ _ H1).
Qed.

(** X13. A program of operations that are gated off, or are a [set] with
    [keep_origin] on a path that has a value, returns the document as it got
    it. *)
Theorem applyOperations_passed_over (doc : Json)
    (ops : list (ParamOperation float64)) :
  Forall (passes_over doc) ops -> applyOperations doc ops = (doc, None).
Proof.
  induction 1 as [|op ops [Hgate | (Hgate & Hmode & Hkeep & Hex)] _ IH];
    [reflexivity| |]; cbn [applyOperations]; rewrite Hgate; [exact IH|].
  unfold execute. rewrite Hmode, Hkeep, Hex.
  cbn [String.eqb Ascii.eqb Bool.eqb andb]. exact IH.
Qed.

(** X14. A path without a minus sign is no business of [processNegativeIndex]:
    it comes back as it is, whatever the document. *)
Theorem processNegativeIndex_no_minus (doc : Json) (path : string) :
  no_minus path = true -> processNegativeIndex doc path = path.
Proof.
  intros Hpath. unfold processNegativeIndex, regexp.FindAllStringSubmatch.
  now rewrite FindAll_negIndex_none.
Qed.

(** X15. [mergeObjects] on an object value: the object written back has, under
    each key, the new value if there is one and either [keep_origin] is off
    or the current object has nothing (or [null]) there, else what the
    current object has.  The order in which Go ranges over the maps plays no
    role. *)
Theorem mergeObjects_keys (doc : Json) (path : string)
    (newMap currentMap : gmap string (value float64)) (keepOrigin : bool) :
  json_Unmarshal (Raw (gjson_Get doc path)) = (currentMap, None) ->
  exists result,
    mergeObjects doc path (VMap newMap) keepOrigin
    = sjson_Set doc path (VMap result) /\
    forall k,
      result !! k
      = match newMap !! k with
        | Some v =>
          if negb keepOrigin || is_nil (currentMap !! k) then Some v
          else currentMap !! k
        | None => currentMap !! k
        end.
Proof.
  intros Hcur. unfold mergeObjects. rewrite Hcur.
  eexists. split; [reflexivity|].
  apply (map_fold_weak_ind
           (fun r m =>
              forall k,
                r !! k
                = match m !! k with
                  | Some v =>
                    if negb keepOrigin || is_nil (currentMap !! k) then Some v
                    else currentMap !! k
                  | None => currentMap !! k
                  end)).
  - intros k. now rewrite lookup_empty.
  - intros i x m r Hi IH k.
    pose proof (IH i) as Hri. rewrite Hi in Hri. rewrite Hri.
    destruct (decide (k = i)) as [->|Hne].
    + rewrite lookup_insert_eq.
      destruct (negb keepOrigin || is_nil (currentMap !! i)).
      * now rewrite lookup_insert_eq.
      * exact Hri.
    + rewrite (lookup_insert_ne m) by congruence.
      destruct (negb keepOrigin || is_nil (currentMap !! i));
        [rewrite lookup_insert_ne by congruence|]; apply IH.
Qed.

(** *** Conditions *)

Lemma conditionResults_all (doc : Json)
    (cs : list (ConditionOperation float64)) :
  Forall (fun c => checkSingleCondition doc c = (true, None)) cs <->
  exists rs, conditionResults doc cs = inl rs /\ forallb id rs = true.
Proof.
  induction cs as [|c cs IH]; cbn [conditionResults].
  { split; [exists []; auto | constructor]. }
  rewrite Forall_cons, IH. split.
  - intros [-> (rs & -> & Hrs)]. exists (true :: rs). auto.
  - intros (rs & Hrun & Hrs).
    destruct (checkSingleCondition doc c) as [r [e|]]; [discriminate|].
    destruct (conditionResults doc cs) as [rs'|e]; [|discriminate].
    injection Hrun as <-. cbn in Hrs. apply andb_true_iff in Hrs as [-> Hrs].
    eauto.
Qed.

Lemma conditionResults_any (doc : Json)
    (cs : list (ConditionOperation float64)) :
  Forall (fun c => (checkSingleCondition doc c).2 = None) cs /\
  List.Exists (fun c => checkSingleCondition doc c = (true, None)) cs <->
  exists rs, conditionResults doc cs = inl rs /\ existsb id rs = true.
Proof.
  assert (forall cs,
            Forall (fun c => (checkSingleCondition doc c).2 = None) cs <->
            exists rs, conditionResults doc cs = inl rs) as Hok.
  { clear cs. induction cs as [|c cs IH]; cbn [conditionResults].
    { split; [eauto | constructor]. }
    rewrite Forall_cons, IH.
    destruct (checkSingleCondition doc c) as [r [e|]]; cbn [snd].
    - split; [intros [[=] _] | intros [? [=]]].
    - destruct (conditionResults doc cs) as [rs|e].
      + split; eauto.
      + split; [intros [_ [? [=]]] | intros [? [=]]]. }
  induction cs as [|c cs IH]; cbn [conditionResults].
  { split; [intros [_ H]; inversion H | intros (rs & [= <-] & [=])]. }
  rewrite Forall_cons, Exists_cons.
  destruct (checkSingleCondition doc c) as [r [e|]] eqn:Hc; cbn [snd].
  { split; [intros [[[=] _] _] | intros (? & [=] & _)]. }
  destruct (conditionResults doc cs) as [rs|e] eqn:Hcs.
  - split.
    + intros [[_ Hall] [Hhere | Hlater]].
      * injection Hhere as ->. exists (true :: rs). auto.
      * destruct (proj1 IH (conj Hall Hlater)) as (rs' & [= <-] & Hrs).
        exists (r :: rs). cbn. rewrite Hrs. now rewrite orb_true_r.
    + intros (rs' & [= <-] & Hrs). cbn in Hrs.
      assert (Forall (fun c => (checkSingleCondition doc c).2 = None) cs)
        as Hall by (apply Hok; eauto).
      split; [auto|].
      apply orb_true_iff in Hrs as [Hr | Hrs].
      * left. unfold id in Hr. now rewrite Hr.
      * right. apply IH. eauto.
  - split.
    + intros [[_ Hall] _]. apply Hok in Hall as [? Hx]. congruence.
    + intros (? & [=] & _).
Qed.

(** X16. The gate of an operation.  Under [AND] (in any case of the letters) it
    holds exactly when every condition holds; under any other logic it
    holds exactly when there is no condition at all, or when some condition
    holds and none fails with an error: every condition is evaluated, also
    after one that holds. *)
Theorem checkConditions_logic (doc : Json)
    (cs : list (ConditionOperation float64)) (logic : string) :
  (ToUpper logic = "AND" ->
   checkConditions doc cs logic = (true, None) <->
   Forall (fun c => checkSingleCondition doc c = (true, None)) cs) /\
  (ToUpper logic <> "AND" ->
   checkConditions doc cs logic = (true, None) <->
   cs = [] \/
   (Forall (fun c => (checkSingleCondition doc c).2 = None) cs /\
    List.Exists (fun c => checkSingleCondition doc c = (true, None)) cs)).
Proof.
  split; intros Hlogic.
  - rewrite conditionResults_all. unfold checkConditions.
    destruct cs as [|c cs]; [split; [exists []; auto | auto]|].
    rewrite Hlogic. cbn [String.eqb Ascii.eqb Bool.eqb].
    destruct (conditionResults doc (c :: cs)) as [rs|e].
    + split; [intros [= Hrs]; eauto | intros (? & [= <-] & ->); auto].
    + split; [discriminate | intros (? & [=] & _)].
  - rewrite conditionResults_any. unfold checkConditions.
    destruct cs as [|c cs]; [split; auto|].
    destruct (String.eqb_spec (ToUpper logic) "AND") as [?|_];
      [contradiction|].
    destruct (conditionResults doc (c :: cs)) as [rs|e].
    + split; [intros [= Hrs]; eauto | ].
      intros [[=] | (? & [= <-] & ->)]. reflexivity.
    + split; [discriminate | intros [[=] | (? & [=] & _)]].
Qed.

(** X17. Turning [invert] round negates the outcome of a comparison, and only
    that: on a missing key the answer stays what [pass_missing_key] says,
    and an error stays the error it was. *)
Theorem checkSingleCondition_inverted (doc : Json)
    (cond : ConditionOperation float64) :
  let value := gjson_Get doc (processNegativeIndex doc (CondPath cond)) in
  checkSingleCondition doc (inverted cond)
  = match checkSingleCondition doc cond with
    | (b, None) => (if Exists value then negb b else b, None)
    | (b, Some err) => (b, Some err)
    end /\
  (Exists value = false ->
   checkSingleCondition doc cond = (PassMissingKey cond, None)).
Proof.
  cbv zeta. unfold checkSingleCondition, inverted.
  cbn [CondPath CondMode CondValue Invert PassMissingKey].
  destruct (Exists _); cbn [negb].
  - split; [|discriminate].
    destruct (json_Marshal (CondValue cond)) as [target [e|]]; [reflexivity|].
    destruct (compareGjsonValues _ _ _) as [r [e|]]; [reflexivity|].
    now destruct (Invert cond), r.
  - now destruct (PassMissingKey cond).
Qed.

(** X18. A comparison fails with an error in three cases and no other: [full]
    on values of different types that are not both booleans, a numeric mode on
    a value that is no number, and a mode that is none of the eight. *)
Theorem compareGjsonValues_error_iff (a b : Result float64 Json)
    (mode : string) :
  is_Some (compareGjsonValues a b mode).2 <->
  (mode = "full" /\ ~ (is_bool a /\ is_bool b) /\ Type_of a <> Type_of b) \/
  ((mode = "gt" \/ mode = "gte" \/ mode = "lt" \/ mode = "lte") /\
   (Type_of a <> gjson.Number \/ Type_of b <> gjson.Number)) \/
  (mode <> "full" /\ mode <> "prefix" /\ mode <> "suffix" /\
   mode <> "contains" /\ mode <> "gt" /\ mode <> "gte" /\ mode <> "lt" /\
   mode <> "lte").
Proof.
  assert (forall op,
            is_Some (compareNumeric a b op).2 <->
            (Type_of a <> gjson.Number \/ Type_of b <> gjson.Number) \/
            (op <> "gt" /\ op <> "gte" /\ op <> "lt" /\ op <> "lte")) as Hnum.
  { intros op. unfold compareNumeric.
    destruct (Type_of a), (Type_of b); cbn;
      try (split; [intros _; left; (left + right); discriminate | eauto]).
    repeat match goal with
           | |- context [String.eqb op ?s] =>
             destruct (String.eqb_spec op s) as [->|?]
           end; cbn;
      (split; [intros [? [=]] | intros [[?|?] | (? & ? & ? & ?)]; congruence])
      || (split; [intros _; right; auto | eauto]). }
  assert (is_Some (compareEqual a b).2 <->
          ~ (is_bool a /\ is_bool b) /\ Type_of a <> Type_of b) as Heq.
  { unfold compareEqual, is_bool.
    destruct (Type_of a), (Type_of b); cbn;
      (split;
       [intros H;
        first [ now destruct H as [? [=]]
              | split; [intros [[?|?] [?|?]]; discriminate | discriminate] ]
       |intros [Hnb Hne];
        first [ now eauto | congruence | exfalso; apply Hnb; split; auto ]]). }
  unfold compareGjsonValues.
  repeat match goal with
         | |- context [String.eqb mode ?s] =>
           destruct (String.eqb_spec mode s) as [->|?]
         end; cbn [snd];
    try (split; [intros [? [=]]
                | intros [(? & _) | [([?|[?|[?|?]]] & _) | ?]];
                  try discriminate; tauto]).
  - rewrite Heq. split; [intros [? ?]; left; auto|].
    intros [(_ & ? & ?) | [([?|[?|[?|?]]] & _) | (? & _)]];
      first [discriminate | congruence | auto].
  - rewrite Hnum. split; [intros [?|(? & _)]; [|congruence]; right; left; auto|].
    intros [(? & _) | [(_ & ?) | (_ & _ & _ & _ & ? & _)]];
      first [discriminate | congruence | auto].
  - rewrite Hnum. split; [intros [?|(_ & ? & _)]; [|congruence]; right; left; auto|].
    intros [(? & _) | [(_ & ?) | (_ & _ & _ & _ & _ & ? & _)]];
      first [discriminate | congruence | auto].
  - rewrite Hnum. split; [intros [?|(_ & _ & ? & _)]; [|congruence]; right; left; auto|].
    intros [(? & _) | [(_ & ?) | (_ & _ & _ & _ & _ & _ & ? & _)]];
      first [discriminate | congruence | auto].
  - rewrite Hnum. split; [intros [?|(_ & _ & _ & ?)]; [|congruence]; right; left; auto|].
    intros [(? & _) | [(_ & ?) | (_ & _ & _ & _ & _ & _ & _ & ?)]];
      first [discriminate | congruence | auto].
  - split; [intros _; right; right; auto 10 | eauto].
Qed.

(** *** [ApplyParamOverride] *)

(** X19. An override whose [operations] entry is a list of well-formed
    operations is that program and nothing else: its other keys are not
    looked at. *)
Theorem ApplyParamOverride_only_operations (jsonData : Json)
    (paramOverride : gmap string (value float64))
    (opsSlice : list (value float64)) :
  paramOverride !! "operations" = Some (VList opsSlice) ->
  forallb wellFormedOperation opsSlice = true ->
  ApplyParamOverride jsonData paramOverride
  = ApplyParamOverride jsonData {[ "operations" := VList opsSlice ]}.
Proof.
  intros Hops Hwf. unfold ApplyParamOverride.
  rewrite !bool_decide_eq_false_2.
  - destruct (proj2 (tryParseOperations_is_Some paramOverride)) as [ops Hp];
      [eauto|].
    rewrite Hp. unfold tryParseOperations in *.
    rewrite lookup_singleton_eq. rewrite Hops in Hp. now rewrite Hp.
  - rewrite map_size_singleton. discriminate.
  - intros Hsize. apply map_size_empty_iff in Hsize. subst.
    now rewrite lookup_empty in Hops.
Qed.

End Generic.

(** *** The properties on sample documents *)
Import TreeJson OverrideExamples OverrideMoreExamples.

Lemma applyOperations_error_no_text_witness :
  applyOperations body [cool_down; move_missing; set_x]
  = (None, Some "operation move failed: source path does not exist: nowhere")
  /\ (None : text) = no_text /\
  exists pre op post doc',
    [cool_down; move_missing; set_x] = pre ++ op :: post /\
    applyOperations body pre = (doc', None) /\
    applyOperations doc' [op]
    = (no_text,
       Some "operation move failed: source path does not exist: nowhere").
Proof.
  assert (applyOperations body [cool_down; move_missing; set_x]
          = (None,
             Some "operation move failed: source path does not exist: nowhere"))
    as H by (vm_compute; reflexivity).
  split; [exact H|]. exact (applyOperations_error_no_text _ _ _ _ H).
Defined.

Lemma applyOperations_passed_over_witness :
  Forall (passes_over body) [gated_off; keep_model] /\
  applyOperations body [gated_off; keep_model] = (body, None).
Proof.
  assert (Forall (passes_over body) [gated_off; keep_model]) as H.
  { constructor; [left; vm_compute; reflexivity|].
    constructor; [|constructor].
    right. repeat split; vm_compute; reflexivity. }
  split; [exact H|]. exact (applyOperations_passed_over _ _ H).
Defined.

Lemma processNegativeIndex_no_minus_witness :
  no_minus "messages.0.role" = true /\
  processNegativeIndex body "messages.0.role" = "messages.0.role".
Proof.
  split; [reflexivity|].
  exact (processNegativeIndex_no_minus body "messages.0.role" eq_refl).
Defined.

Lemma mergeObjects_keys_witness :
  json_Unmarshal (Raw (gjson_Get body "messages.0"))
  = ({[ "role" := VStr "user" ]}, None) /\
  exists result,
    mergeObjects body "messages.0" (VMap more_fields) true
    = sjson_Set body "messages.0" (VMap result) /\
    forall k,
      result !! k
      = match more_fields !! k with
        | Some v =>
          if negb true
             || is_nil (({[ "role" := VStr "user" ]} : gmap string tree) !! k)
          then Some v
          else ({[ "role" := VStr "user" ]} : gmap string tree) !! k
        | None => ({[ "role" := VStr "user" ]} : gmap string tree) !! k
        end.
Proof.
  assert (json_Unmarshal (Raw (gjson_Get body "messages.0"))
          = (({[ "role" := VStr "user" ]} : gmap string tree), None)) as H
    by (vm_compute; reflexivity).
  split; [exact H|].
  exact (mergeObjects_keys body "messages.0" more_fields _ true H).
Defined.

(** With [keep_origin], the role of the first message stays and the name is
    added; without, the role is replaced as well. *)
Example mergeObjects_keep_origin :
  let merged keep :=
    (modifyValue body "messages.0" (VMap more_fields) keep false).1 in
  (String_ (gjson_Get (merged true) "messages.0.role"),
   String_ (gjson_Get (merged true) "messages.0.name"),
   String_ (gjson_Get (merged false) "messages.0.role"))
  = ("user", "n", "system").
Proof. vm_compute. reflexivity. Qed.

Lemma ApplyParamOverride_only_operations_witness :
  override_mixed !! "operations"
  = Some (VList [obj [("path", VStr "model"); ("mode", VStr "delete")]]) /\
  ApplyParamOverride body override_mixed
  = ApplyParamOverride body override_delete_model.
Proof.
  split; [reflexivity|].
  exact (ApplyParamOverride_only_operations body override_mixed _
           eq_refl eq_refl).
Defined.

(** The [temperature] of the mixed override is not applied. *)
Example ApplyParamOverride_mixed :
  let r := ApplyParamOverride body override_mixed in
  (Exists (gjson_Get r.1 "model"), Num (gjson_Get r.1 "temperature"), r.2)
  = (false, 9%Z, None).
Proof. vm_compute. reflexivity. Qed.

End OverrideMore.

(** ** More of [common/str.go] *)
Module StrFacts.
Import GoStrings StringFacts common str.

#[local] Arguments String.append : simpl nomatch.

(** *** [String2Int] *)

Ltac digit_step :=
  cbn [NilEmpty.string_of_uint digits_value Pos.of_uint_acc Pos.of_uint];
  change (is_digit _) with true; cbv iota;
  match goal with
  | |- context [Z.of_nat ?n] =>
    let v := eval vm_compute in (Z.of_nat n) in change (Z.of_nat n) with v
  end.

Lemma digits_value_of_uint_acc d acc :
  digits_value (Z.pos acc) (NilEmpty.string_of_uint d)
  = Some (Z.pos (Pos.of_uint_acc d acc)).
Proof.
  revert acc. induction d; intros acc; [reflexivity|..];
    (digit_step;
     match goal with
     | |- digits_value ?z _ = Some (Z.pos (Pos.of_uint_acc _ ?a)) =>
       replace z with (Z.pos a) by lia
     end; apply IHd).
Qed.

Lemma digits_value_of_uint d :
  digits_value 0 (NilEmpty.string_of_uint d) = Some (Z.of_N (Pos.of_uint d)).
Proof.
  induction d; [reflexivity | digit_step; exact IHd | ..];
    (digit_step; cbn [Z.of_N];
     match goal with
     | |- digits_value ?z _ = Some (Z.pos (Pos.of_uint_acc _ ?a)) =>
       replace z with (Z.pos a) by lia
     end; apply digits_value_of_uint_acc).
Qed.

Lemma numeral_Itoa n : strconv.numeral (Itoa n) = Some n.
Proof.
  unfold Itoa. destruct n as [|p|p]; [reflexivity| |];
    cbn [Z.to_int NilZero.string_of_int];
    pose proof (DecimalPos.Unsigned.to_uint_nonnil p) as Hnil;
    pose proof (digits_value_of_uint (Pos.to_uint p)) as Hd;
    rewrite DecimalPos.Unsigned.of_to in Hd;
    unfold NilZero.string_of_uint;
    destruct (Pos.to_uint p); try contradiction;
    cbn [NilEmpty.string_of_uint] in *; unfold strconv.numeral;
    cbn [fmap option_fmap option_map]; rewrite Hd; reflexivity.
Qed.

(** X20. Reading back what [strconv.Itoa] wrote gives the number: for every
    [int] [n], [String2Int(strconv.Itoa(n))] is [n]. *)
Theorem String2Int_Itoa (n : Z) :
  GoInt.in_range n -> String2Int (Itoa n) = n.
Proof.
  intros Hn. unfold String2Int, strconv.Atoi. rewrite numeral_Itoa.
  unfold GoInt.in_range in Hn.
  destruct (Z.leb_spec GoInt.min_int n); [|lia].
  destruct (Z.leb_spec n GoInt.max_int); [|lia].
  cbn [andb negb]. lia.
Qed.

Lemma String2Int_Itoa_witness :
  GoInt.in_range (-408) /\ String2Int (Itoa (-408)) = -408.
Proof.
  assert (GoInt.in_range (-408)) as H.
  { unfold GoInt.in_range, GoInt.min_int, GoInt.max_int. lia. }
  split; [exact H | exact (String2Int_Itoa (-408) H)].
Defined.

(** The two models of [strconv.Atoi] agree on the value. *)
Lemma Atoi_value s : (strconv.Atoi s).1 = GoStrings.Atoi s.
Proof.
  unfold strconv.Atoi, strconv.numeral, GoStrings.Atoi.
  destruct s as [|c [|c' ds]]; [reflexivity| |].
  - destruct (Ascii.eqb_spec c "-") as [->|?]; [reflexivity|].
    destruct (Ascii.eqb_spec c "+") as [->|?]; [reflexivity|].
    destruct c as [[] [] [] [] [] [] [] []]; try congruence;
      now destruct (digits_value 0 _).
  - destruct (Ascii.eqb_spec c "-") as [->|?].
    { cbn [fmap option_fmap option_map].
      now destruct (digits_value 0 (String c' ds)). }
    destruct (Ascii.eqb_spec c "+") as [->|?].
    { now destruct (digits_value 0 (String c' ds)). }
    destruct c as [[] [] [] [] [] [] [] []]; try congruence;
      now destruct (digits_value 0 _).
Qed.

(** *** [StringsContains] *)

(** X21. [StringsContains] is membership in the slice. *)
Theorem StringsContains_iff (strs : list string) (str : string) :
  StringsContains strs str = true <-> str ∈ strs.
Proof.
  induction strs as [|s strs IH]; cbn [StringsContains].
  - split; [discriminate | intros H; inversion H].
  - rewrite elem_of_cons, <- IH.
    destruct (String.eqb_spec s str) as [->|Hne]; [tauto|].
    split; [auto | intros [?|?]; congruence].
Qed.

(** *** [MaskEmail] *)

Lemma HasPrefix_empty s : HasPrefix s "" = true.
Proof. now destruct s. Qed.

Lemma Index_char s c :
  Index s (String c "")
  = match s with
    | EmptyString => None
    | String x s' =>
      if Ascii.eqb x c then Some 0%nat else S <$> Index s' (String c "")
    end.
Proof.
  destruct s as [|x s']; [reflexivity|].
  cbn [Index HasPrefix]. rewrite HasPrefix_empty, andb_true_r. reflexivity.
Qed.

Lemma Index_at local domain :
  Contains local "@" = false ->
  Index (local +:+ String "@" domain) "@" = Some (String.length local).
Proof.
  unfold Contains. induction local as [|c local IH]; intros Hat.
  - cbn [append]. rewrite Index_char. reflexivity.
  - rewrite Index_char in Hat. cbn [append]. rewrite Index_char.
    destruct (Ascii.eqb c "@"); [discriminate|].
    destruct (Index local "@") eqn:Hi; [discriminate|].
    now rewrite IH.
Qed.

(** X22. Of an address, [MaskEmail] keeps what follows the first [@] and
    nothing of what precedes it; a text without [@] is masked whole. *)
Theorem MaskEmail_hides_local (local domain : string) :
  Contains local "@" = false ->
  MaskEmail (local +:+ "@" +:+ domain) = "***@" +:+ domain /\
  MaskEmail local = "***masked***".
Proof.
  intros Hat. unfold MaskEmail.
  change ("@" +:+ domain) with (String "@" domain).
  rewrite (Index_at _ _ Hat). split.
  - destruct (String.eqb_spec (local +:+ String "@" domain) "") as [He|_].
    { destruct local; discriminate. }
    f_equal. rewrite (drop_append local). reflexivity.
  - unfold Contains in Hat. destruct (Index local "@"); [discriminate|].
    now destruct (String.eqb local "").
Qed.

Lemma MaskEmail_hides_local_witness :
  Contains "john.doe" "@" = false /\
  MaskEmail ("john.doe" +:+ "@" +:+ "example.com") = "***@" +:+ "example.com" /\
  MaskEmail "john.doe" = "***masked***".
Proof.
  split; [reflexivity|].
  exact (MaskEmail_hides_local "john.doe" "example.com" eq_refl).
Defined.

(** *** [GetRandomString] *)

Lemma get_Contains n s ch :
  String.get n s = Some ch -> Contains s (String ch "") = true.
Proof.
  unfold Contains. revert n. induction s as [|x s IH]; intros n Hget;
    [discriminate|].
  rewrite Index_char.
  destruct (Ascii.eqb_spec x ch) as [->|Hne]; [reflexivity|].
  destruct n as [|n]; cbn [String.get] in Hget; [congruence|].
  specialize (IH n Hget). now destruct (Index s (String ch "")).
Qed.

Lemma get_None n s : String.get n s = None -> (String.length s <= n)%nat.
Proof.
  revert n. induction s as [|x s IH]; intros n Hget; [cbn; lia|].
  destruct n as [|n]; cbn [String.get] in Hget; [discriminate|].
  specialize (IH n Hget). cbn. lia.
Qed.

Lemma fill_spec keyChars draw i count :
  (forall j, 0 <= draw j < Z.of_nat (String.length keyChars))%Z ->
  exists s,
    fill keyChars draw i count = Some s /\
    String.length s = count /\
    all_chars (fun ch => Contains keyChars (String ch "")) s = true.
Proof.
  intros Hdraw. revert i. induction count as [|count IH]; intros i.
  { exists "". auto. }
  cbn [fill]. destruct (Hdraw i) as [H0 Hlt].
  destruct (String.get (Z.to_nat (draw i)) keyChars) as [ch|] eqn:Hget.
  2:{ apply get_None in Hget. lia. }
  destruct (Z.leb_spec 0 (draw i)); [|lia].
  destruct (IH (S i)) as (s & -> & Hlen & Hall).
  exists (String ch s). cbn [fmap option_fmap option_map].
  split; [reflexivity|]. split; [cbn; now rewrite Hlen|].
  cbn [all_chars]. now rewrite (get_Contains _ _ _ Hget), Hall.
Qed.

(** X23. If [rand.Intn] keeps its word and returns indices into [keyChars],
    [GetRandomString] returns as many characters as asked for, each taken
    from [keyChars]. *)
Theorem GetRandomString_spec (keyChars : string) (draw : nat -> Z)
    (length : Z) :
  (0 <= length)%Z ->
  (forall j, 0 <= draw j < Z.of_nat (String.length keyChars))%Z ->
  exists s,
    GetRandomString keyChars draw length = Some s /\
    String.length s = Z.to_nat length /\
    all_chars (fun ch => Contains keyChars (String ch "")) s = true.
Proof.
  intros Hlen Hdraw. unfold GetRandomString.
  destruct (Z.ltb_spec length 0); [lia|]. now apply fill_spec.
Qed.

Lemma GetRandomString_spec_witness :
  (0 <= 3)%Z /\
  (forall j, 0 <= Z.of_nat (j mod 2) < Z.of_nat (String.length "xy"))%Z /\
  exists s,
    GetRandomString "xy" (fun j => Z.of_nat (j mod 2)) 3 = Some s /\
    String.length s = Z.to_nat 3 /\
    all_chars (fun ch => Contains "xy" (String ch "")) s = true.
Proof.
  assert (forall j, 0 <= Z.of_nat (j mod 2)
                    < Z.of_nat (String.length "xy"))%Z as H.
  { intros j. pose proof (Nat.mod_upper_bound j 2). cbn. lia. }
  split; [lia|]. split; [exact H|].
  exact (GetRandomString_spec "xy" (fun j => Z.of_nat (j mod 2)) 3
           ltac:(lia) H).
Defined.

End StrFacts.

(** ** More on the masks *)
Module MaskMore.
Import GoStrings StringFacts common TextProps MaskFacts StrFacts.

Local Open Scope nat_scope.
#[local] Arguments String.append : simpl nomatch.

(** *** Splitting at dots *)

Lemma Split_go_dot_step c s cur :
  Split_go "." (String c s) 0 cur
  = if Ascii.eqb c "." then String.rev cur :: Split_go "." s 0 ""
    else Split_go "." s 0 (String c cur).
Proof.
  cbn [Split_go HasPrefix]. rewrite HasPrefix_empty, andb_true_r.
  reflexivity.
Qed.

Lemma Split_go_dot_app x y cur :
  Split_go "." (x +:+ String "." y) 0 cur
  = Split_go "." x 0 cur ++ Split_go "." y 0 "".
Proof.
  revert cur. induction x as [|c x IH]; intros cur.
  - cbn [append]. rewrite Split_go_dot_step. reflexivity.
  - cbn [append]. rewrite !Split_go_dot_step.
    destruct (Ascii.eqb c "."); [|apply IH].
    cbn [app]. now rewrite IH.
Qed.

Lemma Split_go_no_dot a cur :
  lacks "." a = true -> Split_go "." a 0 cur = [String.rev cur +:+ a].
Proof.
  revert cur. unfold lacks.
  induction a as [|c a IH]; intros cur Ha; cbn [all_chars] in Ha.
  - cbn [Split_go]. now rewrite append_nil_r.
  - apply andb_true_iff in Ha as [Hc Ha]. rewrite Split_go_dot_step.
    destruct (Ascii.eqb c "."); [discriminate|].
    rewrite (IH _ Ha), rev_cons, append_assoc. reflexivity.
Qed.

(** The labels of [sub.a.b] are those of [sub], then [a], then [b]. *)
Lemma Split_labels sub a b :
  lacks "." a = true -> lacks "." b = true ->
  Split (sub +:+ "." +:+ a +:+ "." +:+ b) "." = Split sub "." ++ [a; b].
Proof.
  intros Ha Hb. unfold Split.
  change ("." +:+ a +:+ "." +:+ b) with (String "." (a +:+ String "." b)).
  rewrite !Split_go_dot_app, (Split_go_no_dot a), (Split_go_no_dot b) by auto.
  reflexivity.
Qed.

Lemma Split_two a b :
  lacks "." a = true -> lacks "." b = true ->
  Split (a +:+ "." +:+ b) "." = [a; b].
Proof.
  intros Ha Hb. unfold Split.
  change ("." +:+ b) with (String "." b).
  rewrite Split_go_dot_app, (Split_go_no_dot a), (Split_go_no_dot b) by auto.
  reflexivity.
Qed.

Lemma Split_go_nonempty s cur : 1 <= List.length (Split_go "." s 0 cur).
Proof.
  revert cur. induction s as [|c s IH]; intros cur; [cbn; lia|].
  rewrite Split_go_dot_step. destruct (Ascii.eqb c "."); [cbn; lia|apply IH].
Qed.

Lemma maskHostTail_last_two pre a b :
  maskHostTail (pre ++ [a; b])
  = if (String.length b =? 2) && (String.length a <=? 3) then [a; b] else [b].
Proof.
  unfold maskHostTail.
  assert (List.length (pre ++ [a; b]) = List.length pre + 2) as Hl
    by (rewrite length_app; reflexivity).
  rewrite Hl.
  destruct (Nat.ltb_spec (List.length pre + 2) 2); [lia|].
  replace (List.length pre + 2 - 1) with (List.length pre + 1) by lia.
  replace (List.length pre + 2 - 2) with (List.length pre + 0) by lia.
  rewrite !(app_nth2_plus pre [a; b]). reflexivity.
Qed.

(** *** Hosts *)

(** X24. Of a host in a URL the mask shows the last label, or the last two when
    they look like a country-code ending, and nothing else: whatever labels
    come before, and however many, the result is the same. *)
Theorem maskHostForURL_last_two (sub a b : string) :
  lacks "." a = true -> lacks "." b = true ->
  maskHostForURL (sub +:+ "." +:+ a +:+ "." +:+ b)
  = "***." +:+ kept_labels a b /\
  maskHostForURL (a +:+ "." +:+ b) = "***." +:+ kept_labels a b.
Proof.
  intros Ha Hb. unfold maskHostForURL, kept_labels.
  rewrite (Split_labels sub a b Ha Hb), (Split_two a b Ha Hb).
  rewrite length_app. cbn [List.length].
  destruct (Nat.ltb_spec (List.length (Split sub ".") + 2) 2); [lia|].
  cbn [Nat.ltb Nat.leb].
  rewrite maskHostTail_last_two.
  change [a; b] with ([] ++ [a; b]) at 2. rewrite maskHostTail_last_two.
  destruct (_ && _); split; reflexivity.
Qed.

Lemma maskHostForURL_last_two_witness :
  lacks "." "co" = true /\ lacks "." "uk" = true /\
  maskHostForURL ("internal.billing" +:+ "." +:+ "co" +:+ "." +:+ "uk")
  = "***." +:+ kept_labels "co" "uk" /\
  maskHostForURL ("co" +:+ "." +:+ "uk") = "***." +:+ kept_labels "co" "uk".
Proof.
  split; [reflexivity|]. split; [reflexivity|].
  exact (maskHostForURL_last_two "internal.billing" "co" "uk" eq_refl eq_refl).
Defined.

(** X25. Of a bare domain the mask shows, besides those labels, only how many
    labels it covered: one group of stars for each. *)
Theorem maskHostForPlainDomain_depth (sub a b : string) :
  lacks "." a = true -> lacks "." b = true ->
  let labels := List.length (Split sub ".") in
  let covered :=
    if (String.length b =? 2) && (String.length a <=? 3)
    then labels else S labels in
  maskHostForPlainDomain (sub +:+ "." +:+ a +:+ "." +:+ b)
  = Join (replicate covered "***") "." +:+ "." +:+ kept_labels a b.
Proof.
  intros Ha Hb. cbv zeta. unfold maskHostForPlainDomain, kept_labels.
  rewrite (Split_labels sub a b Ha Hb), maskHostTail_last_two.
  rewrite length_app. cbn [List.length].
  pose proof (Split_go_nonempty sub "") as Hne. fold (Split sub ".") in Hne.
  set (k := List.length (Split sub ".")) in *.
  destruct (Nat.ltb_spec (k + 2) 2); [lia|].
  destruct (_ && _); cbn [List.length Join].
  - replace (k + 2 - 2) with k by lia.
    destruct (Nat.ltb_spec k 1); [lia|].
    destruct k as [|k]; [lia|].
    now rewrite Repeat_stars, TrimSuffix_dot.
  - replace (k + 2 - 1) with (S k) by lia.
    destruct (Nat.ltb_spec (S k) 1); [lia|].
    now rewrite Repeat_stars, TrimSuffix_dot.
Qed.

Lemma maskHostForPlainDomain_depth_witness :
  lacks "." "openai" = true /\ lacks "." "com" = true /\
  maskHostForPlainDomain ("eu.api" +:+ "." +:+ "openai" +:+ "." +:+ "com")
  = "***.***.***.com".
Proof.
  split; [reflexivity|]. split; [reflexivity|].
  exact (maskHostForPlainDomain_depth "eu.api" "openai" "com" eq_refl eq_refl).
Defined.

(** *** Texts the masks leave alone *)

Lemma lacks_cons c x s :
  lacks c (String x s) = true -> Ascii.eqb x c = false /\ lacks c s = true.
Proof.
  unfold lacks. cbn [all_chars]. intros H.
  apply andb_true_iff in H as [Hx Hs]. split; [|exact Hs].
  now destruct (Ascii.eqb x c).
Qed.

(** Matching [r] on the way to a continuation that is blind is blind. *)
Lemma run_blind c r :
  forall k, blind c k ->
  blind c (fun prev s pos caps => regexp.run r prev s pos caps k).
Proof.
  induction r as [|p|r1 IH1 r2 IH2|r1 IH1 r2 IH2|r1 IH1| |r1 IH1];
    intros k Hk prev s pos caps Hs; cbn [regexp.run].
  - now apply Hk.
  - destruct s as [|x s]; [reflexivity|].
    destruct (p x); [|reflexivity]. apply Hk. now apply lacks_cons in Hs.
  - apply (IH1 _ (IH2 k Hk)); exact Hs.
  - rewrite (IH1 k Hk) by exact Hs. now apply IH2.
  - generalize (String.length s). intros fuel.
    revert prev s pos caps Hs.
    induction fuel as [|fuel IHf]; intros prev s pos caps Hs;
      cbn [regexp.star_loop]; [now apply Hk|].
    rewrite (IH1 (fun prev' s' pos' caps' =>
                    if pos <? pos'
                    then regexp.star_loop (regexp.run r1) k fuel prev' s'
                           pos' caps'
                    else None)).
    + now apply Hk.
    + intros prev' s' pos' caps' Hs'. destruct (pos <? pos'); [|reflexivity].
      now apply IHf.
    + exact Hs.
  - destruct (xorb _ _); [now apply Hk | reflexivity].
  - apply (IH1 (fun prev' s' pos' caps' =>
                  k prev' s' pos' (caps' ++ [(pos, pos')]))); [|exact Hs].
    intros prev' s' pos' caps' Hs'. now apply Hk.
Qed.

(** An expression that needs [c] matches nothing in a text without it,
    whatever comes after. *)
Lemma run_needs c r :
  needs c r ->
  forall k, blind c (fun prev s pos caps => regexp.run r prev s pos caps k).
Proof.
  induction r as [|p|r1 IH1 r2 IH2|r1 IH1 r2 IH2|r1 IH1| |r1 IH1];
    cbn [needs]; intros Hr k prev s pos caps Hs; cbn [regexp.run];
    try contradiction.
  - destruct s as [|x s]; [reflexivity|].
    apply lacks_cons in Hs as [Hx Hs].
    destruct (p x) eqn:Hp; [|reflexivity].
    apply Hr in Hp. subst x. now rewrite Ascii.eqb_refl in Hx.
  - destruct Hr as [Hr|Hr].
    + now apply (IH1 Hr).
    + apply (run_blind c r1 _ (IH2 Hr k)). exact Hs.
  - destruct Hr as [H1 H2]. rewrite (IH1 H1 k) by exact Hs.
    now apply (IH2 H2).
  - now apply (IH1 Hr).
Qed.

Lemma ReplaceAll_go_lacks c r repl s :
  needs c r -> lacks c s = true ->
  forall prev, regexp.ReplaceAll_go r repl s prev 0 = s.
Proof.
  intros Hr. induction s as [|x s IH]; intros Hs prev; [reflexivity|].
  cbn [regexp.ReplaceAll_go]. unfold regexp.match_here.
  rewrite (run_needs c r Hr) by exact Hs.
  apply lacks_cons in Hs as [_ Hs]. now rewrite IH.
Qed.

Lemma eqb_class c x : Ascii.eqb c x = true -> x = c.
Proof. intros H. apply Ascii.eqb_eq in H. congruence. Qed.

Lemma urlPattern_needs : needs ":" urlPattern.
Proof.
  unfold urlPattern. cbn -[Ascii.eqb]. right. left. left. apply eqb_class.
Qed.

Lemma domainPattern_needs : needs "." domainPattern.
Proof.
  unfold domainPattern, domainLabel. cbn -[Ascii.eqb regexp.alnum].
  right. left. left. right. apply eqb_class.
Qed.

Lemma ipPattern_needs : needs "." ipPattern.
Proof.
  unfold ipPattern, octet. cbn -[Ascii.eqb regexp.digit].
  right. left. left. right. apply eqb_class.
Qed.

Section WithURL.
Context `{P : url.Package}.

(** X26. A text with neither a dot nor a colon in it has nothing the mask looks
    for: [MaskSensitiveInfo] returns it as it is, whatever [net/url] would
    make of it. *)
Theorem MaskSensitiveInfo_plain (str : string) :
  lacks "." str = true -> lacks ":" str = true ->
  MaskSensitiveInfo str = str.
Proof.
  intros Hdot Hcolon.
  unfold MaskSensitiveInfo, regexp.ReplaceAllString,
    regexp.ReplaceAllStringFunc.
  rewrite (ReplaceAll_go_lacks ":" urlPattern _ str urlPattern_needs Hcolon).
  rewrite (ReplaceAll_go_lacks "." domainPattern _ str domainPattern_needs
             Hdot).
  apply (ReplaceAll_go_lacks "." ipPattern _ str ipPattern_needs Hdot).
Qed.

End WithURL.

Lemma MaskSensitiveInfo_plain_witness :
  lacks "." "upstream timeout after 30s" = true /\
  lacks ":" "upstream timeout after 30s" = true /\
  MaskSensitiveInfo (H := PlainURL.package) "upstream timeout after 30s"
  = "upstream timeout after 30s".
Proof.
  split; [reflexivity|]. split; [reflexivity|].
  exact (MaskSensitiveInfo_plain (P := PlainURL.package)
           "upstream timeout after 30s" eq_refl eq_refl).
Defined.

End MaskMore.

(** ** The logging transport *)
Module LogFacts.
Import GoStrings StringFacts model_log.

Local Open Scope nat_scope.
#[local] Arguments String.append : simpl nomatch.

Lemma take_add n m s : take (n + m) s = take n s +:+ take m (drop n s).
Proof.
  revert s. induction n as [|n IH]; intros s; [reflexivity|].
  destruct s as [|c s]; cbn [Nat.add take drop append].
  - now destruct m.
  - now rewrite IH.
Qed.

(** A body that is closed hands nothing to [PostProcess] any more. *)
Lemma steps_closed r actions :
  closed r = true -> (steps r actions).2 = [].
Proof.
  revert r. induction actions as [|a actions IH]; intros r Hc; [reflexivity|].
  cbn [steps]. destruct a as [n|]; cbn [step].
  - match goal with
    | |- context [steps ?r1 actions] =>
      specialize (IH r1 Hc); destruct (steps r1 actions) as [r2 logs2]
    end.
    exact IH.
  - rewrite Hc, andb_false_r. specialize (IH r Hc).
    destruct (steps r actions) as [r2 logs2]. exact IH.
Qed.

Lemma steps_open r actions :
  closeFunc r = true -> closed r = false ->
  (steps r actions).2
  = if existsb is_close actions
    then [{| Req := Req (l r);
             Res := buf r +:+ take (read_before_close actions) (upstream r);
             Err := Err (l r) |}]
    else [].
Proof.
  revert r. induction actions as [|a actions IH]; intros r Hf Hc;
    [reflexivity|].
  cbn [steps existsb is_close read_before_close]. destruct a as [n|];
    cbn [step is_close orb].
  - match goal with
    | |- context [steps ?r1 actions] =>
      specialize (IH r1 Hf Hc); destruct (steps r1 actions) as [r2 logs2]
    end.
    cbn [snd app] in *. rewrite IH. cbn [l buf upstream].
    now rewrite take_add, append_assoc.
  - rewrite Hf, Hc. cbn [andb negb].
    match goal with
    | |- context [steps ?r1 actions] =>
      pose proof (steps_closed r1 actions eq_refl) as Hrest;
        destruct (steps r1 actions) as [r2 logs2]
    end.
    cbn [snd] in *. rewrite Hrest. cbn [take]. now rewrite append_nil_r.
Qed.

(** X27. An exchange on the logged path gives [PostProcess] one record and no
    more: at once when reading the request or the round trip fails, else at
    the first [Close] of the response body, with the request bytes and the
    part of the response that was read until then.  Other paths are
    forwarded and leave no record. *)
Theorem RoundTrip_logs_once
    (transport : option (string * option string) -> string + string)
    (path : string) (body : option (string * option string))
    (actions : list Action) :
  match RoundTrip transport path body with
  | (Forwarded answer, logs) =>
    path <> "/v1/chat/completions" /\ answer = transport body /\ logs = []
  | (Failed e, logs) =>
    path = "/v1/chat/completions" /\
    exists req, logs = [{| Req := req; Res := ""; Err := e |}]
  | (Logged r, logs) =>
    path = "/v1/chat/completions" /\ logs = [] /\
    (steps r actions).2
    = if existsb is_close actions
      then [{| Req := default "" (fst <$> body);
               Res := take (read_before_close actions) (upstream r);
               Err := "" |}]
      else []
  end.
Proof.
  unfold RoundTrip.
  destruct (String.eqb_spec path "/v1/chat/completions") as [->|Hne];
    cbn [negb]; [|auto].
  destruct body as [[reqBody [e|]]|]; cbn [fmap option_fmap option_map fst].
  - eauto.
  - destruct (transport _) as [respBody|e]; [|eauto].
    split; [reflexivity|]. split; [reflexivity|].
    now rewrite steps_open.
  - destruct (transport _) as [respBody|e]; [|eauto].
    split; [reflexivity|]. split; [reflexivity|].
    now rewrite steps_open.
Qed.

(** Two reads, a close, and what comes after the close goes unlogged. *)
Example RoundTrip_partial_read :
  match RoundTrip (fun _ => inl "data: hello") "/v1/chat/completions"
          (Some ("{}", None)) with
  | (Logged r, _) => (steps r [Read 4; Read 3; Close; Read 4; Close]).2
  | _ => []
  end
  = [{| Req := "{}"; Res := "data: h"; Err := "" |}].
Proof. reflexivity. Qed.

End LogFacts.

(** ** A session from a token *)
Module SessionFacts.
Import GoStrings StringFacts middleware.

#[local] Arguments String.append : simpl nomatch.

Lemma Replace1_prefix old s :
  Replace1 (old +:+ s) old "" = s.
Proof.
  unfold Replace1. rewrite (Index_here _ _ (HasPrefix_append old s)).
  cbn [take Nat.add append].
  rewrite <- (Nat.add_0_r (String.length old)). apply drop_append.
Qed.

(** X28. The scheme is optional: a header without [Bearer ] in it is taken for
    the token itself, and fares as the same token behind [Bearer ] does. *)
Theorem JWT2Session_bearer (parse : Parser) (Save : Session -> bool)
    (t : string) (session : Session) :
  t <> "" -> Contains t "Bearer " = false ->
  JWT2Session parse Save ("Bearer " +:+ t) session
  = JWT2Session parse Save t session.
Proof.
  intros Ht Hno. unfold JWT2Session.
  rewrite (Replace1_prefix "Bearer " t).
  assert (Replace1 t "Bearer " "" = t) as ->.
  { unfold Replace1, Contains in *. now destruct (Index t "Bearer "). }
  destruct (String.eqb_spec t "") as [?|_]; [contradiction|]. reflexivity.
Qed.

Lemma JWT2Session_bearer_witness :
  "abc.def" <> "" /\ Contains "abc.def" "Bearer " = false /\
  forall parse Save session,
    JWT2Session parse Save ("Bearer " +:+ "abc.def") session
    = JWT2Session parse Save "abc.def" session.
Proof.
  assert ("abc.def" <> "") as H by discriminate.
  split; [exact H|]. split; [reflexivity|].
  intros parse Save session.
  exact (JWT2Session_bearer parse Save "abc.def" session H eq_refl).
Defined.

(** X29. What [JWT2Session] does to the session: nothing without a header or
    with a token that does not parse or is not valid (the request is then
    aborted with 401); with a valid token, the ten keys take the values of
    the claims and every other key stays, and the request goes on exactly
    when the session could be saved. *)
Theorem JWT2Session_session (parse : Parser) (Save : Session -> bool)
    (token : string) (session : Session) :
  (token = "" -> JWT2Session parse Save token session = Next session) /\
  (token <> "" ->
   match ParseToken parse (Replace1 token "Bearer " "") with
   | None =>
     exists message,
       JWT2Session parse Save token session
       = Abort StatusUnauthorized message session
   | Some claims =>
     let session' := setClaims claims session in
     (if Save session'
      then JWT2Session parse Save token session = Next session'
      else exists message,
          JWT2Session parse Save token session
          = Abort StatusInternalServerError message session') /\
     session' !! "id" = Some (SInt (ID claims)) /\
     session' !! "username" = Some (SString (Username claims)) /\
     session' !! "role" = Some (SInt (Role claims)) /\
     session' !! "status" = Some (SInt (Status claims)) /\
     session' !! "group" = Some (SString (Group claims)) /\
     session' !! "turnstile" = Some (SBool (Turnstile claims)) /\
     session' !! "pending_username"
     = Some (SString (PendingUsername claims)) /\
     session' !! "pending_user_id" = Some (SString (PendingUserID claims)) /\
     session' !! "aff" = Some (SString (AffCode claims)) /\
     session' !! "oauth_state" = Some (SString (OAuthState claims)) /\
     forall k, k ∉ claimKeys -> session' !! k = session !! k
   end).
Proof.
  unfold JWT2Session. split.
  - now intros ->.
  - intros Ht. destruct (String.eqb_spec token "") as [?|_]; [contradiction|].
    cbn [negb].
    destruct (ParseToken parse _) as [claims|]; [|eauto].
    cbv zeta. split.
    { destruct (Save _); cbn [negb]; eauto. }
    unfold setClaims.
    repeat (split;
            [repeat (rewrite lookup_insert_ne by discriminate);
             now rewrite lookup_insert_eq|]).
    intros k Hk. unfold claimKeys in Hk.
    repeat (rewrite lookup_insert_ne;
            [|intros <-; apply Hk; set_solver]).
    reflexivity.
Qed.

End SessionFacts.

(** ** The Ali adaptor *)
Module AliFacts.
Import GoStrings ali.

(** X30. However the request and the relay information come in,
    [requestOpenAI2Ali] never sees thinking enabled on a call that does not
    stream; a model with [thinking] in its name is made to stream with
    thinking enabled; the model itself is not touched. *)
Theorem ConvertOpenAIRequest_thinking (IsStream : bool)
    (request : GeneralOpenAIRequest) :
  exists request' IsStream',
    ConvertOpenAIRequest IsStream (Some request)
    = inr (request', IsStream') /\
    Model request' = Model request /\
    (EnableThinking request' = true -> IsStream' = true) /\
    (Contains (Model request) "thinking" = true ->
     EnableThinking request' = true /\ Stream request' = true /\
     IsStream' = true) /\
    (Contains (Model request) "thinking" = false -> IsStream' = IsStream).
Proof.
  unfold ConvertOpenAIRequest.
  destruct (Contains (Model request) "thinking"), IsStream;
    cbn [negb]; eexists _, _; (split; [reflexivity|]); cbn;
    repeat split; auto; discriminate.
Qed.

End AliFacts.
